(** * booktoki.py: crawler text formatting, paginator and challenge navigator

    A shallow embedding of the pure text algorithms of [BookTokiCrawler] and
    [NovelImageConverter] and of the retry state machine of
    [CloudflareBypass], with the properties the specification states about
    them. *)

From Stdlib Require Import Ascii String List ZArith NArith Lia Bool Arith.
Import ListNotations.

(** ** Python strings

    A Python [str] is a sequence of Unicode code points; [len], slicing and
    indexing count code points, so a Korean syllable is one character. *)
Module Py.

Definition char := N.
Definition str := list char.

(** An ASCII literal as a [str]. *)
Fixpoint of_string (s : string) : str :=
  match s with
  | EmptyString => []
  | String a s' => N_of_ascii a :: of_string s'
  end.

Definition LF : char := 10%N.
Definition CR : char := 13%N.
Definition SPACE : char := 32%N.

(** [str.isspace] on one character: the code points CPython's
    [_PyUnicode_IsWhitespace] accepts. *)
Definition isspace (c : char) : bool :=
  let between lo hi := (N.leb lo c && N.leb c hi)%bool in
  (between 9 13 || between 28 32 || N.eqb c 133 || N.eqb c 160
   || N.eqb c 5760 || between 8192 8202 || N.eqb c 8232 || N.eqb c 8233
   || N.eqb c 8239 || N.eqb c 8287 || N.eqb c 12288)%N%bool.

(** The line boundaries of [str.splitlines]: LF, VT, FF, CR, FS, GS, RS, NEL,
    LS and PS (CR LF counts once). *)
Definition is_linebreak (c : char) : bool :=
  ((N.leb 10 c && N.leb c 13) || (N.leb 28 c && N.leb c 30)
   || N.eqb c 133 || N.eqb c 8232 || N.eqb c 8233)%N%bool.

(** [s.lstrip()], [s.rstrip()] and [s.strip()] with no argument. *)
Fixpoint lstrip (s : str) : str :=
  match s with
  | [] => []
  | c :: s' => if isspace c then lstrip s' else s
  end.

Definition rstrip (s : str) : str := rev (lstrip (rev s)).

Definition strip (s : str) : str := rstrip (lstrip s).

(** Truth value of a sequence: [not s] is [negb (truthy s)]. *)
Definition truthy {A} (l : list A) : bool :=
  match l with [] => false | _ :: _ => true end.

(** [s.split(sep)] for a one-character separator: always at least one field. *)
Fixpoint split_on (sep : char) (s : str) : list str :=
  match s with
  | [] => [[]]
  | c :: s' =>
      if N.eqb c sep then [] :: split_on sep s'
      else match split_on sep s' with
           | [] => [[c]]
           | f :: fs => (c :: f) :: fs
           end
  end.

(** [s.split()]: the maximal runs of non-whitespace characters. *)
Fixpoint split_ws (s : str) : list str :=
  match s with
  | [] => []
  | c :: s' =>
      if isspace c then split_ws s'
      else match s' with
           | [] => [[c]]
           | d :: _ =>
               if isspace d then [c] :: split_ws s'
               else match split_ws s' with
                    | [] => [[c]]
                    | w :: ws => (c :: w) :: ws
                    end
           end
  end.

(** [sep.join(parts)]. *)
Fixpoint join (sep : str) (parts : list str) : str :=
  match parts with
  | [] => []
  | [p] => p
  | p :: ps => p ++ sep ++ join sep ps
  end.

(** [s.splitlines()]: the flag records that the previous character was a CR,
    so that the LF of a CR LF pair ends no second line. A trailing boundary
    opens no empty last line. *)
Fixpoint splitlines_from (after_cr : bool) (s : str) : list str :=
  match s with
  | [] => []
  | c :: s' =>
      if (after_cr && N.eqb c LF)%bool then splitlines_from false s'
      else if is_linebreak c then [] :: splitlines_from (N.eqb c CR) s'
      else match splitlines_from false s' with
           | [] => [[c]]
           | l :: ls => (c :: l) :: ls
           end
  end.

Definition splitlines (s : str) : list str := splitlines_from false s.

(** A slice bound as Python normalises it: a negative bound counts from the
    end, and the result is clamped to [0, len]. *)
Definition slice_bound (len : nat) (i : Z) : nat :=
  if (i <? 0)%Z then Z.to_nat (Z.max 0 (Z.of_nat len + i))
  else Nat.min len (Z.to_nat i).

(** [s[:i]] and [s[i:]]. *)
Definition slice_to {A} (s : list A) (i : Z) : list A :=
  firstn (slice_bound (length s) i) s.

Definition slice_from {A} (s : list A) (i : Z) : list A :=
  skipn (slice_bound (length s) i) s.

(** [re.sub(r'[...]', repl, s)] for a pattern that is one character class:
    the scan replaces every character of the class, left to right. *)
Fixpoint re_sub_class (cls : list char) (repl : str) (s : str) : str :=
  match s with
  | [] => []
  | c :: s' =>
      (if existsb (N.eqb c) cls then repl else [c]) ++ re_sub_class cls repl s'
  end.

(** *** Facts about the string primitives *)

Lemma existsb_eqb_In (c : char) (cls : list char) :
  existsb (N.eqb c) cls = true <-> In c cls.
Proof.
  rewrite existsb_exists. split.
  - intros [x [Hin Heq]]. apply N.eqb_eq in Heq. now subst.
  - intros Hin. exists c. split; [assumption | apply N.eqb_refl].
Qed.

Lemma split_on_nonempty (sep : char) (s : str) : split_on sep s <> [].
Proof.
  destruct s as [|c s]; simpl; [discriminate|].
  destruct (N.eqb c sep); [discriminate|].
  destruct (split_on sep s); discriminate.
Qed.

Lemma split_on_cons (sep c : char) (s : str) :
  split_on sep (c :: s) =
  if N.eqb c sep then [] :: split_on sep s
  else match split_on sep s with
       | [] => [[c]]
       | f :: fs => (c :: f) :: fs
       end.
Proof. reflexivity. Qed.

Lemma split_on_no_sep (sep : char) (l : str) :
  ~ In sep l -> split_on sep l = [l].
Proof.
  induction l as [|c l IH]; intros Hn; [reflexivity|].
  rewrite split_on_cons.
  destruct (N.eqb_spec c sep) as [->|Hne]; [exfalso; apply Hn; now left|].
  rewrite IH; [reflexivity|]. intros Hin. apply Hn. now right.
Qed.

Lemma split_on_app (sep : char) (a b : str) :
  split_on sep (a ++ sep :: b) = split_on sep a ++ split_on sep b.
Proof.
  induction a as [|c a IH].
  - simpl app. rewrite split_on_cons, N.eqb_refl. reflexivity.
  - rewrite <- app_comm_cons, !split_on_cons, IH.
    destruct (N.eqb c sep); [reflexivity|].
    pose proof (split_on_nonempty sep a) as Hne.
    destruct (split_on sep a); [contradiction|reflexivity].
Qed.

Lemma split_on_fields (sep : char) (s : str) :
  Forall (fun f => ~ In sep f) (split_on sep s).
Proof.
  induction s as [|c s IH]; [repeat constructor; intros []|].
  rewrite split_on_cons. destruct (N.eqb_spec c sep) as [->|Hne].
  - constructor; [intros []|assumption].
  - destruct (split_on sep s) as [|f fs]; [repeat constructor|].
    + intros [H|[]]. now apply Hne.
    + inversion IH as [|? ? Hf Hfs]; subst. constructor; [|assumption].
      intros [H|H]; [now apply Hne|now apply Hf].
Qed.

(** Splitting a joined list of separator-free fields gives the fields back. *)
Lemma split_on_join (sep : char) (ls : list str) :
  ls <> [] -> Forall (fun l => ~ In sep l) ls ->
  split_on sep (join [sep] ls) = ls.
Proof.
  induction ls as [|l ls IH]; intros Hne Hall; [contradiction|].
  inversion Hall as [|? ? Hl Hls]; subst.
  destruct ls as [|l2 ls].
  - simpl. now apply split_on_no_sep.
  - change (join [sep] (l :: l2 :: ls)) with (l ++ sep :: join [sep] (l2 :: ls)).
    rewrite split_on_app, split_on_no_sep by assumption.
    simpl app. f_equal. apply IH; [discriminate|assumption].
Qed.

Lemma split_ws_cons (c : char) (s : str) :
  split_ws (c :: s) =
  if isspace c then split_ws s
  else match s with
       | [] => [[c]]
       | d :: _ =>
           if isspace d then [c] :: split_ws s
           else match split_ws s with
                | [] => [[c]]
                | w :: ws => (c :: w) :: ws
                end
       end.
Proof. reflexivity. Qed.

(** A word: not empty and free of whitespace. *)
Definition is_word (w : str) : Prop :=
  w <> [] /\ Forall (fun c => isspace c = false) w.

Lemma split_ws_words (s : str) : Forall is_word (split_ws s).
Proof.
  induction s as [|c s IH]; [constructor|].
  rewrite split_ws_cons. destruct (isspace c) eqn:Ec; [assumption|].
  assert (Hc : is_word [c]) by (split; [discriminate|now repeat constructor]).
  destruct s as [|d s]; [now repeat constructor|].
  destruct (isspace d) eqn:Ed; [now constructor|].
  destruct (split_ws (d :: s)) as [|w ws]; [now repeat constructor|].
  inversion IH as [|? ? [Hw1 Hw2] Hws]; subst. constructor; [|assumption].
  split; [discriminate|now constructor].
Qed.

Lemma split_ws_word_then_space (w : str) (sp : char) (r : str) :
  is_word w -> isspace sp = true ->
  split_ws (w ++ sp :: r) = w :: split_ws r.
Proof.
  intros [Hne Hw] Hsp. induction w as [|c w IH]; [contradiction|].
  inversion Hw as [|? ? Hc Hw']; subst.
  destruct w as [|c2 w].
  - cbn [app]. rewrite split_ws_cons, Hc, Hsp, split_ws_cons, Hsp.
    reflexivity.
  - cbn [app] in *. rewrite split_ws_cons, Hc.
    inversion Hw' as [|? ? Hc2 _]; subst.
    rewrite Hc2, IH; [reflexivity|discriminate|assumption].
Qed.

Lemma split_ws_word (w : str) : is_word w -> split_ws w = [w].
Proof.
  intros [Hne Hw]. induction w as [|c w IH]; [contradiction|].
  inversion Hw as [|? ? Hc Hw']; subst.
  rewrite split_ws_cons, Hc. destruct w as [|c2 w]; [reflexivity|].
  inversion Hw' as [|? ? Hc2 _]; subst. rewrite Hc2.
  rewrite IH; [reflexivity|discriminate|assumption].
Qed.

(** [' '.join(words).split()] gives the words back. *)
Lemma split_ws_join (ws : list str) :
  Forall is_word ws -> split_ws (join [SPACE] ws) = ws.
Proof.
  induction ws as [|w ws IH]; intros Hall; [reflexivity|].
  inversion Hall as [|? ? Hw Hws]; subst.
  destruct ws as [|w2 ws].
  - simpl. now apply split_ws_word.
  - change (join [SPACE] (w :: w2 :: ws))
      with (w ++ SPACE :: join [SPACE] (w2 :: ws)).
    rewrite split_ws_word_then_space by (assumption || reflexivity).
    f_equal. now apply IH.
Qed.

Lemma join_app (sep : str) (l1 l2 : list str) :
  l1 <> [] -> l2 <> [] ->
  join sep (l1 ++ l2) = join sep l1 ++ sep ++ join sep l2.
Proof.
  intros H1 H2. induction l1 as [|a l1 IH]; [contradiction|].
  destruct l1 as [|b l1].
  - destruct l2; [contradiction|reflexivity].
  - change (join sep ((a :: b :: l1) ++ l2))
      with (a ++ sep ++ join sep ((b :: l1) ++ l2)).
    rewrite IH by discriminate.
    change (join sep (a :: b :: l1)) with (a ++ sep ++ join sep (b :: l1)).
    now rewrite <- !app_assoc.
Qed.

(** Joining joined groups is joining all their members, when no group is
    empty. *)
Lemma join_concat (sep : str) (groups : list (list str)) :
  Forall (fun g => g <> []) groups ->
  join sep (map (join sep) groups) = join sep (concat groups).
Proof.
  induction groups as [|g gs IH]; intros Hall; [reflexivity|].
  inversion Hall as [|? ? Hg Hgs]; subst.
  destruct gs as [|g2 gs].
  - simpl. now rewrite app_nil_r.
  - change (join sep (map (join sep) (g :: g2 :: gs)))
      with (join sep g ++ sep ++ join sep (map (join sep) (g2 :: gs))).
    rewrite IH by assumption.
    change (concat (g :: g2 :: gs)) with (g ++ concat (g2 :: gs)).
    rewrite join_app; [reflexivity|assumption|].
    inversion Hgs as [|? ? Hg2 _]; subst.
    destruct g2; [contradiction|discriminate].
Qed.

Lemma split_ws_join_groups (groups : list (list str)) :
  Forall (Forall is_word) groups ->
  map split_ws (map (join [SPACE]) groups) = groups.
Proof.
  induction 1 as [|g gs Hg Hgs IH]; [reflexivity|].
  simpl. now rewrite split_ws_join, IH.
Qed.

Lemma split_ws_nil_lstrip (s : str) : split_ws s = [] -> lstrip s = [].
Proof.
  induction s as [|c s IH]; [reflexivity|].
  rewrite split_ws_cons. simpl lstrip. destruct (isspace c); [exact IH|].
  destruct s as [|d s]; [discriminate|].
  destruct (isspace d); [discriminate|].
  destruct (split_ws (d :: s)); discriminate.
Qed.

(** A line with a character that is not whitespace has a word. *)
Lemma split_ws_nonblank (s : str) : strip s <> [] -> split_ws s <> [].
Proof.
  intros Hs Hnil. apply Hs. unfold strip.
  now rewrite (split_ws_nil_lstrip s Hnil).
Qed.

Lemma lstrip_length (s : str) : length (lstrip s) <= length s.
Proof.
  induction s as [|c s IH]; simpl; [lia|].
  destruct (isspace c); simpl; lia.
Qed.

Lemma lstrip_Forall (Q : char -> Prop) (s : str) :
  Forall Q s -> Forall Q (lstrip s).
Proof.
  induction 1 as [|c s Hc Hs IH]; simpl; [constructor|].
  destruct (isspace c); [assumption|now constructor].
Qed.

Lemma rstrip_length (s : str) : length (rstrip s) <= length s.
Proof.
  unfold rstrip. rewrite length_rev.
  pose proof (lstrip_length (rev s)) as H. now rewrite length_rev in H.
Qed.

Lemma rstrip_Forall (Q : char -> Prop) (s : str) :
  Forall Q s -> Forall Q (rstrip s).
Proof.
  intros H. unfold rstrip. apply Forall_rev, lstrip_Forall, Forall_rev, H.
Qed.

Lemma splitlines_from_cons (after_cr : bool) (c : char) (s : str) :
  splitlines_from after_cr (c :: s) =
  if (after_cr && N.eqb c LF)%bool then splitlines_from false s
  else if is_linebreak c then [] :: splitlines_from (N.eqb c CR) s
  else match splitlines_from false s with
       | [] => [[c]]
       | l :: ls => (c :: l) :: ls
       end.
Proof. reflexivity. Qed.

(** No line of [splitlines] holds a line boundary, nor is longer than the text. *)
Lemma splitlines_from_lines (s : str) :
  forall after_cr,
    Forall (fun l => Forall (fun c => is_linebreak c = false) l
                     /\ length l <= length s)
      (splitlines_from after_cr s).
Proof.
  induction s as [|c s IH]; intros after_cr; [constructor|].
  assert (Hw : forall b, Forall
            (fun l => Forall (fun c => is_linebreak c = false) l
                      /\ length l <= length (c :: s)) (splitlines_from b s)).
  { intros b. eapply Forall_impl; [|apply (IH b)].
    simpl. intros l [H1 H2]. split; [assumption|lia]. }
  rewrite splitlines_from_cons.
  destruct (after_cr && N.eqb c LF)%bool; [apply Hw|].
  destruct (is_linebreak c) eqn:Ec.
  - constructor; [split; [constructor|simpl; lia]|apply Hw].
  - specialize (IH false). specialize (Hw false).
    destruct (splitlines_from false s) as [|l ls].
    + constructor; [|constructor].
      split; [now repeat constructor|simpl; lia].
    + inversion IH as [|? ? [H1 H2] _]; subst.
      inversion Hw as [|? ? _ Hls]; subst.
      constructor; [|assumption].
      split; [now constructor|simpl; lia].
Qed.

(** *** White space only *)

Lemma lstrip_spaces (s : str) :
  lstrip s = [] <-> Forall (fun c => isspace c = true) s.
Proof.
  induction s as [|c s IH]; [split; [constructor|reflexivity]|].
  cbn [lstrip]. destruct (isspace c) eqn:E.
  - rewrite IH. split; [now constructor|].
    intros H. now inversion H.
  - split; [discriminate|]. intros H. inversion H. congruence.
Qed.

Lemma lstrip_head (s : str) (c : char) (r : str) :
  lstrip s = c :: r -> isspace c = false.
Proof.
  induction s as [|d s IH]; [discriminate|]. cbn [lstrip].
  destruct (isspace d) eqn:E; [exact IH|].
  intros H. injection H as <- _. exact E.
Qed.

(** A string that [strip] empties is white space only, and has no word. *)
Lemma strip_nil_spaces (s : str) :
  strip s = [] -> Forall (fun c => isspace c = true) s.
Proof.
  unfold strip, rstrip. intros H.
  apply (f_equal (@rev char)) in H. rewrite rev_involutive in H.
  cbn [rev] in H. apply lstrip_spaces in H. apply Forall_rev in H.
  rewrite rev_involutive in H.
  apply lstrip_spaces. destruct (lstrip s) as [|c r] eqn:E; [reflexivity|].
  apply lstrip_head in E. inversion H. congruence.
Qed.

Lemma split_ws_spaces (s : str) :
  Forall (fun c => isspace c = true) s -> split_ws s = [].
Proof.
  induction 1 as [|c s Hc Hs IH]; [reflexivity|].
  rewrite split_ws_cons, Hc. exact IH.
Qed.

(** A line that is blank after [rstrip] is then empty. *)
Lemma rstrip_blank (line : str) : strip (rstrip line) = [] -> rstrip line = [].
Proof.
  intros H. apply strip_nil_spaces in H. unfold rstrip in *.
  apply Forall_rev in H. rewrite rev_involutive in H.
  destruct (lstrip (rev line)) as [|c r] eqn:E; [reflexivity|].
  apply lstrip_head in E. inversion H. congruence.
Qed.

End Py.

(** ** BookTokiCrawler: file names *)
Module Crawler.
Import Py.

(** The nine characters of the pattern's class, by code point: backslash,
    slash, colon, asterisk, question mark, double quote, less-than,
    greater-than, vertical bar. *)
Definition illegal_chars : list char :=
  [92; 47; 58; 42; 63; 34; 60; 62; 124]%N.

Definition UNDERSCORE : char := 95%N.

(** [sanitize_filename]: [re.sub] of that class by an underscore. *)
Definition sanitize_filename (name : str) : str :=
  re_sub_class illegal_chars [UNDERSCORE] name.

Lemma sanitize_filename_cons (c : char) (name : str) :
  sanitize_filename (c :: name) =
  (if existsb (N.eqb c) illegal_chars then UNDERSCORE else c)
    :: sanitize_filename name.
Proof.
  unfold sanitize_filename. cbn [re_sub_class].
  destruct (existsb (N.eqb c) illegal_chars); reflexivity.
Qed.

Lemma sanitize_filename_nth (name : str) :
  forall i c, nth_error name i = Some c ->
    nth_error (sanitize_filename name) i =
    Some (if existsb (N.eqb c) illegal_chars then UNDERSCORE else c).
Proof.
  induction name as [|d name IH]; intros [|i] c H; try discriminate.
  - rewrite sanitize_filename_cons. cbn [nth_error] in *.
    injection H as ->. reflexivity.
  - rewrite sanitize_filename_cons. cbn [nth_error] in *. now apply IH.
Qed.

(** C6. [sanitize_filename] keeps the length of the name; at every position a
    character among the nine of [illegal_chars] becomes one underscore and
    any other character stays as it is, so order and count are preserved. *)
Theorem sanitize_filename_pointwise (name : str) :
  length (sanitize_filename name) = length name
  /\ length illegal_chars = 9 /\ NoDup illegal_chars
  /\ (forall i c, nth_error name i = Some c ->
        (In c illegal_chars ->
           nth_error (sanitize_filename name) i = Some UNDERSCORE)
        /\ (~ In c illegal_chars ->
           nth_error (sanitize_filename name) i = Some c)).
Proof.
  split; [|split; [reflexivity|split]].
  - induction name as [|d name IH]; [reflexivity|].
    rewrite sanitize_filename_cons. simpl. now rewrite IH.
  - unfold illegal_chars.
    repeat (constructor; [simpl; intuition discriminate|]). constructor.
  - intros i c Hc. pose proof (sanitize_filename_nth name i c Hc) as Hn.
    split; intros Hin.
    + apply existsb_eqb_In in Hin. now rewrite Hin in Hn.
    + destruct (existsb (N.eqb c) illegal_chars) eqn:E; [|assumption].
      apply existsb_eqb_In in E. contradiction.
Qed.

(** ** BookTokiCrawler: text formatting *)

(** The loop [while len(line) > max_line_length] with the append that
    follows it; [fuel] bounds the evaluations of the loop condition. *)
Fixpoint hard_wrap (fuel : nat) (max_line_length : Z) (line : str)
    (formatted_lines : list str) : option (list str) :=
  match fuel with
  | O => None
  | S fuel' =>
      if (Z.of_nat (length line) >? max_line_length)%Z
      then hard_wrap fuel' max_line_length (slice_from line max_line_length)
             (formatted_lines ++ [slice_to line max_line_length])
      else Some (formatted_lines ++ [line])
  end.

(** The [for line in lines] loop, on the state [formatted_lines] and
    [blank_count]. *)
Fixpoint format_lines (fuel : nat) (max_line_length : Z) (lines : list str)
    (formatted_lines : list str) (blank_count : nat) : option (list str) :=
  match lines with
  | [] => Some formatted_lines
  | line :: lines' =>
      let line := rstrip line in
      if negb (truthy (strip line)) then
        let blank_count := S blank_count in
        format_lines fuel max_line_length lines'
          (if blank_count <=? 1 then formatted_lines ++ [[]]
           else formatted_lines)
          blank_count
      else
        match hard_wrap fuel max_line_length line formatted_lines with
        | None => None
        | Some formatted_lines' =>
            format_lines fuel max_line_length lines' formatted_lines' 0
        end
  end.

(** [format_text_for_readability(text, max_line_length)]; [None] when an
    inner loop is still running after [fuel] tests of its condition. *)
Definition format_text_for_readability (fuel : nat) (text : str)
    (max_line_length : Z) : option str :=
  option_map (join [LF])
    (format_lines fuel max_line_length (splitlines text) [] 0).

(** The test the formatter applies to a line: [not line.strip()]. *)
Definition is_blank (line : str) : bool := negb (truthy (strip line)).

Definition is_empty (line : str) : bool := negb (truthy line).

(** Some two neighbours of the list both satisfy [P]. *)
Fixpoint adjacent_pair {A} (P : A -> bool) (l : list A) : bool :=
  match l with
  | a :: l' =>
      match l' with
      | b :: _ => (P a && P b) || adjacent_pair P l'
      | [] => false
      end
  | [] => false
  end.

(** The last element exists and satisfies [P]. *)
Fixpoint ends_with {A} (P : A -> bool) (l : list A) : bool :=
  match l with
  | [] => false
  | a :: l' => match l' with [] => P a | _ :: _ => ends_with P l' end
  end.

(** *** Neighbouring lines *)

Lemma ends_with_snoc {A} (P : A -> bool) (l : list A) (x : A) :
  ends_with P (l ++ [x]) = P x.
Proof.
  induction l as [|a l IH]; [reflexivity|].
  destruct l as [|b l]; [reflexivity|exact IH].
Qed.

Lemma adjacent_pair_snoc {A} (P : A -> bool) (l : list A) (x : A) :
  adjacent_pair P (l ++ [x]) = adjacent_pair P l || (ends_with P l && P x).
Proof.
  induction l as [|a l IH]; [reflexivity|].
  destruct l as [|b l].
  - simpl. now rewrite orb_false_r.
  - change (adjacent_pair P ((a :: b :: l) ++ [x]))
      with ((P a && P b) || adjacent_pair P ((b :: l) ++ [x])).
    rewrite IH. change (ends_with P (a :: b :: l)) with (ends_with P (b :: l)).
    change (adjacent_pair P (a :: b :: l))
      with ((P a && P b) || adjacent_pair P (b :: l)).
    now rewrite orb_assoc.
Qed.

(** Appending elements that all fail [P] creates no [P]-pair. *)
Lemma adjacent_pair_app_false {A} (P : A -> bool) (cs : list A) :
  forall l,
    Forall (fun c => P c = false) cs ->
    adjacent_pair P l = false ->
    cs <> [] \/ ends_with P l = false ->
    adjacent_pair P (l ++ cs) = false /\ ends_with P (l ++ cs) = false.
Proof.
  induction cs as [|x cs IH]; intros l Hall Hadj Hend.
  - rewrite app_nil_r. split; [assumption|].
    destruct Hend as [Hne|He]; [contradiction|assumption].
  - inversion Hall as [|? ? Hx Hcs]; subst.
    change (x :: cs) with ([x] ++ cs). rewrite app_assoc.
    apply IH; [assumption| |right; now rewrite ends_with_snoc].
    now rewrite adjacent_pair_snoc, Hadj, Hx, andb_false_r.
Qed.

Lemma is_empty_false (l : str) : 0 < length l -> is_empty l = false.
Proof. destruct l; simpl; [lia|reflexivity]. Qed.

Section Formatting.

Variable max_line_length : Z.
Hypothesis max_positive : (1 <= max_line_length)%Z.

(** A line within the limit, and a line free of line boundaries. *)
Definition fits (l : str) : Prop :=
  (Z.of_nat (length l) <= max_line_length)%Z.

Definition unbroken (l : str) : Prop :=
  Forall (fun c => is_linebreak c = false) l.

Lemma slice_at_limit (line : str) :
  (max_line_length < Z.of_nat (length line))%Z ->
  slice_to line max_line_length = firstn (Z.to_nat max_line_length) line
  /\ slice_from line max_line_length = skipn (Z.to_nat max_line_length) line.
Proof.
  intros Hlt. unfold slice_to, slice_from, slice_bound.
  destruct (Z.ltb_spec max_line_length 0); [lia|].
  rewrite Nat.min_r by lia. now split.
Qed.

(** With a positive limit the wrapping loop ends, and appends non-empty
    pieces of the line, each within the limit. *)
Lemma hard_wrap_chunks (fuel : nat) :
  forall line formatted_lines,
    length line < fuel -> line <> [] -> unbroken line ->
    exists chunks,
      hard_wrap fuel max_line_length line formatted_lines
      = Some (formatted_lines ++ chunks)
      /\ chunks <> []
      /\ Forall (fun l => fits l /\ unbroken l /\ is_empty l = false) chunks
      /\ concat chunks = line.
Proof.
  induction fuel as [|fuel IH]; intros line acc Hlen Hne Hub; [lia|].
  cbn [hard_wrap].
  destruct (Z.gtb_spec (Z.of_nat (length line)) max_line_length) as [Hgt|Hle].
  - destruct (slice_at_limit line Hgt) as [-> ->].
    set (k := Z.to_nat max_line_length).
    assert (Hk : 1 <= k < length line) by (unfold k; lia).
    assert (Hsplit : firstn k line ++ skipn k line = line)
      by apply firstn_skipn.
    assert (Hub2 : unbroken (firstn k line) /\ unbroken (skipn k line)).
    { unfold unbroken in *. rewrite <- Hsplit in Hub.
      now apply Forall_app in Hub. }
    destruct Hub2 as [Hub1 Hub2].
    destruct (IH (skipn k line) (acc ++ [firstn k line]))
      as (chunks & Hrun & _ & Hall & Hcat).
    + rewrite length_skipn. lia.
    + intros E. apply (f_equal (@length _)) in E.
      rewrite length_skipn in E. simpl in E. lia.
    + exact Hub2.
    + exists (firstn k line :: chunks). rewrite Hrun, <- app_assoc.
      split; [reflexivity|]. split; [discriminate|]. split.
      * constructor; [|assumption]. split; [|split; [assumption|]].
        -- unfold fits. rewrite length_firstn. unfold k. lia.
        -- apply is_empty_false. rewrite length_firstn. lia.
      * simpl. now rewrite Hcat.
  - exists [line]. split; [reflexivity|]. split; [discriminate|]. split.
    + constructor; [|constructor]. split; [exact Hle|split; [assumption|]].
      destruct line; [contradiction|reflexivity].
    + simpl. apply app_nil_r.
Qed.

Lemma format_lines_bounded (fuel : nat) (lines : list str) :
  forall formatted_lines blank_count,
    Forall (fun l => unbroken l /\ length l < fuel) lines ->
    Forall (fun l => fits l /\ unbroken l) formatted_lines ->
    adjacent_pair is_empty formatted_lines = false ->
    (blank_count = 0 -> ends_with is_empty formatted_lines = false) ->
    exists out,
      format_lines fuel max_line_length lines formatted_lines blank_count
      = Some out
      /\ Forall (fun l => fits l /\ unbroken l) out
      /\ adjacent_pair is_empty out = false.
Proof.
  induction lines as [|line lines IH]; intros acc bc Hlines Hacc Hadj Hend.
  - exists acc. now repeat split.
  - inversion Hlines as [|? ? [Hub Hlen] Hrest]; subst. cbn [format_lines].
    destruct (negb (truthy (strip (rstrip line)))) eqn:Eblank.
    + destruct bc as [|bc]; cbn [Nat.leb].
      * apply IH; [assumption| | |discriminate].
        -- apply Forall_app. split; [assumption|].
           repeat constructor. unfold fits. simpl. lia.
        -- rewrite adjacent_pair_snoc, Hadj, Hend by reflexivity. reflexivity.
      * apply IH; [assumption..|discriminate].
    + assert (Hne : rstrip line <> []).
      { intros E. rewrite E in Eblank. discriminate. }
      destruct (hard_wrap_chunks fuel (rstrip line) acc)
        as (chunks & Hrun & Hcne & Hall & _).
      * pose proof (rstrip_length line). lia.
      * exact Hne.
      * now apply rstrip_Forall.
      * rewrite Hrun.
        destruct (adjacent_pair_app_false is_empty chunks acc)
          as [Hadj' Hend'].
        -- eapply Forall_impl; [|exact Hall]. now intros l (_ & _ & E).
        -- exact Hadj.
        -- now left.
        -- apply IH; [assumption| |assumption|now intros _].
           apply Forall_app. split; [assumption|].
           eapply Forall_impl; [|exact Hall]. now intros l (F & U & _).
Qed.

End Formatting.

Lemma unbroken_no_LF (l : str) : unbroken l -> ~ In LF l.
Proof.
  intros H Hin. unfold unbroken in H. rewrite Forall_forall in H.
  specialize (H LF Hin). discriminate.
Qed.

(** The formatter never stops on a non-blank line when the limit is zero. *)
Lemma hard_wrap_zero_limit_diverges (fuel : nat) :
  forall line formatted_lines,
    line <> [] -> hard_wrap fuel 0 line formatted_lines = None.
Proof.
  induction fuel as [|fuel IH]; intros line acc Hne; [reflexivity|].
  cbn [hard_wrap].
  destruct (Z.gtb_spec (Z.of_nat (length line)) 0) as [Hgt|Hle].
  - unfold slice_from, slice_to, slice_bound.
    change (0 <? 0)%Z with false. change (Z.to_nat 0) with 0.
    rewrite Nat.min_0_r. cbn [skipn]. now apply IH.
  - destruct line; [contradiction|simpl in Hle; lia].
Qed.

(** C3 (amended). For every text and every limit of at least one character
    the formatter returns (each wrapping loop ends within [length text] tests
    of its condition); its output never has two neighbouring empty lines, and
    no line of it is longer than the limit. *)
Theorem format_text_lines_bounded (max_line_length : Z) (text : str)
    (fuel : nat) :
  (1 <= max_line_length)%Z -> length text < fuel ->
  exists out,
    format_text_for_readability fuel text max_line_length = Some out
    /\ adjacent_pair is_empty (split_on LF out) = false
    /\ Forall (fits max_line_length) (split_on LF out).
Proof.
  intros Hmax Hfuel. unfold format_text_for_readability.
  destruct (format_lines_bounded max_line_length Hmax fuel (splitlines text)
              [] 0) as (ls & Hrun & Hall & Hadj).
  - eapply Forall_impl; [|apply (splitlines_from_lines text false)].
    intros l [H1 H2]. split; [exact H1|lia].
  - constructor.
  - reflexivity.
  - reflexivity.
  - rewrite Hrun. exists (join [LF] ls). split; [reflexivity|].
    destruct ls as [|l ls].
    + split; [reflexivity|]. repeat constructor. unfold fits. simpl. lia.
    + rewrite split_on_join.
      * split; [assumption|].
        eapply Forall_impl; [|exact Hall]. now intros x [F _].
      * discriminate.
      * eapply Forall_impl; [|exact Hall].
        intros x [_ U]. now apply unbroken_no_LF.
Qed.

Lemma format_text_lines_bounded_witness :
  exists out,
    format_text_for_readability 100 (repeat 65%N 90 ++ [LF; 66%N]) 80
    = Some out
    /\ adjacent_pair is_empty (split_on LF out) = false
    /\ Forall (fits 80) (split_on LF out).
Proof.
  apply (format_text_lines_bounded 80 (repeat 65%N 90 ++ [LF; 66%N]) 100).
  - lia.
  - vm_compute. lia.
Defined.

(** C3, as stated, fails. With the default limit of 80 a line of 160 spaces
    and a letter is cut into two lines of 80 spaces each, which are blank by
    the formatter's own test [not line.strip()]; and with a limit of zero the
    loop never ends on the one-letter text, so there is no output at all. *)
Lemma format_text_blank_neighbours :
  format_text_for_readability 3 (repeat SPACE 160 ++ [66%N]) 80
  = Some (repeat SPACE 80 ++ LF :: repeat SPACE 80 ++ [LF; 66%N])
  /\ adjacent_pair is_blank
       (split_on LF (repeat SPACE 80 ++ LF :: repeat SPACE 80 ++ [LF; 66%N]))
     = true
  /\ (forall fuel, format_text_for_readability fuel [65%N] 0 = None).
Proof.
  split; [vm_compute; reflexivity|]. split; [vm_compute; reflexivity|].
  intros fuel. unfold format_text_for_readability.
  change (splitlines [65%N]) with [[65%N]]. cbn [format_lines].
  change (negb (truthy (strip (rstrip [65%N])))) with false. cbv iota.
  change (rstrip [65%N]) with [65%N].
  now rewrite hard_wrap_zero_limit_diverges.
Qed.

(** C9. With a limit of 80, the text of 90 letters A, a line break and B
    becomes 80 A, a line break, 10 A, a line break, B: the long line gives two
    output lines, and B follows on its own line. Two tests of the loop
    condition are all the run needs. *)
Theorem format_text_scenario (fuel : nat) :
  format_text_for_readability (S (S fuel)) (repeat 65%N 90 ++ [LF; 66%N]) 80
  = Some (repeat 65%N 80 ++ [LF] ++ repeat 65%N 10 ++ [LF] ++ [66%N])
  /\ hard_wrap (S (S fuel)) 80 (repeat 65%N 90) []
     = Some [repeat 65%N 80; repeat 65%N 10].
Proof. split; reflexivity. Qed.

(** ** BookTokiCrawler: what the file names and the formatter guarantee *)

(** *** File names *)

(** A character that may stand in a file name. *)
Definition legal (c : char) : Prop := ~ In c illegal_chars.

Definition legalb (s : str) : bool :=
  forallb (fun c => negb (existsb (N.eqb c) illegal_chars)) s.

Lemma legalb_sound (s : str) : legalb s = true -> Forall legal s.
Proof.
  unfold legalb. rewrite forallb_forall, Forall_forall.
  intros H c Hc Hin. specialize (H c Hc).
  apply existsb_eqb_In in Hin. rewrite Hin in H. discriminate.
Qed.

Lemma sanitize_filename_app (a b : str) :
  sanitize_filename (a ++ b) = sanitize_filename a ++ sanitize_filename b.
Proof.
  induction a as [|c a IH]; [reflexivity|].
  cbn [app]. rewrite !sanitize_filename_cons, IH. reflexivity.
Qed.

Lemma sanitize_filename_legal (name : str) :
  Forall legal (sanitize_filename name).
Proof.
  induction name as [|c name IH]; [constructor|].
  rewrite sanitize_filename_cons. constructor; [|exact IH].
  destruct (existsb (N.eqb c) illegal_chars) eqn:E.
  - unfold legal, illegal_chars, UNDERSCORE. simpl. intuition discriminate.
  - intros Hin. apply existsb_eqb_In in Hin. congruence.
Qed.

Lemma sanitize_filename_fixed (name : str) :
  sanitize_filename name = name <-> Forall legal name.
Proof.
  split.
  - intros E. rewrite <- E. apply sanitize_filename_legal.
  - induction 1 as [|c name Hc Hname IH]; [reflexivity|].
    rewrite sanitize_filename_cons, IH.
    destruct (existsb (N.eqb c) illegal_chars) eqn:E; [|reflexivity].
    apply existsb_eqb_In in E. contradiction.
Qed.

(** [d.get(key, default)] on a dict held as its items. *)
Definition dict : Type := list (str * str).

Definition str_eqb (a b : str) : bool :=
  if list_eq_dec N.eq_dec a b then true else false.

Fixpoint dict_get (d : dict) (key default : str) : str :=
  match d with
  | [] => default
  | (k, v) :: d' => if str_eqb k key then v else dict_get d' key default
  end.

Lemma dict_get_missing (d : dict) (key default : str) :
  ~ In key (map fst d) -> dict_get d key default = default.
Proof.
  induction d as [|[k v] d IH]; [reflexivity|].
  intros Hnot. cbn [dict_get]. unfold str_eqb.
  destruct (list_eq_dec N.eq_dec k key) as [->|_].
  - exfalso. apply Hnot. now left.
  - apply IH. intros Hin. apply Hnot. now right.
Qed.

Section Folders.

(** The file system: [os.path.exists], and [os.makedirs(name, exist_ok=True)],
    which may fail. *)
Variable FS : Type.
Variable os_path_exists : FS -> str -> bool.
Variable os_makedirs : str -> FS -> option FS.

Definition create_folder (folder_name : str) (fs : FS) : option FS :=
  if negb (os_path_exists fs folder_name) then os_makedirs folder_name fs
  else Some fs.

(** [make_base_folder(info)]: the folder name it returns, and the file system
    it leaves. *)
Definition make_base_folder (info : dict) (fs : FS) : option (str * FS) :=
  let w := dict_get info (of_string "writer") (of_string "NoWriter") in
  let g := dict_get info (of_string "genre") (of_string "NoGenre") in
  let t := dict_get info (of_string "title") (of_string "NoTitle") in
  let folder_name :=
    of_string "[" ++ w ++ of_string "][" ++ g ++ of_string "][" ++ t
      ++ of_string "]" in
  let folder_name := sanitize_filename folder_name in
  match create_folder folder_name fs with
  | Some fs' => Some (folder_name, fs')
  | None => None
  end.

(** The name [create_epub_from_txt] gives the book, from [self.base_folder]. *)
Definition epub_name (base_folder : str) : str :=
  sanitize_filename (base_folder ++ of_string ".epub").

Lemma make_base_folder_inv (info : dict) (fs : FS) name fs' :
  make_base_folder info fs = Some (name, fs') ->
  name = of_string "["
           ++ sanitize_filename
                (dict_get info (of_string "writer") (of_string "NoWriter"))
           ++ of_string "]["
           ++ sanitize_filename
                (dict_get info (of_string "genre") (of_string "NoGenre"))
           ++ of_string "]["
           ++ sanitize_filename
                (dict_get info (of_string "title") (of_string "NoTitle"))
           ++ of_string "]"
  /\ create_folder name fs = Some fs'.
Proof.
  unfold make_base_folder. cbv zeta.
  rewrite !sanitize_filename_app.
  change (sanitize_filename (of_string "[")) with (of_string "[").
  change (sanitize_filename (of_string "][")) with (of_string "][").
  change (sanitize_filename (of_string "]")) with (of_string "]").
  destruct (create_folder _ fs) as [fs1|] eqn:E; [|discriminate].
  intros H. injection H as <- <-. split; [reflexivity|exact E].
Qed.

End Folders.

Arguments create_folder {FS} os_path_exists os_makedirs folder_name fs.
Arguments make_base_folder {FS} os_path_exists os_makedirs info fs.

(** X1. Whatever the name, [sanitize_filename] returns a name without any of
    the nine characters of its pattern (so without a path separator); it
    changes nothing in a name that is already clean, and only such a name
    comes back unchanged; applying it twice is applying it once. *)
Theorem sanitize_filename_safe (name : str) :
  Forall (fun c => ~ In c illegal_chars) (sanitize_filename name)
  /\ (sanitize_filename name = name
      <-> Forall (fun c => ~ In c illegal_chars) name)
  /\ sanitize_filename (sanitize_filename name) = sanitize_filename name.
Proof.
  split; [apply sanitize_filename_legal|].
  split; [apply sanitize_filename_fixed|].
  apply sanitize_filename_fixed, sanitize_filename_legal.
Qed.

(** X2. When [make_base_folder] returns, the folder name is the three fields
    of [info], each sanitised on its own, between their brackets: a separator
    inside the writer, genre or title never splits the name into several
    path components, and the brackets are kept. A field missing from [info]
    is replaced by its default; an empty one is kept empty. A folder that
    exists already leaves the file system as it is. *)
Theorem make_base_folder_name {FS} (os_path_exists : FS -> str -> bool)
    (os_makedirs : str -> FS -> option FS) (info : dict) (fs : FS)
    (name : str) (fs' : FS) :
  make_base_folder os_path_exists os_makedirs info fs = Some (name, fs') ->
  let field key default := sanitize_filename (dict_get info key default) in
  name = of_string "[" ++ field (of_string "writer") (of_string "NoWriter")
           ++ of_string "][" ++ field (of_string "genre") (of_string "NoGenre")
           ++ of_string "][" ++ field (of_string "title") (of_string "NoTitle")
           ++ of_string "]"
  /\ Forall (fun c => ~ In c illegal_chars) name
  /\ (forall key default,
        (~ In key (map fst info) -> dict_get info key default = default)
        /\ (forall rest, dict_get ((key, []) :: rest) key default = []))
  /\ (os_path_exists fs name = true -> fs' = fs).
Proof.
  intros H field.
  destruct (make_base_folder_inv FS os_path_exists os_makedirs info fs
              name fs' H) as [Hname Hfs].
  split; [exact Hname|]. split; [|split].
  - unfold make_base_folder in H. cbv zeta in H.
    destruct (create_folder _ _ _ fs); [|discriminate].
    injection H as <- _. apply sanitize_filename_legal.
  - intros key default. split.
    + apply dict_get_missing.
    + intros rest. cbn [dict_get]. unfold str_eqb.
      destruct (list_eq_dec N.eq_dec key key); [reflexivity|contradiction].
  - intros Hex. unfold create_folder in Hfs. rewrite Hex in Hfs.
    cbn [negb] in Hfs. now injection Hfs as <-.
Qed.

(** X3. The name of the ePub is the base folder's name with [.epub] after it:
    a name that [make_base_folder] returned goes through the second
    sanitising unchanged. *)
Theorem epub_name_of_base_folder {FS} (os_path_exists : FS -> str -> bool)
    (os_makedirs : str -> FS -> option FS) (info : dict) (fs : FS)
    (base_folder : str) (fs' : FS) :
  make_base_folder os_path_exists os_makedirs info fs
  = Some (base_folder, fs') ->
  epub_name base_folder = base_folder ++ of_string ".epub".
Proof.
  intros H. unfold epub_name. rewrite sanitize_filename_app.
  change (sanitize_filename (of_string ".epub")) with (of_string ".epub").
  f_equal. apply sanitize_filename_fixed.
  unfold make_base_folder in H. cbv zeta in H.
  destruct (create_folder _ _ _ fs); [|discriminate].
  injection H as <- _. apply sanitize_filename_legal.
Qed.

(** *** The formatter keeps the text *)

(** A run of empty lines reduced to its first line; [after_blank] says that
    the line before was empty. *)
Fixpoint squeeze (after_blank : bool) (lines : list str) : list str :=
  match lines with
  | [] => []
  | l :: ls =>
      if is_empty l
      then (if after_blank then [] else [l]) ++ squeeze true ls
      else l :: squeeze false ls
  end.

Section Content.

Variable max_line_length : Z.
Hypothesis max_positive : (1 <= max_line_length)%Z.

Lemma format_lines_content (fuel : nat) (lines : list str) :
  forall formatted_lines blank_count,
    Forall (fun l => unbroken l /\ length l < fuel) lines ->
    exists out,
      format_lines fuel max_line_length lines formatted_lines blank_count
      = Some out
      /\ concat out = concat formatted_lines ++ concat (map rstrip lines).
Proof.
  induction lines as [|line lines IH]; intros acc bc Hlines.
  - exists acc. split; [reflexivity|]. cbn. now rewrite app_nil_r.
  - inversion Hlines as [|? ? [Hub Hlen] Hrest]; subst. cbn [format_lines].
    cbn [map concat].
    destruct (negb (truthy (strip (rstrip line)))) eqn:Eblank.
    + assert (Hnil : rstrip line = []).
      { apply rstrip_blank. destruct (strip (rstrip line)); [reflexivity|].
        discriminate. }
      rewrite Hnil. cbn [app].
      destruct (IH (if S bc <=? 1 then acc ++ [[]] else acc) (S bc) Hrest)
        as (out & Hrun & Hcat).
      exists out. split; [exact Hrun|]. rewrite Hcat. f_equal.
      destruct (S bc <=? 1); [|reflexivity].
      rewrite concat_app. cbn. now rewrite app_nil_r.
    + assert (Hne : rstrip line <> []).
      { intros E. rewrite E in Eblank. discriminate. }
      destruct (hard_wrap_chunks max_line_length max_positive fuel
                  (rstrip line) acc)
        as (chunks & Hrun & _ & _ & Hcat).
      * pose proof (rstrip_length line). lia.
      * exact Hne.
      * now apply rstrip_Forall.
      * rewrite Hrun.
        destruct (IH (acc ++ chunks) 0 Hrest) as (out & Hout & Hcat').
        exists out. split; [exact Hout|].
        now rewrite Hcat', concat_app, Hcat, app_assoc.
Qed.

(** When no line is longer than the limit, the loop copies the lines, a run
    of empty ones reduced to the first. *)
Lemma format_lines_short (fuel : nat) (lines : list str) :
  forall formatted_lines blank_count,
    Forall (fun l => fits max_line_length (rstrip l)) lines ->
    format_lines (S fuel) max_line_length lines formatted_lines blank_count
    = Some (formatted_lines
              ++ squeeze (negb (blank_count =? 0)) (map rstrip lines)).
Proof.
  induction lines as [|line lines IH]; intros acc bc Hlines.
  - cbn. now rewrite app_nil_r.
  - inversion Hlines as [|? ? Hfit Hrest]; subst.
    cbn [format_lines map squeeze].
    destruct (negb (truthy (strip (rstrip line)))) eqn:Eblank.
    + assert (Hnil : rstrip line = []).
      { apply rstrip_blank. destruct (strip (rstrip line)); [reflexivity|].
        discriminate. }
      rewrite Hnil. cbn [is_empty truthy negb].
      rewrite IH by exact Hrest. f_equal. cbn [Nat.eqb negb].
      destruct bc as [|bc]; cbn [Nat.leb Nat.eqb negb].
      * now rewrite <- app_assoc.
      * reflexivity.
    + assert (Hne : is_empty (rstrip line) = false).
      { unfold is_empty. destruct (rstrip line); [discriminate|reflexivity]. }
      rewrite Hne. cbn [hard_wrap].
      unfold fits in Hfit.
      destruct (Z.gtb_spec (Z.of_nat (length (rstrip line))) max_line_length)
        as [Hgt|_]; [lia|].
      rewrite IH by exact Hrest. cbn [Nat.eqb negb].
      now rewrite <- app_assoc.
Qed.

End Content.

(** X4. For every text and every limit of at least one character, the
    formatter loses no character and adds none: the characters of the output
    lines, taken in order, are those of the input lines with the white space
    at their ends removed. *)
Theorem format_text_keeps_characters (max_line_length : Z) (text : str)
    (fuel : nat) :
  (1 <= max_line_length)%Z -> length text < fuel ->
  exists out,
    format_text_for_readability fuel text max_line_length = Some out
    /\ concat (split_on LF out) = concat (map rstrip (splitlines text)).
Proof.
  intros Hmax Hfuel. unfold format_text_for_readability.
  assert (Hlines : Forall (fun l => unbroken l /\ length l < fuel)
                     (splitlines text)).
  { eapply Forall_impl; [|apply (splitlines_from_lines text false)].
    intros l [H1 H2]. split; [exact H1|lia]. }
  destruct (format_lines_bounded max_line_length Hmax fuel (splitlines text)
              [] 0 Hlines (Forall_nil _) eq_refl (fun _ => eq_refl))
    as (ls & Hrun & Hall & _).
  destruct (format_lines_content max_line_length Hmax fuel (splitlines text)
              [] 0 Hlines) as (ls' & Hrun' & Hcat).
  rewrite Hrun in Hrun'. injection Hrun' as <-.
  rewrite Hrun. exists (join [LF] ls). split; [reflexivity|].
  destruct ls as [|l ls]; [exact Hcat|].
  rewrite split_on_join; [exact Hcat|discriminate|].
  eapply Forall_impl; [|exact Hall].
  intros x [_ U]. now apply unbroken_no_LF.
Qed.

Lemma format_text_keeps_characters_witness :
  exists out,
    format_text_for_readability 100
      (of_string "ab  " ++ [CR; LF] ++ repeat 65%N 90 ++ [SPACE]) 80
    = Some out
    /\ concat (split_on LF out) = of_string "ab" ++ repeat 65%N 90.
Proof.
  apply (format_text_keeps_characters 80
           (of_string "ab  " ++ [CR; LF] ++ repeat 65%N 90 ++ [SPACE]) 100).
  - lia.
  - vm_compute. lia.
Defined.

(** X5. A text in which no line, once the white space at its end is removed,
    is longer than the limit comes back as those lines joined by line feeds,
    every run of blank lines reduced to one empty line: whatever line
    boundary the text used becomes a line feed, a blank line at the start is
    kept, and one test of the loop condition per line is all it takes. *)
Theorem format_text_short_lines (max_line_length : Z) (text : str)
    (fuel : nat) :
  Forall (fun l => (Z.of_nat (length (rstrip l)) <= max_line_length)%Z)
    (splitlines text) ->
  format_text_for_readability (S fuel) text max_line_length
  = Some (join [LF] (squeeze false (map rstrip (splitlines text)))).
Proof.
  intros Hshort. unfold format_text_for_readability.
  now rewrite format_lines_short by exact Hshort.
Qed.

Lemma format_text_short_lines_witness :
  format_text_for_readability 1
    (of_string "one " ++ [CR; LF; LF; SPACE; LF] ++ of_string "two") 80
  = Some (of_string "one" ++ [LF; LF] ++ of_string "two").
Proof.
  apply (format_text_short_lines 80
           (of_string "one " ++ [CR; LF; LF; SPACE; LF] ++ of_string "two") 0).
  vm_compute. repeat constructor; discriminate.
Defined.

(** A file system that is the list of its folders. *)
Definition listed (fs : list str) (name : str) : bool :=
  existsb (str_eqb name) fs.

Definition mkdir (name : str) (fs : list str) : option (list str) :=
  Some (name :: fs).

Lemma make_base_folder_name_witness :
  let info := [(of_string "title", of_string "A/B: C?");
               (of_string "writer", of_string "Kim");
               (of_string "genre", [])] in
  let name := of_string "[Kim][][A_B_ C_]" in
  let field key default := sanitize_filename (dict_get info key default) in
  name = of_string "[" ++ field (of_string "writer") (of_string "NoWriter")
           ++ of_string "][" ++ field (of_string "genre") (of_string "NoGenre")
           ++ of_string "][" ++ field (of_string "title") (of_string "NoTitle")
           ++ of_string "]"
  /\ Forall (fun c => ~ In c illegal_chars) name
  /\ (forall key default,
        (~ In key (map fst info) -> dict_get info key default = default)
        /\ (forall rest, dict_get ((key, []) :: rest) key default = []))
  /\ (listed [name] name = true -> [name] = [name]).
Proof.
  intros info name.
  exact (make_base_folder_name listed mkdir info [name] name [name] eq_refl).
Defined.

Lemma epub_name_of_base_folder_witness :
  epub_name (of_string "[Kim][][A_B_ C_]")
  = of_string "[Kim][][A_B_ C_].epub".
Proof.
  exact (epub_name_of_base_folder listed mkdir
           [(of_string "title", of_string "A/B: C?");
            (of_string "writer", of_string "Kim");
            (of_string "genre", [])]
           [] (of_string "[Kim][][A_B_ C_]") [of_string "[Kim][][A_B_ C_]"]
           eq_refl).
Defined.

End Crawler.


(** ** NovelImageConverter: wrapping and pagination *)
Module Converter.
Import Py.

(** The layout attributes [__init__] sets (lengths in pixels). The line
    spacing factor 2.0 is kept as the integer it is. *)
Record NovelImageConverter := {
  font_size : Z;
  line_spacing : Z;
  margin_left : Z;
  margin_right : Z;
  margin_top : Z;
  margin_bottom : Z;
  width : Z;
  lines_per_page : Z
}.

(** The converter as [__init__] builds it. *)
Definition default_converter : NovelImageConverter :=
  {| font_size := 24; line_spacing := 2;
     margin_left := 100; margin_right := 100;
     margin_top := 100; margin_bottom := 150;
     width := 1500; lines_per_page := 25 |}.

(** Text widths are what [font.getlength] reports. FreeType advances are
    26.6 fixed-point numbers, so a width is an integer count of 1/64 pixel
    and the sums the source forms in floating point are exact. *)
Definition px (pixels : Z) : Z := (64 * pixels)%Z.

(** [str(i)] for a natural number, most significant digit first. *)
Fixpoint decimal_digits (fuel n : nat) (acc : str) : str :=
  match fuel with
  | O => acc
  | S fuel' =>
      let acc' := (48 + N.of_nat (n mod 10))%N :: acc in
      if n / 10 =? 0 then acc' else decimal_digits fuel' (n / 10) acc'
  end.

Definition decimal (n : nat) : str := decimal_digits (S n) n [].

(** The format spec [03d]: zero-padded on the left to a width of at least 3. *)
Definition format_03d (i : nat) : str :=
  let d := decimal i in repeat 48%N (3 - length d) ++ d.

(** [enumerate(xs, start)]. *)
Fixpoint enumerate {A} (start : nat) (xs : list A) : list (nat * A) :=
  match xs with
  | [] => []
  | x :: xs' => (start, x) :: enumerate (S start) xs'
  end.

(** Cutting a list into consecutive pieces of [k] elements, the last one
    possibly shorter: what pagination computes. [fuel] bounds the number of
    pieces. *)
Fixpoint chunks {A} (fuel k : nat) (l : list A) : list (list A) :=
  match fuel with
  | O => []
  | S fuel' =>
      match l with
      | [] => []
      | _ :: _ => firstn k l :: chunks fuel' k (skipn k l)
      end
  end.

Definition chunk {A} (k : nat) (l : list A) : list (list A) :=
  chunks (length l) k l.

(** The sizes of the pieces of a list of [n] elements. *)
Fixpoint sizes (fuel k n : nat) : list nat :=
  match fuel with
  | O => []
  | S fuel' =>
      match n with
      | O => []
      | S _ => Nat.min k n :: sizes fuel' k (n - k)
      end
  end.

Section Layout.

Variable Font : Type.
Variable getlength : Font -> str -> Z.
(** [os.path.join], and the file name without directory and extension
    ([os.path.splitext(os.path.basename(p))[0]]). *)
Variable os_path_join : str -> str -> str.
Variable os_path_stem : str -> str.

Variable self : NovelImageConverter.

Definition calculate_text_width (text : str) (font : Font) : Z :=
  getlength font text.

(** The loop [for word in words] of [process_line] with the flush after it,
    on the state [lines], [current_line], [current_width]. *)
Fixpoint pack_words (font : Font) (available_width : Z) (words : list str)
    (lines : list str) (current_line : list str) (current_width : Z)
    : list str :=
  match words with
  | [] =>
      if truthy current_line then lines ++ [join [SPACE] current_line]
      else lines
  | word :: words' =>
      let word_width := calculate_text_width (word ++ [SPACE]) font in
      if (current_width + word_width <=? px available_width)%Z then
        pack_words font available_width words' lines
          (current_line ++ [word]) (current_width + word_width)%Z
      else
        pack_words font available_width words'
          (if truthy current_line then lines ++ [join [SPACE] current_line]
           else lines)
          [word] word_width
  end.

Definition process_line (line : str) (font : Font) (max_width : Z)
    : list str :=
  if negb (truthy line) then [line]
  else
    let text_width := calculate_text_width line font in
    let available_width :=
      (max_width - margin_left self - margin_right self)%Z in
    if (text_width <=? px available_width)%Z then [line]
    else pack_words font available_width (split_ws line) [] [] 0.

(** The loop [for line in lines] of [process_text]. *)
Fixpoint process_lines (font : Font) (lines : list str)
    (processed_lines : list str) : list str :=
  match lines with
  | [] => processed_lines
  | line :: lines' =>
      if negb (truthy (strip line))
      then process_lines font lines' (processed_lines ++ [line])
      else process_lines font lines'
             (processed_lines ++ process_line line font (width self))
  end.

Definition process_text (text : str) (font : Font) : list str :=
  process_lines font (split_on LF text) [].

(** The loop of [split_into_pages] with the flush after it. *)
Fixpoint fill_pages (lines : list str) (pages : list str)
    (current_page : list str) : list str :=
  match lines with
  | [] =>
      if truthy current_page then pages ++ [join [LF] current_page]
      else pages
  | line :: lines' =>
      if (Z.of_nat (length current_page) >=? lines_per_page self)%Z
      then fill_pages lines' (pages ++ [join [LF] current_page]) [line]
      else fill_pages lines' pages (current_page ++ [line])
  end.

Definition split_into_pages (lines : list str) : list str :=
  fill_pages lines [] [].

(** The name of the image of page [i]. *)
Definition image_name (basename : str) (i : nat) : str :=
  basename ++ of_string "_p" ++ format_03d i ++ of_string ".jpg".

(** [process_file]: the calls [create_image_from_text(page_text, image_path)]
    it makes, in order, as pairs (path, page text). [content] is the decoded
    file, [None] when neither UTF-8 nor CP949 decodes it (then the function
    returns before any image). *)
Definition process_file (txt_path images_folder : str) (content : option str)
    (font : Font) : list (str * str) :=
  let basename := os_path_stem txt_path in
  match content with
  | None => []
  | Some content =>
      let processed_lines := process_text content font in
      let pages := split_into_pages processed_lines in
      map (fun ip =>
             (os_path_join images_folder (image_name basename (fst ip)),
              snd ip))
          (enumerate 1 pages)
  end.

(** *** Word groups: what the packing loop computes

    [pack_groups] is the same loop, keeping each sub-line as its list of
    words; [pack_words] joins every group with single spaces. *)
Definition flush (current_line : list str) : list (list str) :=
  if truthy current_line then [current_line] else [].

Fixpoint pack_groups (font : Font) (available_width : Z) (words : list str)
    (current_line : list str) (current_width : Z) : list (list str) :=
  match words with
  | [] => flush current_line
  | word :: words' =>
      let word_width := calculate_text_width (word ++ [SPACE]) font in
      if (current_width + word_width <=? px available_width)%Z then
        pack_groups font available_width words'
          (current_line ++ [word]) (current_width + word_width)%Z
      else
        flush current_line
          ++ pack_groups font available_width words' [word] word_width
  end.

(** The width the loop charges to a group: each word with one space. *)
Definition spaced_width (font : Font) (ws : list str) : Z :=
  fold_right (fun w a => (getlength font (w ++ [SPACE]) + a)%Z) 0%Z ws.

Lemma pack_words_groups (font : Font) (available_width : Z)
    (words : list str) :
  forall lines current_line current_width,
    pack_words font available_width words lines current_line current_width
    = lines ++ map (join [SPACE])
        (pack_groups font available_width words current_line current_width).
Proof.
  induction words as [|word words IH]; intros lines cur cw.
  - cbn [pack_words pack_groups]. unfold flush.
    destruct (truthy cur); [reflexivity|now rewrite app_nil_r].
  - cbn [pack_words pack_groups].
    destruct (_ <=? _)%Z; [apply IH|].
    rewrite IH, map_app. unfold flush.
    destruct (truthy cur); [now rewrite <- app_assoc|reflexivity].
Qed.

Lemma spaced_width_snoc (font : Font) (ws : list str) (w : str) :
  spaced_width font (ws ++ [w])
  = (spaced_width font ws + getlength font (w ++ [SPACE]))%Z.
Proof.
  induction ws as [|v ws IH]; simpl; [lia|]. rewrite IH. lia.
Qed.

Lemma flush_concat (cur : list str) : concat (flush cur) = cur.
Proof. destruct cur; [reflexivity|]. simpl. now rewrite app_nil_r. Qed.

(** The groups partition the words in order; none is empty; a group of two
    or more words was charged no more than the available width. *)
Lemma pack_groups_partition (font : Font) (available_width : Z)
    (words : list str) :
  forall current_line current_width,
    current_width = spaced_width font current_line ->
    (2 <= length current_line -> (current_width <= px available_width)%Z) ->
    concat (pack_groups font available_width words current_line
              current_width)
    = current_line ++ words
    /\ Forall (fun g => g <> []
                 /\ (2 <= length g ->
                     (spaced_width font g <= px available_width)%Z))
         (pack_groups font available_width words current_line current_width).
Proof.
  induction words as [|word words IH]; intros cur cw Hcw Hfit.
  - cbn [pack_groups]. rewrite flush_concat, app_nil_r. split; [reflexivity|].
    unfold flush. destruct cur as [|w cur]; [constructor|].
    repeat constructor; [discriminate|]. subst cw. exact Hfit.
  - cbn [pack_groups]. unfold calculate_text_width.
    destruct (Z.leb_spec (cw + getlength font (word ++ [SPACE]))
                (px available_width)) as [Hle|Hgt].
    + destruct (IH (cur ++ [word]) (cw + getlength font (word ++ [SPACE]))%Z)
        as [Hcat Hall].
      * rewrite spaced_width_snoc. lia.
      * intros _. exact Hle.
      * split; [|exact Hall]. now rewrite Hcat, <- app_assoc.
    + destruct (IH [word] (getlength font (word ++ [SPACE]))) as [Hcat Hall].
      * simpl. lia.
      * simpl. lia.
      * split.
        -- rewrite concat_app, flush_concat, Hcat. reflexivity.
        -- apply Forall_app. split; [|exact Hall].
           unfold flush. destruct cur as [|w cur]; [constructor|].
           repeat constructor; [discriminate|]. subst cw. exact Hfit.
Qed.

Lemma spaced_width_nonneg (font : Font) :
  (forall s, (0 <= getlength font s)%Z) ->
  forall ws, (0 <= spaced_width font ws)%Z.
Proof.
  intros Hpos ws. induction ws as [|w ws IH]; simpl; [lia|].
  specialize (Hpos (w ++ [SPACE])). lia.
Qed.

(** With non-negative widths, a word charged more than the available width
    is a group by itself. *)
Lemma pack_groups_wide_word (font : Font) (available_width : Z) :
  (forall s, (0 <= getlength font s)%Z) ->
  forall words current_line current_width,
    current_width = spaced_width font current_line ->
    (forall w, In w words ->
       (px available_width < getlength font (w ++ [SPACE]))%Z ->
       In [w] (pack_groups font available_width words current_line
                 current_width))
    /\ ((px available_width < current_width)%Z -> current_line <> [] ->
        In current_line
          (pack_groups font available_width words current_line
             current_width)).
Proof.
  intros Hpos. induction words as [|word words IH]; intros cur cw Hcw.
  - split; [intros w []|]. intros _ Hne. cbn [pack_groups]. unfold flush.
    destruct cur; [contradiction|now left].
  - cbn [pack_groups]. unfold calculate_text_width.
    pose proof (Hpos (word ++ [SPACE])) as Hword.
    pose proof (spaced_width_nonneg font Hpos cur) as Hcur.
    destruct (Z.leb_spec (cw + getlength font (word ++ [SPACE]))
                (px available_width)) as [Hle|Hgt].
    + destruct (IH (cur ++ [word]) (cw + getlength font (word ++ [SPACE]))%Z)
        as [Hwords _]; [rewrite spaced_width_snoc; lia|].
      split; [|intros Hwide; lia].
      intros w [<-|Hin] Hwide; [lia|now apply Hwords].
    + destruct (IH [word] (getlength font (word ++ [SPACE])))
        as [Hwords Hself]; [simpl; lia|].
      split.
      * intros w [<-|Hin] Hwide; apply in_or_app; right.
        -- apply Hself; [assumption|discriminate].
        -- now apply Hwords.
      * intros _ Hne. apply in_or_app. left. unfold flush.
        destruct cur; [contradiction|now left].
Qed.

Lemma pack_groups_words (font : Font) (available_width : Z)
    (words : list str) (P : str -> Prop) :
  forall current_line current_width,
    Forall P current_line -> Forall P words ->
    Forall (Forall P)
      (pack_groups font available_width words current_line current_width).
Proof.
  induction words as [|word words IH]; intros cur cw Hcur Hwords.
  - cbn [pack_groups]. unfold flush.
    destruct (truthy cur); now repeat constructor.
  - inversion Hwords as [|? ? Hw Hws]; subst. cbn [pack_groups].
    destruct (_ <=? _)%Z.
    + apply IH; [|assumption]. apply Forall_app. now repeat constructor.
    + apply Forall_app. split.
      * unfold flush. destruct (truthy cur); now repeat constructor.
      * apply IH; [|assumption]. now repeat constructor.
Qed.

(** *** [process_line] *)

Lemma process_line_cases (line : str) (font : Font) (max_width : Z) :
  let available_width :=
    (max_width - margin_left self - margin_right self)%Z in
  process_line line font max_width = [line]
  /\ (line = [] \/
      (calculate_text_width line font <= px available_width)%Z)
  \/ process_line line font max_width
     = map (join [SPACE])
         (pack_groups font available_width (split_ws line) [] 0)
     /\ (px available_width < calculate_text_width line font)%Z.
Proof.
  intros available_width. unfold process_line.
  destruct line as [|c line]; [left; split; [reflexivity|now left]|].
  cbn [truthy negb].
  destruct (Z.leb_spec (calculate_text_width (c :: line) font)
              (px (max_width - margin_left self - margin_right self)))
    as [Hle|Hgt].
  - left. split; [reflexivity|now right].
  - right. split; [|exact Hgt]. now rewrite pack_words_groups.
Qed.

Lemma process_line_nonempty (line : str) (font : Font) (max_width : Z) :
  strip line <> [] -> process_line line font max_width <> [].
Proof.
  intros Hs.
  destruct (process_line_cases line font max_width) as [[-> _]|[-> _]];
    [discriminate|].
  pose proof (split_ws_nonblank line Hs) as Hw.
  destruct (split_ws line) as [|w ws]; [contradiction|].
  intros E. apply map_eq_nil in E.
  destruct (pack_groups_partition font
              (max_width - margin_left self - margin_right self)
              (w :: ws) [] 0 eq_refl) as [Hcat _]; [simpl; lia|].
  rewrite E in Hcat. discriminate.
Qed.

(** *** [process_text] *)

(** What one physical line contributes. *)
Definition process_physical_line (font : Font) (line : str) : list str :=
  if negb (truthy (strip line)) then [line]
  else process_line line font (width self).

Lemma process_lines_flat_map (font : Font) (lines : list str) :
  forall processed_lines,
    process_lines font lines processed_lines
    = processed_lines ++ flat_map (process_physical_line font) lines.
Proof.
  induction lines as [|line lines IH]; intros acc; cbn [process_lines].
  - now rewrite app_nil_r.
  - cbn [flat_map]. unfold process_physical_line at 1.
    destruct (negb (truthy (strip line))); now rewrite IH, <- app_assoc.
Qed.

Lemma process_lines_app (font : Font) (before after : list str) :
  process_lines font (before ++ after) []
  = process_lines font before [] ++ process_lines font after [].
Proof. now rewrite !process_lines_flat_map, flat_map_app. Qed.

Lemma process_lines_blank (font : Font) (lines : list str) :
  Forall (fun l => strip l = []) lines -> process_lines font lines [] = lines.
Proof.
  intros H. rewrite process_lines_flat_map. cbn [app].
  induction H as [|l ls Hl Hls IH]; [reflexivity|].
  cbn [flat_map]. unfold process_physical_line at 1. rewrite Hl, IH.
  reflexivity.
Qed.

Lemma join_words_no_LF (ws : list str) :
  Forall is_word ws -> ~ In LF (join [SPACE] ws).
Proof.
  induction 1 as [|w ws [_ Hw] Hws IH]; [intros []|].
  assert (Hn : ~ In LF w).
  { intros Hin. rewrite Forall_forall in Hw. specialize (Hw LF Hin).
    discriminate. }
  destruct ws as [|w2 ws]; [exact Hn|].
  change (join [SPACE] (w :: w2 :: ws))
    with (w ++ SPACE :: join [SPACE] (w2 :: ws)).
  intros Hin. apply in_app_or in Hin. destruct Hin as [Hin|[Hin|Hin]].
  - now apply Hn.
  - discriminate.
  - now apply IH.
Qed.

Lemma process_line_no_LF (line : str) (font : Font) (max_width : Z) :
  ~ In LF line ->
  Forall (fun l => ~ In LF l) (process_line line font max_width).
Proof.
  intros Hline.
  destruct (process_line_cases line font max_width) as [[-> _]|[-> _]];
    [now repeat constructor|].
  apply Forall_forall. intros sub Hin. apply in_map_iff in Hin.
  destruct Hin as (g & <- & Hg). apply join_words_no_LF.
  pose proof (pack_groups_words font
                (max_width - margin_left self - margin_right self)
                (split_ws line) is_word [] 0 (Forall_nil _)
                (split_ws_words line)) as Hall.
  rewrite Forall_forall in Hall. now apply Hall.
Qed.

(** The wrapped lines hold no line feed, and there is at least one. *)
Lemma process_text_lines (text : str) (font : Font) :
  Forall (fun l => ~ In LF l) (process_text text font)
  /\ 1 <= length (process_text text font).
Proof.
  unfold process_text. rewrite process_lines_flat_map. cbn [app].
  pose proof (split_on_fields LF text) as Hf.
  pose proof (split_on_nonempty LF text) as Hne.
  split.
  - clear Hne. induction Hf as [|l ls Hl Hls IH]; [constructor|].
    cbn [flat_map]. apply Forall_app. split; [|exact IH].
    unfold process_physical_line.
    destruct (negb (truthy (strip l))); [now repeat constructor|].
    now apply process_line_no_LF.
  - destruct (split_on LF text) as [|l ls]; [contradiction|].
    cbn [flat_map]. rewrite length_app.
    enough (1 <= length (process_physical_line font l)) by lia.
    unfold process_physical_line.
    destruct (truthy (strip l)) eqn:E; cbn [negb]; [|simpl; lia].
    pose proof (process_line_nonempty l font (width self)) as Hp.
    destruct (process_line l font (width self)); [|simpl; lia].
    exfalso. apply Hp; [|reflexivity].
    intros E'. rewrite E' in E. discriminate.
Qed.

End Layout.

(** *** Pieces of a list *)

Lemma chunks_fuel {A} (k : nat) :
  1 <= k ->
  forall fuel1 fuel2 (l : list A),
    length l <= fuel1 -> length l <= fuel2 ->
    chunks fuel1 k l = chunks fuel2 k l.
Proof.
  intros Hk. induction fuel1 as [|fuel1 IH]; intros fuel2 l H1 H2.
  - destruct l; [|simpl in H1; lia]. destruct fuel2; reflexivity.
  - destruct l as [|a l]; [destruct fuel2; reflexivity|].
    destruct fuel2 as [|fuel2]; [simpl in H2; lia|].
    cbn [chunks]. f_equal.
    apply IH; rewrite length_skipn; cbn [length] in *; lia.
Qed.

Lemma chunk_full {A} (k : nat) (cur rest : list A) :
  1 <= k -> length cur = k ->
  chunk k (cur ++ rest) = cur :: chunk k rest.
Proof.
  intros Hk Hlen. unfold chunk.
  destruct cur as [|c cur]; [simpl in Hlen; lia|].
  cbn [app length chunks]. rewrite !app_comm_cons.
  rewrite firstn_app, skipn_app, Hlen, Nat.sub_diag.
  rewrite <- Hlen, firstn_all, skipn_all. cbn [firstn skipn app].
  rewrite app_nil_r. f_equal.
  apply chunks_fuel; [lia| |lia]. rewrite length_app. lia.
Qed.

Lemma chunk_short {A} (k : nat) (cur : list A) :
  cur <> [] -> length cur <= k -> chunk k cur = [cur].
Proof.
  intros Hne Hlen. unfold chunk. destruct cur as [|c cur]; [contradiction|].
  cbn [length chunks]. rewrite firstn_all2, skipn_all2 by assumption.
  destruct (length cur); reflexivity.
Qed.

Lemma chunks_concat {A} (k : nat) :
  forall fuel (l : list A), 1 <= k -> length l <= fuel ->
    concat (chunks fuel k l) = l.
Proof.
  induction fuel as [|fuel IH]; intros l Hk Hlen.
  - destruct l; [reflexivity|simpl in Hlen; lia].
  - destruct l as [|a l]; [reflexivity|]. cbn [chunks concat].
    rewrite IH; [apply firstn_skipn|assumption|].
    rewrite length_skipn. cbn [length] in *. lia.
Qed.

Lemma chunks_sizes {A} (k : nat) :
  forall fuel (l : list A),
    map (@length A) (chunks fuel k l) = sizes fuel k (length l).
Proof.
  induction fuel as [|fuel IH]; intros l; [reflexivity|].
  destruct l as [|a l]; [reflexivity|]. cbn [chunks map sizes length].
  rewrite IH, length_firstn, length_skipn. reflexivity.
Qed.

Lemma sizes_bounds (k : nat) :
  1 <= k -> forall fuel n, Forall (fun s => 1 <= s <= k) (sizes fuel k n).
Proof.
  intros Hk. induction fuel as [|fuel IH]; intros n; [constructor|].
  destruct n as [|n]; [constructor|]. cbn [sizes].
  constructor; [lia|apply IH].
Qed.

(** There are ceil(n / k) pieces. *)
Lemma sizes_count (k : nat) :
  1 <= k ->
  forall fuel n, n <= fuel -> length (sizes fuel k n) = (n + k - 1) / k.
Proof.
  intros Hk. induction fuel as [|fuel IH]; intros n Hn.
  - assert (n = 0) by lia. subst. cbn [sizes length].
    symmetry. apply Nat.div_small. lia.
  - destruct n as [|n].
    + cbn [sizes length]. symmetry. apply Nat.div_small. lia.
    + cbn [sizes length]. rewrite IH by lia.
      destruct (Nat.le_gt_cases k (S n)) as [Hle|Hlt].
      * replace (S n + k - 1) with ((S n - k + k - 1) + 1 * k) by lia.
        rewrite Nat.div_add by lia. lia.
      * replace (S n - k) with 0 by lia.
        rewrite (Nat.div_small (0 + k - 1)) by lia.
        apply (Nat.div_unique _ _ 1 (S n - 1)); lia.
Qed.

(** A decidable form of the side condition on wrapped lines. *)
Definition LF_free (lines : list str) : bool :=
  forallb (fun l => negb (existsb (N.eqb LF) l)) lines.

Lemma LF_free_sound (lines : list str) :
  LF_free lines = true -> Forall (fun l => ~ In LF l) lines.
Proof.
  unfold LF_free. rewrite forallb_forall, Forall_forall.
  intros H l Hl Hin. specialize (H l Hl).
  apply existsb_eqb_In in Hin. rewrite Hin in H. discriminate.
Qed.

Lemma split_on_join_groups (groups : list (list str)) :
  Forall (fun g => g <> [] /\ Forall (fun l => ~ In LF l) g) groups ->
  map (split_on LF) (map (join [LF]) groups) = groups.
Proof.
  induction 1 as [|g gs [Hne Hg] Hgs IH]; [reflexivity|].
  simpl. now rewrite split_on_join, IH.
Qed.

Section Pagination.

Variable self : NovelImageConverter.
Hypothesis page_has_room : (1 <= lines_per_page self)%Z.

(** The page size as a count. *)
Definition page_size : nat := Z.to_nat (lines_per_page self).

Lemma fill_pages_chunk (lines : list str) :
  forall pages current_page,
    length current_page <= page_size ->
    fill_pages self lines pages current_page
    = pages ++ map (join [LF]) (chunk page_size (current_page ++ lines)).
Proof.
  assert (Hk : 1 <= page_size) by (unfold page_size; lia).
  induction lines as [|line lines IH]; intros pages cur Hcur.
  - cbn [fill_pages]. rewrite app_nil_r.
    destruct cur as [|l cur]; [now rewrite app_nil_r|].
    now rewrite chunk_short.
  - cbn [fill_pages]. rewrite Z.geb_leb.
    destruct (Z.leb_spec (lines_per_page self) (Z.of_nat (length cur)))
      as [Hfull|Hroom].
    + rewrite IH by (simpl; lia).
      rewrite (chunk_full page_size cur (line :: lines)) by
        (unfold page_size in *; lia).
      now rewrite <- app_assoc.
    + rewrite IH by (rewrite length_app; unfold page_size; simpl; lia).
      now rewrite <- app_assoc.
Qed.

(** Pagination cuts the lines into consecutive pieces of the page size. *)
Lemma split_into_pages_chunk (lines : list str) :
  split_into_pages self lines = map (join [LF]) (chunk page_size lines).
Proof.
  unfold split_into_pages. rewrite fill_pages_chunk by (simpl; lia).
  reflexivity.
Qed.

Lemma chunk_groups (lines : list str) :
  Forall (fun l => ~ In LF l) lines ->
  Forall (fun g => g <> [] /\ Forall (fun l => ~ In LF l) g)
    (chunk page_size lines).
Proof.
  intros Hlines.
  assert (Hk : 1 <= page_size) by (unfold page_size; lia).
  pose proof (chunks_concat page_size (length lines) lines Hk (le_n _))
    as Hcat.
  pose proof (sizes_bounds page_size Hk (length lines) (length lines))
    as Hsz.
  rewrite <- chunks_sizes in Hsz. fold (chunk page_size lines) in *.
  rewrite <- Hcat in Hlines. apply Forall_concat in Hlines.
  rewrite Forall_map in Hsz.
  rewrite Forall_forall in *. intros g Hg. split; [|now apply Hlines].
  specialize (Hsz g Hg). destruct g; [simpl in Hsz; lia|discriminate].
Qed.

(** Read back line by line, the pages are the pieces. *)
Lemma split_into_pages_lines (lines : list str) :
  Forall (fun l => ~ In LF l) lines ->
  map (split_on LF) (split_into_pages self lines) = chunk page_size lines.
Proof.
  intros Hlines. rewrite split_into_pages_chunk.
  apply split_on_join_groups, chunk_groups, Hlines.
Qed.

Lemma split_into_pages_count (lines : list str) :
  length (split_into_pages self lines)
  = (length lines + page_size - 1) / page_size.
Proof.
  assert (Hk : 1 <= page_size) by (unfold page_size; lia).
  rewrite split_into_pages_chunk, length_map.
  rewrite <- (length_map (@length str)). unfold chunk.
  rewrite chunks_sizes. now apply sizes_count.
Qed.

End Pagination.

(** C2. With a page size of at least one line (the converter's is 25) and
    wrapped lines, which hold no line feed, every page of [split_into_pages]
    has at most [lines_per_page] lines, and the lines of the pages, read back
    by splitting each page at its line feeds and taken in order, are exactly
    the input lines. *)
Theorem split_into_pages_lossless (self : NovelImageConverter)
    (lines : list str) :
  (1 <= lines_per_page self)%Z ->
  Forall (fun l => ~ In LF l) lines ->
  Forall (fun page =>
            (Z.of_nat (length (split_on LF page)) <= lines_per_page self)%Z)
    (split_into_pages self lines)
  /\ concat (map (split_on LF) (split_into_pages self lines)) = lines.
Proof.
  intros Hroom Hlines.
  assert (Hk : 1 <= page_size self) by (unfold page_size; lia).
  split.
  - rewrite <- (Forall_map (split_on LF)
                 (fun ls => (Z.of_nat (length ls) <= lines_per_page self)%Z)).
    rewrite split_into_pages_lines by assumption.
    rewrite <- (Forall_map (@length str)
                 (fun n => (Z.of_nat n <= lines_per_page self)%Z)).
    unfold chunk. rewrite chunks_sizes.
    eapply Forall_impl; [|apply (sizes_bounds (page_size self) Hk)].
    intros n Hn. unfold page_size in Hn. simpl in Hn. lia.
  - rewrite split_into_pages_lines by assumption.
    now apply chunks_concat.
Qed.

Lemma split_into_pages_lossless_witness :
  let lines := map of_string ["one"; ""; "two three"; "four"]%string in
  Forall (fun page => (Z.of_nat (length (split_on LF page)) <= 25)%Z)
    (split_into_pages default_converter lines)
  /\ concat (map (split_on LF) (split_into_pages default_converter lines))
     = lines.
Proof.
  apply (split_into_pages_lossless default_converter).
  - simpl. lia.
  - apply LF_free_sound. reflexivity.
Defined.

Lemma enumerate_fst {A} (xs : list A) :
  forall start, map fst (enumerate start xs) = seq start (length xs).
Proof.
  induction xs as [|x xs IH]; intros start; [reflexivity|].
  simpl. now rewrite IH.
Qed.

Lemma enumerate_snd {A} (xs : list A) :
  forall start, map snd (enumerate start xs) = xs.
Proof.
  induction xs as [|x xs IH]; intros start; [reflexivity|].
  simpl. now rewrite IH.
Qed.

Arguments calculate_text_width {Font} getlength text font.
Arguments process_line {Font} getlength self line font max_width.
Arguments process_lines {Font} getlength self font lines processed_lines.
Arguments process_text {Font} getlength self text font.
Arguments process_file {Font} getlength os_path_join os_path_stem self
  txt_path images_folder content font.
Arguments pack_groups {Font} getlength font available_width words
  current_line current_width.
Arguments spaced_width {Font} getlength font ws.

(** *** Page image names *)

(** The three digits of a number below 1000. *)
Definition three_digits (i : nat) : str :=
  [(48 + N.of_nat (i / 100))%N; (48 + N.of_nat ((i / 10) mod 10))%N;
   (48 + N.of_nat (i mod 10))%N].

Lemma format_03d_below_1000 (i : nat) :
  i < 1000 -> format_03d i = three_digits i.
Proof.
  intros Hi.
  assert (Hall : forallb
            (fun j => if list_eq_dec N.eq_dec (format_03d j) (three_digits j)
                      then true else false) (seq 0 1000) = true)
    by (vm_compute; reflexivity).
  rewrite forallb_forall in Hall. specialize (Hall i).
  destruct (list_eq_dec N.eq_dec (format_03d i) (three_digits i)) as [E|_];
    [exact E|].
  assert (false = true); [|discriminate].
  apply Hall. apply in_seq. lia.
Qed.

Lemma format_03d_width (i : nat) : 3 <= length (format_03d i).
Proof.
  unfold format_03d. cbv zeta. rewrite length_app, repeat_length.
  unfold char. lia.
Qed.

Lemma split_on_repeat_sep (sep : char) (m : nat) :
  split_on sep (repeat sep m) = repeat [] (S m).
Proof.
  induction m as [|m IH]; [reflexivity|].
  cbn [repeat]. rewrite split_on_cons, N.eqb_refl, IH. reflexivity.
Qed.

(** The image paths of a file, in order: one per page, numbered from 1. *)
Lemma process_file_names {Font} (getlength : Font -> str -> Z)
    (os_path_join : str -> str -> str) (os_path_stem : str -> str)
    (self : NovelImageConverter) (txt_path images_folder content : str)
    (font : Font) :
  (1 <= lines_per_page self)%Z ->
  map fst (process_file getlength os_path_join os_path_stem self txt_path
             images_folder (Some content) font)
  = map (fun i => os_path_join images_folder
                    (image_name (os_path_stem txt_path) i))
      (seq 1 ((length (process_text getlength self content font)
               + page_size self - 1) / page_size self)).
Proof.
  intros Hroom. unfold process_file. rewrite map_map. cbn [fst].
  rewrite <- (map_map fst
                (fun i => os_path_join images_folder
                            (image_name (os_path_stem txt_path) i))).
  now rewrite enumerate_fst, split_into_pages_count.
Qed.

(** C4 (amended). With a page size of at least one line, a chapter text with
    [n] wrapped lines (there is always at least one) gives exactly
    N = ceil(n / lines_per_page) page images, named with the indices 1 to N
    in order; an index is written in decimal, zero-padded to at least three
    digits, which is exactly three digits up to 999. Sixty wrapped lines at 25
    lines per page give three pages of 25, 25 and 10 lines. *)
Theorem process_file_page_images {Font} (getlength : Font -> str -> Z)
    (os_path_join : str -> str -> str) (os_path_stem : str -> str)
    (self : NovelImageConverter) (txt_path images_folder content : str)
    (font : Font) :
  (1 <= lines_per_page self)%Z ->
  let n := length (process_text getlength self content font) in
  let N := (n + page_size self - 1) / page_size self in
  let images :=
    process_file getlength os_path_join os_path_stem self txt_path
      images_folder (Some content) font in
  1 <= n
  /\ length images = N
  /\ map fst images
     = map (fun i => os_path_join images_folder
                       (os_path_stem txt_path ++ of_string "_p"
                          ++ format_03d i ++ of_string ".jpg"))
         (seq 1 N)
  /\ (forall i, 3 <= length (format_03d i)
                /\ (i < 1000 -> format_03d i = three_digits i))
  /\ (n = 60 -> lines_per_page self = 25%Z ->
      map (fun image => length (split_on LF (snd image))) images
      = [25; 25; 10]).
Proof.
  intros Hroom n N images.
  destruct (process_text_lines Font getlength self content font)
    as [Hfree Hone].
  split; [exact Hone|]. split; [|split; [|split]].
  - unfold images. rewrite <- (length_map fst).
    rewrite process_file_names by exact Hroom.
    now rewrite length_map, length_seq.
  - unfold images. now rewrite process_file_names by exact Hroom.
  - intros i. split; [apply format_03d_width|apply format_03d_below_1000].
  - intros Hn Hlpp. unfold images, process_file.
    rewrite map_map. cbn [snd].
    rewrite <- (map_map snd (fun page => length (split_on LF page))).
    rewrite enumerate_snd.
    rewrite <- (map_map (split_on LF) (@length str)).
    rewrite split_into_pages_lines by assumption.
    unfold chunk. rewrite chunks_sizes. fold n. rewrite Hn.
    unfold page_size. rewrite Hlpp. reflexivity.
Qed.

(** A fixed-pitch font: every character advances by [advance] pixels. *)
Definition fixed_pitch (advance : Z) (_ : unit) (s : str) : Z :=
  (64 * advance * Z.of_nat (length s))%Z.

Lemma process_file_page_images_witness :
  map fst
    (process_file (fixed_pitch 13) (fun d f => d ++ [47%N] ++ f) (fun p => p)
       default_converter (of_string "0007") (of_string "images")
       (Some (of_string "first" ++ [LF] ++ of_string "second")) tt)
  = [of_string "images/0007_p001.jpg"].
Proof.
  refine (proj1 (proj2 (proj2
    (process_file_page_images (fixed_pitch 13) (fun d f => d ++ [47%N] ++ f)
       (fun p => p) default_converter (of_string "0007") (of_string "images")
       (of_string "first" ++ [LF] ++ of_string "second") tt _)))).
  simpl. lia.
Defined.

(** C4, as stated, fails on the index width: a text of 24976 lines (24975
    line feeds, 25 * 999) has 1000 pages at 25 lines per page, and the image of the
    last page carries the four-digit index 1000. *)
Lemma process_file_four_digit_index :
  nth_error
    (map fst
       (process_file (fixed_pitch 13) (fun d f => d ++ [47%N] ++ f)
          (fun p => p) default_converter (of_string "0007")
          (of_string "images") (Some (repeat LF (25 * 999))) tt))
    999
  = Some (of_string "images/0007_p1000.jpg")
  /\ length (format_03d 1000) = 4.
Proof.
  split; [|vm_compute; reflexivity].
  rewrite process_file_names by (simpl; lia).
  unfold process_text. rewrite split_on_repeat_sep.
  rewrite process_lines_blank
    by (apply Forall_forall; intros l Hl; now apply repeat_spec in Hl; subst).
  rewrite repeat_length, nth_error_map, nth_error_seq.
  vm_compute. reflexivity.
Qed.

(** *** Wrapping one line *)

Lemma fixed_pitch_nonneg (advance : Z) (s : str) :
  (0 <= advance)%Z -> (0 <= fixed_pitch advance tt s)%Z.
Proof. intros H. unfold fixed_pitch. nia. Qed.

(** In a fixed-pitch font a joined sub-line is narrower than the sum of its
    words, each measured with a space after it. *)
Lemma fixed_pitch_join (advance : Z) (ws : list str) :
  (0 <= advance)%Z ->
  (fixed_pitch advance tt (join [SPACE] ws)
   <= spaced_width (fixed_pitch advance) tt ws)%Z.
Proof.
  intros H. induction ws as [|w ws IH].
  - unfold fixed_pitch, spaced_width.
    cbn [join length fold_right Z.of_nat]. lia.
  - destruct ws as [|w2 ws].
    { unfold fixed_pitch, spaced_width. cbn [join fold_right].
      rewrite length_app. cbn [length]. nia. }
    change (join [SPACE] (w :: w2 :: ws))
      with (w ++ SPACE :: join [SPACE] (w2 :: ws)).
    change (spaced_width (fixed_pitch advance) tt (w :: w2 :: ws))
      with (fixed_pitch advance tt (w ++ [SPACE])
            + spaced_width (fixed_pitch advance) tt (w2 :: ws))%Z.
    unfold fixed_pitch in *. rewrite !length_app in *.
    cbn [length] in *. nia.
Qed.

(** C5. A line whose measured width is at most the available width (image
    width minus the left and right margins) comes back from [process_line] as
    the one line it is; and a blank or whitespace-only physical line of a text
    goes through [process_text] unchanged, between the wrapped lines of what
    precedes and what follows it. *)
Theorem short_and_blank_lines_unchanged {Font}
    (getlength : Font -> str -> Z) (self : NovelImageConverter)
    (font : Font) :
  (forall line max_width,
      (calculate_text_width getlength line font
       <= px (max_width - margin_left self - margin_right self))%Z ->
      process_line getlength self line font max_width = [line])
  /\ (forall text before blank after,
        split_on LF text = before ++ blank :: after ->
        strip blank = [] ->
        process_text getlength self text font
        = process_lines getlength self font before []
            ++ blank :: process_lines getlength self font after []).
Proof.
  split.
  - intros line max_width Hfit.
    destruct (process_line_cases Font getlength self line font max_width)
      as [[E _]|[_ Hwide]]; [exact E|].
    unfold calculate_text_width in *. lia.
  - intros text before blank after Hsplit Hblank.
    unfold process_text. rewrite Hsplit, process_lines_app. f_equal.
    change (blank :: after) with ([blank] ++ after).
    rewrite process_lines_app. cbn [process_lines]. now rewrite Hblank.
Qed.

Lemma short_and_blank_lines_unchanged_witness :
  process_line (fixed_pitch 13) default_converter (of_string "a short line")
    tt 1500
  = [of_string "a short line"]
  /\ process_text (fixed_pitch 13) default_converter
       (of_string "one" ++ [LF; SPACE; 9%N; LF] ++ of_string "two") tt
     = [of_string "one"; [SPACE; 9%N]; of_string "two"].
Proof.
  pose proof (short_and_blank_lines_unchanged (fixed_pitch 13)
                default_converter tt) as [Hshort Hblank].
  split.
  - apply Hshort. vm_compute. discriminate.
  - apply (Hblank _ [of_string "one"] [SPACE; 9%N] [of_string "two"]);
      reflexivity.
Defined.

(** C8 (amended). For every font metric, [process_line] keeps every word:
    the words of its sub-lines, in order, are the words of the line. When no
    width is negative and the line is wrapped, a word that alone is charged
    more than the available width is a sub-line by itself. Every sub-line of
    two or more words of a wrapped line is its words joined by single spaces
    and was charged, each word measured with a space after it, no more than
    the available width; and a sub-line of two or more words measures at most
    the available width whenever it measures no more than its words were
    charged, which the loop does not check. *)
Theorem process_line_keeps_words {Font} (getlength : Font -> str -> Z)
    (self : NovelImageConverter) (font : Font) (line : str)
    (max_width : Z) :
  let available := px (max_width - margin_left self - margin_right self) in
  let out := process_line getlength self line font max_width in
  concat (map split_ws out) = split_ws line
  /\ ((forall s, (0 <= getlength font s)%Z) ->
      (available < calculate_text_width getlength line font)%Z ->
      forall word, In word (split_ws line) ->
        (available
         < calculate_text_width getlength (word ++ [SPACE]) font)%Z ->
        In word out)
  /\ (forall sub, In sub out -> 2 <= length (split_ws sub) ->
        ((available < calculate_text_width getlength line font)%Z ->
         sub = join [SPACE] (split_ws sub)
         /\ (spaced_width getlength font (split_ws sub) <= available)%Z)
        /\ ((calculate_text_width getlength sub font
             <= spaced_width getlength font (split_ws sub))%Z ->
            (calculate_text_width getlength sub font <= available)%Z)).
Proof.
  intros available out.
  set (avail := (max_width - margin_left self - margin_right self)%Z).
  pose proof (split_ws_words line) as Hwords.
  destruct (pack_groups_partition Font getlength font avail (split_ws line)
              [] 0 eq_refl) as [Hcat Hall]; [simpl; lia|].
  pose proof (pack_groups_words Font getlength font avail (split_ws line)
                is_word [] 0 (Forall_nil _) Hwords) as Hgw.
  destruct (process_line_cases Font getlength self line font max_width)
    as [[E Hfit]|[E Hwide]]; unfold out; rewrite E; clear E.
  - split; [simpl; apply app_nil_r|]. split.
    + intros _ Hw. destruct Hfit as [->|Hfit]; [intros w []|].
      exfalso. subst available avail. unfold calculate_text_width in *. lia.
    + intros sub [<-|[]] Htwo.
      destruct Hfit as [->|Hfit]; [simpl in Htwo; lia|].
      split; [|intros _; exact Hfit].
      intros Hw. exfalso. subst available avail.
      unfold calculate_text_width in *. lia.
  - fold avail. split; [|split].
    + rewrite split_ws_join_groups by assumption. exact Hcat.
    + intros Hpos _ word Hin Hword.
      destruct (pack_groups_wide_word Font getlength font avail Hpos
                  (split_ws line) [] 0 eq_refl) as [Hown _].
      apply in_map_iff. exists [word]. split; [reflexivity|].
      apply Hown; assumption.
    + intros sub Hin Htwo. apply in_map_iff in Hin.
      destruct Hin as (g & <- & Hg).
      rewrite Forall_forall in Hall, Hgw.
      rewrite split_ws_join in Htwo |- * by now apply Hgw.
      destruct (Hall g Hg) as [_ Hacc]. specialize (Hacc Htwo).
      unfold calculate_text_width, available. fold avail.
      split; [intros _; split; [reflexivity|exact Hacc]|].
      intros Hjoin. lia.
Qed.

Lemma process_line_keeps_words_witness :
  let line := of_string "  tiny  incomprehensibilities to wrap " in
  let out := process_line (fixed_pitch 13) default_converter line tt 400 in
  concat (map split_ws out) = split_ws line
  /\ In (of_string "incomprehensibilities") out
  /\ (forall sub, In sub out -> 2 <= length (split_ws sub) ->
        (fixed_pitch 13 tt sub <= px 200)%Z).
Proof.
  intros line out.
  pose proof (process_line_keeps_words (fixed_pitch 13) default_converter tt
                line 400)
    as (Hkeep & Hown & Hfit).
  split; [exact Hkeep|]. split.
  - apply Hown.
    + intros s. apply fixed_pitch_nonneg. lia.
    + vm_compute. reflexivity.
    + vm_compute. tauto.
    + vm_compute. reflexivity.
  - intros sub Hin Htwo.
    destruct (Hfit sub Hin Htwo) as [Hwrapped Hfits].
    destruct (Hwrapped ltac:(vm_compute; reflexivity)) as [Hsub _].
    apply Hfits. rewrite Hsub at 1.
    apply (fixed_pitch_join 13 (split_ws sub)). lia.
Defined.

(** A metric with wide gaps: ten pixels a character, and a hundred more for
    every gap between two words. No width is negative, and two words joined
    measure more than the two measured each with a space after it. *)
Definition kerned (_ : unit) (s : str) : Z :=
  px (10 * Z.of_nat (length s)
      + 100 * Z.of_nat (length (split_ws s) - 1)).

(** A metric with a negative advance: ten pixels a character, and 250 pixels
    back for every [x]. *)
Definition backing (_ : unit) (s : str) : Z :=
  px (10 * Z.of_nat (length s)
      - 250 * Z.of_nat (length (filter (N.eqb 120) s))).

(** C8, as stated, fails. With the metric [kerned] and 100 pixels available,
    the first two words are charged 50 and 20 pixels and share a sub-line,
    which measures 160 pixels: a sub-line of two words that does not fit.
    With the metric [backing], the first word is charged 220 pixels, more
    than the 100 available, and the word after it takes the sum back under
    the limit: the wide word is not on a sub-line of its own. *)
Lemma process_line_two_words_too_wide :
  process_line kerned default_converter (of_string "aaaa b cccccccccccc") tt
    300
  = [of_string "aaaa b"; of_string "cccccccccccc"]
  /\ length (split_ws (of_string "aaaa b")) = 2
  /\ (px (300 - margin_left default_converter
          - margin_right default_converter)
      < calculate_text_width kerned (of_string "aaaa b") tt)%Z
  /\ process_line backing default_converter
       (of_string "wwwwwwwwwwwwwwwwwwwww x yyyyyyyyyyyyyyyyyyyy") tt 300
     = [of_string "wwwwwwwwwwwwwwwwwwwww x";
        of_string "yyyyyyyyyyyyyyyyyyyy"]
  /\ (px (300 - margin_left default_converter
          - margin_right default_converter)
      < calculate_text_width backing
          (of_string "wwwwwwwwwwwwwwwwwwwww" ++ [SPACE]) tt)%Z.
Proof. repeat split; vm_compute; reflexivity. Qed.

(** C10. When the line measures more than the available width, the
    sub-lines of [process_line] joined by single spaces are the
    whitespace-separated words of the line joined by single spaces: runs of
    whitespace inside the line become one space, and whitespace at its ends is
    gone. *)
Theorem process_line_collapses_whitespace {Font}
    (getlength : Font -> str -> Z) (self : NovelImageConverter)
    (font : Font) (line : str) (max_width : Z) :
  (px (max_width - margin_left self - margin_right self)
   < calculate_text_width getlength line font)%Z ->
  join [SPACE] (process_line getlength self line font max_width)
  = join [SPACE] (split_ws line).
Proof.
  intros Hwide.
  set (avail := (max_width - margin_left self - margin_right self)%Z) in *.
  destruct (process_line_cases Font getlength self line font max_width)
    as [[_ [->|Hfit]]|[-> _]].
  - reflexivity.
  - fold avail in Hfit. lia.
  - fold avail.
    destruct (pack_groups_partition Font getlength font avail (split_ws line)
                [] 0 eq_refl) as [Hcat Hall]; [simpl; lia|].
    rewrite join_concat, Hcat; [reflexivity|].
    eapply Forall_impl; [|exact Hall]. now intros g [Hne _].
Qed.

Lemma process_line_collapses_whitespace_witness :
  join [SPACE]
    (process_line (fixed_pitch 13) default_converter
       (of_string "  wrap   these words ") tt 300)
  = of_string "wrap these words".
Proof.
  apply (process_line_collapses_whitespace (fixed_pitch 13) default_converter
           tt (of_string "  wrap   these words ") 300).
  vm_compute. reflexivity.
Defined.

(** ** NovelImageConverter: wrapping twice, and the page images *)

Section Images.

Variable Font : Type.
Variable getlength : Font -> str -> Z.
Variable self : NovelImageConverter.

(** *** A sub-line packs into itself

    [fills avail font cw r cw'] says that, from the accumulated width [cw],
    the loop of [process_line] takes the words [r] one after the other into
    the current sub-line, ending with the width [cw']. *)
Inductive fills (font : Font) (available_width : Z)
    : Z -> list str -> Z -> Prop :=
| fills_nil cw : fills font available_width cw [] cw
| fills_snoc cw r cw' w :
    fills font available_width cw r cw' ->
    (cw' + getlength font (w ++ [SPACE]) <= px available_width)%Z ->
    fills font available_width cw (r ++ [w])
      (cw' + getlength font (w ++ [SPACE])).

(** A sub-line as the loop builds one: a first word, and the words the loop
    then took in. *)
Definition tight (font : Font) (available_width : Z) (g : list str) : Prop :=
  match g with
  | [] => False
  | w :: r =>
      exists cw,
        fills font available_width (getlength font (w ++ [SPACE])) r cw
  end.

Lemma pack_groups_fills (font : Font) (available_width : Z) cw r cw' :
  fills font available_width cw r cw' ->
  forall rest current_line,
    pack_groups getlength font available_width (r ++ rest) current_line cw
    = pack_groups getlength font available_width rest (current_line ++ r)
        cw'.
Proof.
  induction 1 as [cw|cw r cw' w Hr IH Hle]; intros rest cur.
  - now rewrite app_nil_r.
  - rewrite <- app_assoc, IH. cbn [app pack_groups].
    unfold calculate_text_width.
    destruct (Z.leb_spec (cw' + getlength font (w ++ [SPACE]))
                (px available_width)); [|lia].
    now rewrite <- app_assoc.
Qed.

Lemma pack_groups_tight (font : Font) (available_width : Z)
    (words : list str) :
  forall current_line current_width,
    (current_line = [] /\ current_width = 0%Z)
    \/ (exists w r, current_line = w :: r
          /\ fills font available_width (getlength font (w ++ [SPACE])) r
               current_width) ->
    Forall (tight font available_width)
      (pack_groups getlength font available_width words current_line
         current_width).
Proof.
  induction words as [|word words IH]; intros cur cw Hstate.
  - cbn [pack_groups]. unfold flush.
    destruct Hstate as [[-> _]|(w & r & -> & Hfill)]; [constructor|].
    repeat constructor. now exists cw.
  - cbn [pack_groups]. unfold calculate_text_width.
    destruct (Z.leb_spec (cw + getlength font (word ++ [SPACE]))
                (px available_width)) as [Hle|Hgt].
    + apply IH. right.
      destruct Hstate as [[-> ->]|(w & r & -> & Hfill)].
      * exists word, []. split; [reflexivity|].
        rewrite Z.add_0_l. constructor.
      * exists w, (r ++ [word]). split; [reflexivity|].
        now constructor.
    + apply Forall_app. split.
      * unfold flush.
        destruct Hstate as [[-> _]|(w & r & -> & Hfill)]; [constructor|].
        repeat constructor. now exists cw.
      * apply IH. right. exists word, []. split; [reflexivity|constructor].
Qed.

Lemma pack_groups_repack (font : Font) (available_width : Z)
    (g : list str) :
  tight font available_width g ->
  pack_groups getlength font available_width g [] 0 = [g].
Proof.
  destruct g as [|w r]; [intros []|]. intros [cw Hfill].
  assert (Hstart : pack_groups getlength font available_width (w :: r) [] 0
                   = pack_groups getlength font available_width r [w]
                       (getlength font (w ++ [SPACE]))).
  { cbn [pack_groups]. unfold calculate_text_width. rewrite Z.add_0_l.
    destruct (_ <=? _)%Z; reflexivity. }
  rewrite Hstart. rewrite <- (app_nil_r r) at 1.
  rewrite (pack_groups_fills font available_width _ r cw Hfill [] [w]).
  reflexivity.
Qed.

(** A line that [process_text] produced goes through it unchanged. *)
Lemma process_physical_line_fixed (font : Font) (line0 line : str) :
  In line (process_physical_line Font getlength self font line0) ->
  process_physical_line Font getlength self font line = [line].
Proof.
  unfold process_physical_line at 1.
  destruct (negb (truthy (strip line0))) eqn:Eblank.
  - intros [<-|[]]. unfold process_physical_line. now rewrite Eblank.
  - destruct (process_line_cases Font getlength self line0 font (width self))
      as [[E _]|[E _]]; rewrite E.
    + intros [<-|[]]. unfold process_physical_line. now rewrite Eblank.
    + intros Hin. apply in_map_iff in Hin. destruct Hin as (g & <- & Hg).
      set (avail := (width self - margin_left self - margin_right self)%Z)
        in *.
      assert (Htight : tight font avail g).
      { pose proof (pack_groups_tight font avail (split_ws line0) [] 0
                      (or_introl (conj eq_refl eq_refl))) as Hall.
        rewrite Forall_forall in Hall. now apply Hall. }
      assert (Hwords : Forall is_word g).
      { pose proof (pack_groups_words Font getlength font avail
                      (split_ws line0) is_word [] 0 (Forall_nil _)
                      (split_ws_words line0)) as Hall.
        rewrite Forall_forall in Hall. now apply Hall. }
      unfold process_physical_line.
      destruct (negb (truthy (strip (join [SPACE] g)))); [reflexivity|].
      destruct (process_line_cases Font getlength self (join [SPACE] g) font
                  (width self)) as [[E2 _]|[E2 _]]; rewrite E2;
        [reflexivity|].
      fold avail. rewrite split_ws_join by exact Hwords.
      now rewrite pack_groups_repack.
Qed.

Lemma process_lines_fixed (font : Font) (lines : list str) :
  (forall l, In l lines ->
     process_physical_line Font getlength self font l = [l]) ->
  process_lines getlength self font lines [] = lines.
Proof.
  intros H. rewrite process_lines_flat_map. cbn [app].
  induction lines as [|l ls IH]; [reflexivity|].
  cbn [flat_map]. rewrite (H l (or_introl eq_refl)). cbn [app]. f_equal.
  apply IH. intros l' Hl'. apply H. now right.
Qed.

Lemma process_text_fixed (text : str) (font : Font) (l : str) :
  In l (process_text getlength self text font) ->
  process_physical_line Font getlength self font l = [l].
Proof.
  unfold process_text. rewrite process_lines_flat_map. cbn [app].
  intros Hin. apply in_flat_map in Hin. destruct Hin as (l0 & _ & Hl).
  now apply (process_physical_line_fixed font l0).
Qed.

(** Wrapping the lines of a piece of a wrapped text, joined by line feeds,
    gives the piece back. *)
Lemma process_text_piece (text : str) (font : Font) (piece : list str) :
  piece <> [] ->
  (forall l, In l piece -> In l (process_text getlength self text font)) ->
  process_text getlength self (join [LF] piece) font = piece.
Proof.
  intros Hne Hsub.
  destruct (process_text_lines Font getlength self text font) as [Hfree _].
  unfold process_text at 1. rewrite split_on_join.
  - apply process_lines_fixed. intros l Hl.
    apply (process_text_fixed text font), Hsub, Hl.
  - exact Hne.
  - rewrite Forall_forall in *. intros l Hl. apply Hfree, Hsub, Hl.
Qed.

(** *** [create_image_from_text] *)

(** What the method prints and draws, in order: the warning with the first
    50 characters of a line that is too wide, and [draw.text((x, y), line)]. *)
Inductive Step :=
| Warn (shown : str)
| Text (x y : Z) (line : str).

(** The image saved: [Image.new] with its size, the steps, the path. *)
Record Image := {
  size : Z * Z;
  steps : list Step;
  saved_as : str
}.

(** [int(self.font_size * self.line_spacing)]. *)
Definition line_height : Z := (font_size self * line_spacing self)%Z.

(** The loop [for line in lines] of [create_image_from_text]. *)
Fixpoint draw_lines (font : Font) (lines : list str) (y : Z) : list Step :=
  match lines with
  | [] => []
  | line :: lines' =>
      let text_width := calculate_text_width getlength line font in
      (if (text_width
           >? px (width self - margin_left self - margin_right self))%Z
       then [Warn (slice_to line 50)] else [])
      ++ Text (margin_left self) y line
         :: draw_lines font lines' (y + line_height)
  end.

(** [create_image_from_text(text, output_path)]; [font] is what
    [ImageFont.truetype] gave, [None] when it raised (then a message is
    printed and nothing is saved). *)
Definition create_image_from_text (text output_path : str)
    (font : option Font) : option Image :=
  match font with
  | None => None
  | Some font =>
      let lines := process_text getlength self text font in
      let text_height := (Z.of_nat (length lines) * line_height)%Z in
      let height := (margin_top self + text_height + margin_bottom self)%Z in
      let height := Z.max height 800 in
      Some {| size := (width self, height);
              steps := draw_lines font lines (margin_top self);
              saved_as := output_path |}
  end.

(** The lines drawn, with their positions; the lines alone; the warnings. *)
Fixpoint texts (steps : list Step) : list (Z * Z * str) :=
  match steps with
  | [] => []
  | Warn _ :: steps' => texts steps'
  | Text x y line :: steps' => (x, y, line) :: texts steps'
  end.

Definition drawn (image : option Image) : list str :=
  match image with
  | Some image => map snd (texts (steps image))
  | None => []
  end.

Lemma texts_app (a b : list Step) : texts (a ++ b) = texts a ++ texts b.
Proof.
  induction a as [|[shown|x y line] a IH]; cbn [app texts];
    [reflexivity|exact IH|now rewrite IH].
Qed.

Lemma texts_draw_lines (font : Font) (lines : list str) :
  forall y,
    texts (draw_lines font lines y)
    = map (fun il => (margin_left self,
                      (y + Z.of_nat (fst il) * line_height)%Z, snd il))
        (enumerate 0 lines).
Proof.
  assert (Hshift : forall (ls : list str) y start,
            map (fun il => (margin_left self,
                            (y + line_height
                             + Z.of_nat (fst il) * line_height)%Z, snd il))
              (enumerate start ls)
            = map (fun il => (margin_left self,
                              (y + Z.of_nat (fst il) * line_height)%Z,
                              snd il))
                (enumerate (S start) ls)).
  { induction ls as [|l ls IH]; intros y start; [reflexivity|].
    cbn [enumerate map fst snd]. rewrite IH. f_equal. f_equal. f_equal. lia. }
  induction lines as [|line lines IH]; intros y; [reflexivity|].
  cbn [draw_lines enumerate map fst snd]. rewrite texts_app.
  destruct (_ >? _)%Z; cbn [texts app]; rewrite IH, Hshift;
    cbn [Z.of_nat]; rewrite Z.mul_0_l, Z.add_0_r; reflexivity.
Qed.

(** A warning is about a line that is drawn and measures more than the
    available width. *)
Lemma draw_lines_warn (font : Font) (lines : list str) (shown : str) :
  forall y,
    In (Warn shown) (draw_lines font lines y) ->
    exists line,
      In line lines /\ shown = slice_to line 50
      /\ (px (width self - margin_left self - margin_right self)
          < calculate_text_width getlength line font)%Z.
Proof.
  induction lines as [|line lines IH]; intros y; [intros []|].
  cbn [draw_lines]. intros Hin. apply in_app_or in Hin.
  destruct Hin as [Hin|[Hin|Hin]].
  - destruct (Z.gtb_spec (calculate_text_width getlength line font)
                (px (width self - margin_left self - margin_right self)))
      as [Hgt|_]; [|destruct Hin].
    destruct Hin as [Hin|[]]. injection Hin as <-.
    exists line. split; [now left|]. split; [reflexivity|lia].
  - discriminate.
  - destruct (IH _ Hin) as (l & Hl & Hrest). exists l. split; [now right|].
    exact Hrest.
Qed.

End Images.

Arguments fills {Font} getlength font available_width _ _ _.
Arguments tight {Font} getlength font available_width g.
Arguments draw_lines {Font} getlength self font lines y.
Arguments create_image_from_text {Font} getlength self text output_path font.

(** *** Page images *)

Lemma drawn_create_image {Font} (getlength : Font -> str -> Z)
    (self : NovelImageConverter) (text output_path : str) (font : Font) :
  drawn (create_image_from_text getlength self text output_path (Some font))
  = process_text getlength self text font.
Proof.
  unfold drawn, create_image_from_text. cbn [steps].
  rewrite (texts_draw_lines Font getlength self), map_map. cbn [snd].
  apply enumerate_snd.
Qed.

Lemma chunk_member {A} (k : nat) (l : list A) (piece : list A) (x : A) :
  1 <= k -> In piece (chunk k l) -> In x piece -> In x l.
Proof.
  intros Hk Hpiece Hx.
  rewrite <- (chunks_concat k (length l) l Hk (le_n _)).
  apply in_concat. exists piece. split; assumption.
Qed.

(** The pages of a wrapped text, wrapped again one by one, are the pieces of
    the wrapped text. *)
Lemma pages_rewrap {Font} (getlength : Font -> str -> Z)
    (self : NovelImageConverter) (content : str) (font : Font) :
  (1 <= lines_per_page self)%Z ->
  map (fun page => process_text getlength self page font)
    (split_into_pages self (process_text getlength self content font))
  = chunk (page_size self) (process_text getlength self content font).
Proof.
  intros Hroom.
  assert (Hk : 1 <= page_size self) by (unfold page_size; lia).
  destruct (process_text_lines Font getlength self content font)
    as [Hfree _].
  pose proof (chunk_groups self Hroom _ Hfree) as Hgroups.
  rewrite split_into_pages_chunk by exact Hroom. rewrite map_map.
  rewrite <- (map_id (chunk _ _)) at 2. apply map_ext_in.
  intros piece Hpiece. rewrite Forall_forall in Hgroups.
  apply (process_text_piece Font getlength self content font).
  - now apply Hgroups.
  - intros l Hl. now apply (chunk_member (page_size self) _ piece).
Qed.

(** The calls [process_file] makes, as the images they save. *)
Definition page_images {Font} (getlength : Font -> str -> Z)
    (os_path_join : str -> str -> str) (os_path_stem : str -> str)
    (self : NovelImageConverter) (txt_path images_folder content : str)
    (font : Font) : list (option Image) :=
  map (fun call =>
         create_image_from_text getlength self (snd call) (fst call)
           (Some font))
    (process_file getlength os_path_join os_path_stem self txt_path
       images_folder (Some content) font).

Lemma page_images_drawn {Font} (getlength : Font -> str -> Z)
    (os_path_join : str -> str -> str) (os_path_stem : str -> str)
    (self : NovelImageConverter) (txt_path images_folder content : str)
    (font : Font) :
  (1 <= lines_per_page self)%Z ->
  map drawn
    (page_images getlength os_path_join os_path_stem self txt_path
       images_folder content font)
  = chunk (page_size self) (process_text getlength self content font).
Proof.
  intros Hroom. unfold page_images, process_file. rewrite !map_map.
  cbn [fst snd].
  rewrite (map_ext _ (fun ip => process_text getlength self (snd ip) font))
    by (intros ip; apply drawn_create_image).
  rewrite <- (map_map snd (fun page => process_text getlength self page font)).
  rewrite enumerate_snd. now apply pages_rewrap.
Qed.

(** X6. Wrapping is idempotent: the wrapped lines of a text, joined by line
    feeds and wrapped again, are the same lines, for every font metric. *)
Theorem process_text_rewrap {Font} (getlength : Font -> str -> Z)
    (self : NovelImageConverter) (text : str) (font : Font) :
  process_text getlength self
    (join [LF] (process_text getlength self text font)) font
  = process_text getlength self text font.
Proof.
  apply (process_text_piece Font getlength self text font).
  - destruct (process_text_lines Font getlength self text font) as [_ Hone].
    destruct (process_text getlength self text font); [simpl in Hone; lia|].
    discriminate.
  - intros l Hl. exact Hl.
Qed.

(** X7. [create_image_from_text] wraps the page text it is given once more,
    and this changes nothing: with a page size of at least one line, the
    images [process_file] has made for a file draw, page by page and line by
    line, the consecutive pieces of [lines_per_page] wrapped lines of the
    file, so that together they show every wrapped line once, in order. *)
Theorem page_images_show_wrapped_lines {Font} (getlength : Font -> str -> Z)
    (os_path_join : str -> str -> str) (os_path_stem : str -> str)
    (self : NovelImageConverter) (txt_path images_folder content : str)
    (font : Font) :
  (1 <= lines_per_page self)%Z ->
  let images :=
    page_images getlength os_path_join os_path_stem self txt_path
      images_folder content font in
  let lines := process_text getlength self content font in
  map drawn images = chunk (page_size self) lines
  /\ concat (map drawn images) = lines
  /\ Forall (fun image => image <> None) images.
Proof.
  intros Hroom images lines.
  assert (Hk : 1 <= page_size self) by (unfold page_size; lia).
  pose proof (page_images_drawn getlength os_path_join os_path_stem self
                txt_path images_folder content font Hroom) as Hdrawn.
  fold images lines in Hdrawn.
  split; [exact Hdrawn|]. split.
  - rewrite Hdrawn. now apply chunks_concat.
  - unfold images, page_images. apply Forall_map, Forall_forall.
    intros call _. discriminate.
Qed.

Lemma page_images_show_wrapped_lines_witness :
  map drawn
    (page_images (fixed_pitch 13) (fun d f => d ++ [47%N] ++ f) (fun p => p)
       default_converter (of_string "0007") (of_string "images")
       (of_string "first" ++ [LF; LF] ++ of_string "second") tt)
  = [[of_string "first"; []; of_string "second"]].
Proof.
  refine (proj1
    (page_images_show_wrapped_lines (fixed_pitch 13)
       (fun d f => d ++ [47%N] ++ f) (fun p => p) default_converter
       (of_string "0007") (of_string "images")
       (of_string "first" ++ [LF; LF] ++ of_string "second") tt _)).
  simpl. lia.
Defined.

(** Every piece is a full one but the last, which holds what is left. *)
Lemma sizes_full (k : nat) :
  1 <= k ->
  forall fuel n, n <= fuel ->
    sizes fuel k n
    = repeat k (n / k) ++ (if n mod k =? 0 then [] else [n mod k]).
Proof.
  intros Hk. induction fuel as [|fuel IH]; intros n Hn.
  - assert (n = 0) by lia. subst. cbn [sizes].
    rewrite Nat.div_small, Nat.mod_small by lia. reflexivity.
  - destruct n as [|n].
    + cbn [sizes]. rewrite Nat.div_small, Nat.mod_small by lia. reflexivity.
    + cbn [sizes]. rewrite IH by lia.
      destruct (Nat.le_gt_cases k (S n)) as [Hle|Hlt].
      * rewrite Nat.min_l by exact Hle.
        assert (Hdiv : S n / k = S ((S n - k) / k)).
        { replace (S n) with ((S n - k) + 1 * k) at 1 by lia.
          rewrite Nat.div_add by lia. lia. }
        assert (Hmod : S n mod k = (S n - k) mod k).
        { replace (S n) with ((S n - k) + 1 * k) at 1 by lia.
          now rewrite Nat.Div0.mod_add. }
        rewrite Hdiv, Hmod. reflexivity.
      * rewrite Nat.min_r by lia. replace (S n - k) with 0 by lia.
        rewrite (Nat.div_small 0), (Nat.mod_small 0) by lia.
        rewrite (Nat.div_small (S n)), (Nat.mod_small (S n)) by lia.
        reflexivity.
Qed.

Lemma chunk_bounded {A} (k : nat) (l : list A) :
  1 <= k -> Forall (fun piece => 1 <= length piece <= k) (chunk k l).
Proof.
  intros Hk. rewrite <- (Forall_map (@length A) (fun n => 1 <= n <= k)).
  unfold chunk. rewrite chunks_sizes. now apply sizes_bounds.
Qed.

(** With a page size below one the test [len(current_page) >= lines_per_page]
    always holds. *)
Lemma fill_pages_no_room (self : NovelImageConverter) (lines : list str) :
  (lines_per_page self <= 0)%Z ->
  forall pages line,
    fill_pages self lines pages [line] = pages ++ line :: lines.
Proof.
  intros Hno. induction lines as [|l ls IH]; intros pages line.
  - reflexivity.
  - cbn [fill_pages].
    destruct (Z.geb_spec (Z.of_nat (length [line])) (lines_per_page self))
      as [_|Hlt]; [|simpl in Hlt; lia].
    rewrite IH, <- app_assoc. reflexivity.
Qed.

(** *** Page numbers read back *)

(** [int(s)] for a string of decimal digits. *)
Definition int_of_digits (s : str) : nat :=
  fold_left (fun acc c => 10 * acc + (N.to_nat c - 48)) s 0.

Lemma int_of_digits_snoc (ds : str) (d : char) :
  int_of_digits (ds ++ [d]) = 10 * int_of_digits ds + (N.to_nat d - 48).
Proof. unfold int_of_digits. now rewrite fold_left_app. Qed.

Lemma decimal_digits_value (fuel : nat) :
  forall n acc, n < fuel ->
    exists ds,
      decimal_digits fuel n acc = ds ++ acc /\ int_of_digits ds = n.
Proof.
  induction fuel as [|fuel IH]; intros n acc Hn; [lia|].
  cbn [decimal_digits].
  assert (Hdigit : N.to_nat (48 + N.of_nat (n mod 10)) - 48 = n mod 10)
    by lia.
  destruct (Nat.eqb_spec (n / 10) 0) as [Hz|Hnz].
  - exists [(48 + N.of_nat (n mod 10))%N]. split; [reflexivity|].
    unfold int_of_digits. cbn [fold_left]. rewrite Hdigit.
    pose proof (Nat.div_mod_eq n 10). lia.
  - assert (Hlt : n / 10 < fuel).
    { pose proof (Nat.div_mod_eq n 10).
      pose proof (Nat.mod_upper_bound n 10). lia. }
    destruct (IH (n / 10) ((48 + N.of_nat (n mod 10))%N :: acc) Hlt)
      as (ds & Hrun & Hval).
    exists (ds ++ [(48 + N.of_nat (n mod 10))%N]).
    split; [now rewrite Hrun, <- app_assoc|].
    rewrite int_of_digits_snoc, Hval, Hdigit.
    pose proof (Nat.div_mod_eq n 10). lia.
Qed.

Lemma int_of_digits_zeros (k : nat) (s : str) :
  int_of_digits (repeat 48%N k ++ s) = int_of_digits s.
Proof.
  unfold int_of_digits. rewrite fold_left_app. f_equal.
  induction k as [|k IH]; [reflexivity|]. cbn [repeat fold_left].
  exact IH.
Qed.

Lemma int_of_format_03d (i : nat) : int_of_digits (format_03d i) = i.
Proof.
  unfold format_03d. cbv zeta. rewrite int_of_digits_zeros. unfold decimal.
  destruct (decimal_digits_value (S i) i [] (Nat.lt_succ_diag_r i))
    as (ds & Hrun & Hval).
  rewrite Hrun, app_nil_r. exact Hval.
Qed.

(** *** Lines too wide *)

(** With a font in which a joined sub-line measures no more than its words
    measured each with a space after it, a wrapped line wider than the
    available width holds one word at most. *)
Lemma wide_line_one_word {Font} (getlength : Font -> str -> Z)
    (self : NovelImageConverter) (font : Font) (text line : str) :
  (forall ws, (getlength font (join [SPACE] ws)
               <= spaced_width getlength font ws)%Z) ->
  In line (process_text getlength self text font) ->
  (px (width self - margin_left self - margin_right self)
   < calculate_text_width getlength line font)%Z ->
  length (split_ws line) <= 1.
Proof.
  intros Hjoin Hin Hwide. unfold process_text in Hin.
  rewrite process_lines_flat_map in Hin. cbn [app] in Hin.
  apply in_flat_map in Hin. destruct Hin as (l0 & _ & Hl).
  unfold process_physical_line in Hl.
  destruct (negb (truthy (strip l0))) eqn:Eblank.
  - destruct Hl as [<-|[]].
    rewrite split_ws_spaces; [simpl; lia|].
    apply strip_nil_spaces. destruct (strip l0); [reflexivity|discriminate].
  - set (avail := (width self - margin_left self - margin_right self)%Z)
      in *.
    destruct (process_line_cases Font getlength self l0 font (width self))
      as [[E Hfit]|[E _]]; rewrite E in Hl.
    + destruct Hl as [<-|[]]. fold avail in Hfit.
      destruct Hfit as [->|Hfit]; [simpl; lia|lia].
    + fold avail in Hl. apply in_map_iff in Hl.
      destruct Hl as (g & <- & Hg).
      destruct (pack_groups_partition Font getlength font avail
                  (split_ws l0) [] 0 eq_refl) as [_ Hall]; [simpl; lia|].
      pose proof (pack_groups_words Font getlength font avail (split_ws l0)
                    is_word [] 0 (Forall_nil _) (split_ws_words l0)) as Hgw.
      rewrite Forall_forall in Hall, Hgw.
      rewrite split_ws_join by now apply Hgw.
      destruct (Hall g Hg) as [_ Hacc]. specialize (Hjoin g).
      unfold calculate_text_width in Hwide.
      destruct (Nat.le_gt_cases (length g) 1) as [Hle|Hgt]; [exact Hle|].
      specialize (Hacc Hgt). lia.
Qed.

Lemma enumerate_index {A} (xs : list A) :
  forall start i x,
    In (i, x) (enumerate start xs) -> start <= i < start + length xs.
Proof.
  induction xs as [|y xs IH]; intros start i x; [intros []|].
  cbn [enumerate length]. intros [H|H].
  - injection H as <- _. lia.
  - apply IH in H. lia.
Qed.

Lemma enumerate_member {A} (xs : list A) (start : nat) (ix : nat * A) :
  In ix (enumerate start xs) -> In (snd ix) xs.
Proof.
  intros H. rewrite <- (enumerate_snd xs start). now apply in_map.
Qed.

(** The image of a text: its size, and where its lines are drawn. *)
Lemma create_image_geometry {Font} (getlength : Font -> str -> Z)
    (self : NovelImageConverter) (text output_path : str) (font : Font) :
  (0 <= line_height self)%Z ->
  let lines := process_text getlength self text font in
  exists page,
    create_image_from_text getlength self text output_path (Some font)
    = Some page
    /\ size page
       = (width self,
          Z.max (margin_top self + Z.of_nat (length lines) * line_height self
                 + margin_bottom self) 800)
    /\ texts (steps page)
       = map (fun il =>
                (margin_left self,
                 (margin_top self + Z.of_nat (fst il) * line_height self)%Z,
                 snd il))
           (enumerate 0 lines)
    /\ Forall (fun xyl =>
                 (snd (fst xyl) + line_height self
                  <= snd (size page) - margin_bottom self)%Z)
         (texts (steps page)).
Proof.
  intros Hheight lines. unfold create_image_from_text. fold lines.
  eexists. split; [reflexivity|]. cbn [size steps snd].
  split; [reflexivity|].
  rewrite (texts_draw_lines Font getlength self). split; [reflexivity|].
  apply Forall_map, Forall_forall. intros [i l] Hil. cbn [fst snd].
  apply enumerate_index in Hil. nia.
Qed.

(** X8. With a page size of at least one line and a line height that is
    not negative, every image [process_file] makes for a page has the width
    of the converter and a height of at least 800 pixels and at most the
    height of a full page; each of its lines is drawn at the left margin, one
    line height below the line before, the first at the top margin, and none
    reaches into the bottom margin. *)
Theorem page_images_hold_their_lines {Font} (getlength : Font -> str -> Z)
    (os_path_join : str -> str -> str) (os_path_stem : str -> str)
    (self : NovelImageConverter) (txt_path images_folder content : str)
    (font : Font) :
  (1 <= lines_per_page self)%Z -> (0 <= line_height self)%Z ->
  Forall (fun image =>
            exists page,
              image = Some page
              /\ fst (size page) = width self
              /\ (800 <= snd (size page)
                  <= Z.max (margin_top self
                            + lines_per_page self * line_height self
                            + margin_bottom self) 800)%Z
              /\ texts (steps page)
                 = map (fun il =>
                          (margin_left self,
                           (margin_top self
                            + Z.of_nat (fst il) * line_height self)%Z,
                           snd il))
                     (enumerate 0 (map snd (texts (steps page))))
              /\ Forall (fun xyl =>
                           (snd (fst xyl) + line_height self
                            <= snd (size page) - margin_bottom self)%Z)
                   (texts (steps page)))
    (page_images getlength os_path_join os_path_stem self txt_path
       images_folder content font).
Proof.
  intros Hroom Hheight.
  assert (Hk : 1 <= page_size self) by (unfold page_size; lia).
  destruct (process_text_lines Font getlength self content font)
    as [Hfree _].
  pose proof (chunk_groups self Hroom _ Hfree) as Hgroups.
  pose proof (chunk_bounded (page_size self)
                (process_text getlength self content font) Hk) as Hsizes.
  rewrite Forall_forall in Hgroups, Hsizes.
  apply Forall_forall. intros image Himage.
  unfold page_images, process_file in Himage.
  rewrite map_map in Himage. cbn [fst snd] in Himage.
  apply in_map_iff in Himage. destruct Himage as (ip & <- & Hip).
  apply enumerate_member in Hip.
  rewrite split_into_pages_chunk in Hip by exact Hroom.
  apply in_map_iff in Hip. destruct Hip as (piece & Hpage & Hpiece).
  rewrite <- Hpage.
  assert (Hlines : process_text getlength self (join [LF] piece) font
                   = piece).
  { apply (process_text_piece Font getlength self content font).
    - now apply Hgroups.
    - intros l Hl. now apply (chunk_member (page_size self) _ piece). }
  destruct (create_image_geometry getlength self (join [LF] piece)
              (os_path_join images_folder
                 (image_name (os_path_stem txt_path) (fst ip))) font Hheight)
    as (page & Hcreate & Hsize & Htexts & Hinside).
  rewrite Hlines in Hsize, Htexts.
  exists page. split; [exact Hcreate|]. rewrite Hsize. cbn [fst snd].
  split; [reflexivity|]. split; [|split; [|now rewrite Hsize in Hinside]].
  - specialize (Hsizes piece Hpiece). unfold page_size in Hsizes. nia.
  - rewrite Htexts at 1. rewrite Htexts, map_map. cbn [snd].
    now rewrite enumerate_snd.
Qed.

Lemma page_images_hold_their_lines_witness :
  Forall (fun image =>
            exists page,
              image = Some page
              /\ fst (size page) = 1500%Z
              /\ (800 <= snd (size page) <= 1450)%Z
              /\ texts (steps page)
                 = map (fun il =>
                          (100%Z, (100 + Z.of_nat (fst il) * 48)%Z, snd il))
                     (enumerate 0 (map snd (texts (steps page))))
              /\ Forall (fun xyl =>
                           (snd (fst xyl) + 48 <= snd (size page) - 150)%Z)
                   (texts (steps page)))
    (page_images (fixed_pitch 13) (fun d f => d ++ [47%N] ++ f) (fun p => p)
       default_converter (of_string "0007") (of_string "images")
       (of_string "first" ++ [LF; LF] ++ of_string "second") tt).
Proof.
  apply (page_images_hold_their_lines (fixed_pitch 13)
           (fun d f => d ++ [47%N] ++ f) (fun p => p) default_converter
           (of_string "0007") (of_string "images")
           (of_string "first" ++ [LF; LF] ++ of_string "second") tt).
  - simpl. lia.
  - vm_compute. discriminate.
Defined.

(** X9. When a joined sub-line measures no more than its words measured each
    with a space after it, the warning about a line that is too wide is
    printed, while the pages of a file are drawn, only for a line of one word
    at most (a word wider than the page, or a line of white space): what is
    shown is the start of a line of that page that measures more than the
    available width. *)
Theorem wide_line_warning_single_word {Font} (getlength : Font -> str -> Z)
    (os_path_join : str -> str -> str) (os_path_stem : str -> str)
    (self : NovelImageConverter) (txt_path images_folder content : str)
    (font : Font) :
  (1 <= lines_per_page self)%Z ->
  (forall ws, (getlength font (join [SPACE] ws)
               <= spaced_width getlength font ws)%Z) ->
  forall page shown,
    In (Some page)
      (page_images getlength os_path_join os_path_stem self txt_path
         images_folder content font) ->
    In (Warn shown) (steps page) ->
    exists line,
      In line (map snd (texts (steps page)))
      /\ shown = slice_to line 50
      /\ (px (width self - margin_left self - margin_right self)
          < calculate_text_width getlength line font)%Z
      /\ length (split_ws line) <= 1.
Proof.
  intros Hroom Hjoin page shown Himage Hwarn.
  assert (Hk : 1 <= page_size self) by (unfold page_size; lia).
  destruct (process_text_lines Font getlength self content font)
    as [Hfree _].
  pose proof (chunk_groups self Hroom _ Hfree) as Hgroups.
  rewrite Forall_forall in Hgroups.
  unfold page_images, process_file in Himage.
  rewrite map_map in Himage. cbn [fst snd] in Himage.
  apply in_map_iff in Himage. destruct Himage as (ip & Hcreate & Hip).
  apply enumerate_member in Hip.
  rewrite split_into_pages_chunk in Hip by exact Hroom.
  apply in_map_iff in Hip. destruct Hip as (piece & Hpage & Hpiece).
  rewrite <- Hpage in Hcreate.
  assert (Hlines : process_text getlength self (join [LF] piece) font
                   = piece).
  { apply (process_text_piece Font getlength self content font).
    - now apply Hgroups.
    - intros l Hl. now apply (chunk_member (page_size self) _ piece). }
  unfold create_image_from_text in Hcreate. rewrite Hlines in Hcreate.
  injection Hcreate as <-. cbn [steps] in *.
  destruct (draw_lines_warn Font getlength self font piece shown _ Hwarn)
    as (line & Hline & Hshown & Hwide).
  exists line. split; [|split; [exact Hshown|split; [exact Hwide|]]].
  - rewrite (texts_draw_lines Font getlength self), map_map. cbn [snd].
    now rewrite enumerate_snd.
  - apply (wide_line_one_word getlength self font content line Hjoin);
      [|exact Hwide].
    now apply (chunk_member (page_size self) _ piece).
Qed.

Lemma wide_line_warning_single_word_witness :
  exists line,
    In line [of_string "a"; repeat 65%N 120; of_string "b"]
    /\ repeat 65%N 50 = slice_to line 50
    /\ (px 1300 < fixed_pitch 13 tt line)%Z
    /\ length (split_ws line) <= 1.
Proof.
  refine (wide_line_warning_single_word (fixed_pitch 13)
            (fun d f => d ++ [47%N] ++ f) (fun p => p) default_converter
            (of_string "0007") (of_string "images")
            (of_string "a " ++ repeat 65%N 120 ++ of_string " b") tt _ _
            {| size := (1500, 800)%Z;
               steps := [Text 100 100 (of_string "a");
                         Warn (repeat 65%N 50);
                         Text 100 148 (repeat 65%N 120);
                         Text 100 196 (of_string "b")];
               saved_as := of_string "images/0007_p001.jpg" |}
            (repeat 65%N 50) _ _).
  - simpl. lia.
  - intros ws. apply fixed_pitch_join. lia.
  - vm_compute. left. reflexivity.
  - simpl. tauto.
Defined.

(** X10. The page number in an image name reads back as the number of the
    page, so the images of two different pages of a file never share a
    name. *)
Theorem image_names_distinct (basename : str) (i : nat) :
  int_of_digits (format_03d i) = i
  /\ forall j, image_name basename i = image_name basename j -> i = j.
Proof.
  split; [apply int_of_format_03d|].
  intros j H. unfold image_name in H.
  apply app_inv_head in H. apply app_inv_head in H.
  apply app_inv_tail in H.
  rewrite <- (int_of_format_03d i), <- (int_of_format_03d j). now rewrite H.
Qed.

(** X11. With a page size of at least one line, every page but the last
    holds exactly [lines_per_page] lines, and the last one holds what
    remains: for [n] wrapped lines there are [n / lines_per_page] full pages,
    followed by one page of [n mod lines_per_page] lines when that is not
    zero. *)
Theorem pages_full_but_last (self : NovelImageConverter)
    (lines : list str) :
  (1 <= lines_per_page self)%Z ->
  Forall (fun l => ~ In LF l) lines ->
  let k := Z.to_nat (lines_per_page self) in
  let n := length lines in
  map (fun page => length (split_on LF page)) (split_into_pages self lines)
  = repeat k (n / k) ++ (if n mod k =? 0 then [] else [n mod k]).
Proof.
  intros Hroom Hfree k n.
  assert (Hk : 1 <= k) by (unfold k; lia).
  rewrite <- (map_map (split_on LF) (@length str)).
  rewrite split_into_pages_lines by assumption.
  unfold chunk. rewrite chunks_sizes. fold k n.
  now apply sizes_full.
Qed.

Lemma pages_full_but_last_witness :
  map (fun page => length (split_on LF page))
    (split_into_pages default_converter (repeat (of_string "line") 60))
  = [25; 25; 10].
Proof.
  apply (pages_full_but_last default_converter
           (repeat (of_string "line") 60)).
  - simpl. lia.
  - apply LF_free_sound. reflexivity.
Defined.

(** X12. With a page size below one the paginator does not fail: it puts
    every line on a page of its own, after a first page that is empty. *)
Theorem split_into_pages_without_room (self : NovelImageConverter)
    (line : str) (lines : list str) :
  (lines_per_page self <= 0)%Z ->
  split_into_pages self (line :: lines) = [] :: line :: lines.
Proof.
  intros Hno. unfold split_into_pages. cbn [fill_pages].
  destruct (Z.geb_spec (Z.of_nat (@length str [])) (lines_per_page self))
    as [_|Hlt]; [|simpl in Hlt; lia].
  now rewrite fill_pages_no_room.
Qed.

Lemma split_into_pages_without_room_witness :
  split_into_pages
    {| font_size := 24; line_spacing := 2; margin_left := 100;
       margin_right := 100; margin_top := 100; margin_bottom := 150;
       width := 1500; lines_per_page := 0 |}
    [of_string "one"; of_string "two"]
  = [[]; of_string "one"; of_string "two"].
Proof.
  apply (split_into_pages_without_room
           {| font_size := 24; line_spacing := 2; margin_left := 100;
              margin_right := 100; margin_top := 100; margin_bottom := 150;
              width := 1500; lines_per_page := 0 |}
           (of_string "one") [of_string "two"]).
  simpl. lia.
Defined.

End Converter.

(** ** CloudflareBypass: the challenge navigator *)
Module Bypass.
Import Py.

(** How a call ends. *)
Inductive outcome (A : Type) : Type :=
| Ok (a : A)
| Raise
| OutOfFuel.

Arguments Ok {A} a.
Arguments Raise {A}.
Arguments OutOfFuel {A}.

(** Scripts handed to [execute_script], and CDP commands. *)
Inductive Script :=
| ScrollTo (pos : Z)
| LocalStorageClear
| SessionStorageClear
| BrowserInfo (field : nat).

Inductive CdpCmd :=
| SetBlockedURLs
| AddScriptOnNewDocument.

Inductive Level := Debug | Error | Feedback.

(** The log messages of the navigator, by what they say. *)
Inductive Msg :=
| CreateDriverStart
| CreateDriverDone
| ResourcesBlocked
| ResourceBlockFailed
| CreateDriverFailed
| StealthStart
| StealthDone
| StealthFailed
| BrowserInfoCollected
| BrowserInfoFailed
| EmulateStart
| EmulateDone
| EmulateFailed
| TurnstileStart
| TurnstileIframe (src : str)
| TurnstileStillThere
| TurnstilePassed
| TurnstileFailed
| JsChallengeStart
| JsChallengePassed
| PageLoadStart (timeout : Z)
| ChallengeDetected
| ChallengeCleared
| PageLoaded
| PageLoadTimeout
| BrowserInit
| VisitAttempt (url : str) (attempt : Z) (max_retries : Z)
| BypassOk
| BypassFailed (attempt : Z) (max_retries : Z)
| VisitError (attempt : Z).

(** [needle in hay] for strings. *)
Fixpoint starts_with (needle hay : str) : bool :=
  match needle, hay with
  | [], _ => true
  | _ :: _, [] => false
  | a :: needle', b :: hay' => N.eqb a b && starts_with needle' hay'
  end.

Fixpoint contains (needle hay : str) : bool :=
  starts_with needle hay
  || match hay with
     | [] => false
     | _ :: hay' => contains needle hay'
     end.

(** The interstitial phrases; the two Korean ones by code point. *)
Definition phrase_human_check : str :=
  [49324; 46988; 51064; 51648; 32; 54869; 51064]%N.

Definition phrase_security_review : str :=
  [48372; 50504; 51012; 32; 44160; 53664]%N.

Definition turnstile_phrases : list str :=
  [of_string "checking your browser"; phrase_human_check;
   phrase_security_review; of_string "security check";
   of_string "just a moment"].

Definition challenge_phrases : list str :=
  turnstile_phrases ++ [of_string "please wait"].

Definition any_in (phrases : list str) (page_source : str) : bool :=
  existsb (fun w => contains w page_source) phrases.

Section Navigator.

(** Everything outside the Python object: the browser, the site, the
    network. [Frame] is the type of iframe element handles. *)
Variable World : Type.
Variable Frame : Type.

(** The driver calls the navigator makes. *)
Inductive Call :=
| NewChrome
| ExecuteCdpCmd (c : CdpCmd)
| Get (url : str)
| PageSource
| ExecuteScript (s : Script)
| DeleteAllCookies
| FindIframes
| GetAttributeSrc (f : Frame)
| SwitchToFrame (f : Frame)
| WaitCheckboxClickable
| ClickCheckbox
| SwitchToDefaultContent
| WaitForBody
| Quit.

(** What a run leaves behind: each driver call with whether it returned
    (rather than raised), and each log record. *)
Inductive Event :=
| Called (c : Call) (ok : bool)
| Log (l : Level) (m : Msg).

(** The capabilities of the browser session. A call takes the world to a new
    world, takes some milliseconds, and returns or raises ([false], [None]).
    Sleeping does not raise. *)
Variable driver_call : Call -> World -> bool * N * World.
Variable driver_page_source : World -> option str * N * World.
Variable driver_find_iframes : World -> option (list Frame) * N * World.
Variable driver_get_src : Frame -> World -> option (option str) * N * World.
(** The world after sleeping, and by how much the sleep overran. *)
Variable sleep_through : N -> World -> N * World.
(** [str.lower]. *)
Variable lower : str -> str.

(** The state a call runs in: the world, the clock in milliseconds, and
    whether [self.driver] is set. *)
Record St := { world : World; clock : N; driver : bool }.

Definition M (A : Type) : Type := St -> outcome A * St * list Event.

Definition ret {A} (a : A) : M A := fun st => (Ok a, st, []).

Definition raise {A} : M A := fun st => (Raise, st, []).

Definition out_of_fuel {A} : M A := fun st => (OutOfFuel, st, []).

Definition bind {A B} (m : M A) (k : A -> M B) : M B :=
  fun st =>
    match m st with
    | (Ok a, st1, e1) =>
        match k a st1 with
        | (r, st2, e2) => (r, st2, e1 ++ e2)
        end
    | (Raise, st1, e1) => (Raise, st1, e1)
    | (OutOfFuel, st1, e1) => (OutOfFuel, st1, e1)
    end.

(** [try: body except: handler]. *)
Definition try_except {A} (body handler : M A) : M A :=
  fun st =>
    match body st with
    | (Raise, st1, e1) =>
        match handler st1 with
        | (r, st2, e2) => (r, st2, e1 ++ e2)
        end
    | other => other
    end.

Local Notation "x <- m ;; k" := (bind m (fun x => k))
  (at level 61, m at next level, right associativity).
Local Notation "m ;; k" := (bind m (fun _ => k))
  (at level 61, right associativity).

Definition advance (st : St) (w : World) (elapsed : N) : St :=
  {| world := w; clock := clock st + elapsed; driver := driver st |}.

(** A driver call without a result. *)
Definition call (c : Call) : M unit :=
  fun st =>
    match driver_call c (world st) with
    | (ok, elapsed, w) =>
        (if ok then Ok tt else Raise, advance st w elapsed, [Called c ok])
    end.

Definition read {A} (c : Call) (prim : World -> option A * N * World)
    : M A :=
  fun st =>
    match prim (world st) with
    | (Some a, elapsed, w) => (Ok a, advance st w elapsed, [Called c true])
    | (None, elapsed, w) => (Raise, advance st w elapsed, [Called c false])
    end.

Definition page_source : M str := read PageSource driver_page_source.

Definition find_iframes : M (list Frame) :=
  read FindIframes driver_find_iframes.

Definition get_attribute_src (f : Frame) : M (option str) :=
  read (GetAttributeSrc f) (driver_get_src f).

(** [time.sleep] and [time.time], in milliseconds. *)
Definition sleep (ms : N) : M unit :=
  fun st =>
    match sleep_through ms (world st) with
    | (overrun, w) => (Ok tt, advance st w (ms + overrun), [])
    end.

Definition time_time : M N := fun st => (Ok (clock st), st, []).

Definition log (l : Level) (m : Msg) : M unit :=
  fun st => (Ok tt, st, [Log l m]).

Definition get_driver : M bool := fun st => (Ok (driver st), st, []).

Definition set_driver (d : bool) : M unit :=
  fun st =>
    (Ok tt, {| world := world st; clock := clock st; driver := d |}, []).

Fixpoint for_each {A} (xs : list A) (body : A -> M unit) : M unit :=
  match xs with
  | [] => ret tt
  | x :: xs' => body x ;; for_each xs' body
  end.

(** *** The methods of [CloudflareBypass] *)

Definition _create_driver : M unit :=
  log Debug CreateDriverStart ;;
  try_except
    (call NewChrome ;;
     log Debug CreateDriverDone ;;
     try_except
       (call (ExecuteCdpCmd SetBlockedURLs) ;; log Debug ResourcesBlocked)
       (log Debug ResourceBlockFailed))
    (log Error CreateDriverFailed ;; raise).

Definition _inject_stealth_scripts : M unit :=
  log Debug StealthStart ;;
  try_except
    (call (ExecuteCdpCmd AddScriptOnNewDocument) ;; log Debug StealthDone)
    (log Error StealthFailed ;; raise).

(** [DebugLogger.log_browser_info]: eight scripts, any failure logged. *)
Definition log_browser_info : M unit :=
  try_except
    (for_each (seq 0 8) (fun field => call (ExecuteScript (BrowserInfo field)))
     ;; log Debug BrowserInfoCollected)
    (log Error BrowserInfoFailed).

Definition emulate_human_behavior : M unit :=
  try_except
    (log Debug EmulateStart ;;
     for_each [200; 500]%Z
       (fun pos => call (ExecuteScript (ScrollTo pos)) ;; sleep 500) ;;
     log Debug EmulateDone)
    (log Error EmulateFailed).

Definition is_challenge_frame (src : str) : bool :=
  contains (of_string "turnstile") (lower src)
  || contains (of_string "challenge") (lower src)
  || contains (of_string "cloudflare") (lower src).

(** The loop over the iframes of [handle_turnstile]; the result is
    [found_iframe]. *)
Fixpoint scan_iframes (iframes : list Frame) : M bool :=
  match iframes with
  | [] => ret false
  | iframe :: iframes' =>
      attr <- get_attribute_src iframe ;;
      let src := match attr with Some s => s | None => [] end in
      if is_challenge_frame src then
        log Debug (TurnstileIframe src) ;;
        call (SwitchToFrame iframe) ;;
        try_except
          (call WaitCheckboxClickable ;; call ClickCheckbox ;; sleep 2000)
          (ret tt) ;;
        call SwitchToDefaultContent ;;
        ret true
      else scan_iframes iframes'
  end.

(** [handle_turnstile] after its first sleep. *)
Definition turnstile_body : M bool :=
  iframes <- find_iframes ;;
  found_iframe <- scan_iframes iframes ;;
  if negb found_iframe then ret false
  else
    sleep 1000 ;;
    ps <- page_source ;;
    if any_in turnstile_phrases (lower ps)
    then log Debug TurnstileStillThere ;; ret false
    else log Debug TurnstilePassed ;; ret true.

Definition handle_turnstile : M bool :=
  try_except
    (log Debug TurnstileStart ;; sleep 2000 ;; turnstile_body)
    (log Error TurnstileFailed ;; ret false).

(** The polling loop of [_wait_for_js_challenge]; [fuel] bounds the tests of
    its condition. *)
Fixpoint js_challenge_loop (fuel : nat) (start : N) (timeout : Z) : M bool :=
  match fuel with
  | O => out_of_fuel
  | S fuel' =>
      now <- time_time ;;
      if (Z.of_N now - Z.of_N start <? timeout)%Z then
        ps <- page_source ;;
        if negb (any_in challenge_phrases (lower ps))
        then log Debug JsChallengePassed ;; ret true
        else sleep 1000 ;; js_challenge_loop fuel' start timeout
      else ret false
  end.

Definition _wait_for_js_challenge (fuel : nat) (timeout : Z) : M bool :=
  log Debug JsChallengeStart ;;
  start <- time_time ;;
  js_challenge_loop fuel start timeout.

Definition verify_page_loaded : M bool :=
  try_except (call WaitForBody ;; ret true) (ret false).

(** The polling loop of [_wait_for_page_load]. *)
Fixpoint page_load_loop (fuel0 fuel : nat) (start_time : N) (timeout : Z)
    : M bool :=
  match fuel with
  | O => out_of_fuel
  | S fuel' =>
      now <- time_time ;;
      if (Z.of_N now - Z.of_N start_time <? timeout)%Z then
        ps <- page_source ;;
        if any_in challenge_phrases (lower ps) then
          log Debug ChallengeDetected ;;
          emulate_human_behavior ;;
          passed <- handle_turnstile ;;
          if passed then
            sleep 1000 ;;
            cleared <- _wait_for_js_challenge fuel0 5000 ;;
            if cleared then
              loaded <- verify_page_loaded ;;
              (if loaded then log Debug ChallengeCleared else ret tt) ;;
              ret true
            else page_load_loop fuel0 fuel' start_time timeout
          else
            sleep 2000 ;;
            page_load_loop fuel0 fuel' start_time timeout
        else
          loaded <- verify_page_loaded ;;
          (if loaded then log Debug PageLoaded else ret tt) ;;
          ret true
      else
        log Debug PageLoadTimeout ;;
        ret false
  end.

Definition _wait_for_page_load (fuel : nat) (timeout : Z) : M bool :=
  log Debug (PageLoadStart timeout) ;;
  start_time <- time_time ;;
  page_load_loop fuel fuel start_time timeout.

(** The block under [if not self.driver] of [visit_page]. *)
Definition ensure_driver : M unit :=
  alive <- get_driver ;;
  if negb alive then
    log Debug BrowserInit ;;
    _create_driver ;;
    set_driver true ;;
    _inject_stealth_scripts ;;
    log_browser_info
  else ret tt.

(** The block under [if attempt < max_retries - 1] after a failed wait. *)
Definition clear_session_state (remaining : bool) : M unit :=
  if remaining then
    call DeleteAllCookies ;;
    call (ExecuteScript LocalStorageClear) ;;
    call (ExecuteScript SessionStorageClear) ;;
    sleep 3000
  else ret tt.

(** The block under [if attempt < max_retries - 1] of the handler. *)
Definition drop_session (remaining : bool) : M unit :=
  if remaining then
    alive <- get_driver ;;
    (if alive then call Quit ;; set_driver false else ret tt) ;;
    sleep 3000
  else ret tt.

(** One pass through the body of the loop of [visit_page]: [true] when the
    pass returns True from [visit_page], [false] when the loop goes on. *)
Definition visit_attempt (fuel : nat) (url : str) (attempt : nat)
    (max_retries : Z) : M bool :=
  let remaining := (Z.of_nat attempt <? max_retries - 1)%Z in
  try_except
    (ensure_driver ;;
     log Debug (VisitAttempt url (Z.of_nat attempt + 1) max_retries) ;;
     call (Get url) ;;
     loaded <- _wait_for_page_load fuel 15000 ;;
     if loaded then
       log Feedback BypassOk ;;
       ret true
     else
       log Feedback (BypassFailed (Z.of_nat attempt + 1) max_retries) ;;
       clear_session_state remaining ;;
       ret false)
    (log Error (VisitError (Z.of_nat attempt + 1)) ;;
     drop_session remaining ;;
     ret false).

(** The loop [for attempt in range(max_retries)] and the final
    [return False]. *)
Fixpoint visit_attempts (fuel : nat) (url : str) (attempts : list nat)
    (max_retries : Z) : M bool :=
  match attempts with
  | [] => ret false
  | attempt :: attempts' =>
      done <- visit_attempt fuel url attempt max_retries ;;
      if done then ret true
      else visit_attempts fuel url attempts' max_retries
  end.

Definition visit_page (fuel : nat) (url : str) (max_retries : Z) : M bool :=
  visit_attempts fuel url (seq 0 (Z.to_nat max_retries)) max_retries.

(** *** Marker events and quiet blocks

    The markers are the events that tell the attempts of a visit apart:
    creating and quitting the browser, navigating, clearing cookies and
    storage, and the feedback and visit-error records. Everything the
    page-load wait does is quiet: it leaves no marker, never turns the clock
    back and does not touch [self.driver]. *)
Definition is_marker (e : Event) : bool :=
  match e with
  | Called NewChrome _ => true
  | Called (Get _) _ => true
  | Called DeleteAllCookies _ => true
  | Called (ExecuteScript LocalStorageClear) _ => true
  | Called (ExecuteScript SessionStorageClear) _ => true
  | Called Quit _ => true
  | Log Feedback _ => true
  | Log Error (VisitError _) => true
  | _ => false
  end.

Definition markers (evs : list Event) : list Event := filter is_marker evs.

(** [ends] says whether the block is also known to end: a block without a
    polling loop never runs out of fuel. *)
Definition quiet_with (ends : bool) {A} (m : M A) : Prop :=
  forall st r st' evs, m st = (r, st', evs) ->
    markers evs = [] /\ (clock st <= clock st')%N /\ driver st' = driver st
    /\ (ends = true -> r <> OutOfFuel).

Lemma markers_app (a b : list Event) :
  markers (a ++ b) = markers a ++ markers b.
Proof. apply filter_app. Qed.

Lemma quiet_ret (ends : bool) {A} (a : A) : quiet_with ends (ret a).
Proof.
  intros st r st' evs H. inversion H; subst.
  repeat split; [lia|discriminate].
Qed.

Lemma quiet_raise (ends : bool) {A} : quiet_with ends (@raise A).
Proof.
  intros st r st' evs H. inversion H; subst.
  repeat split; [lia|discriminate].
Qed.

Lemma quiet_out_of_fuel {A} : quiet_with false (@out_of_fuel A).
Proof.
  intros st r st' evs H. inversion H; subst.
  repeat split; [lia|discriminate].
Qed.

Lemma quiet_weaken {A} (m : M A) : quiet_with true m -> quiet_with false m.
Proof.
  intros Hm st r st' evs H. destruct (Hm _ _ _ _ H) as (H1 & H2 & H3 & _).
  repeat split; [assumption..|discriminate].
Qed.

Lemma quiet_bind (ends : bool) {A B} (m : M A) (k : A -> M B) :
  quiet_with ends m -> (forall a, quiet_with ends (k a)) ->
  quiet_with ends (bind m k).
Proof.
  intros Hm Hk st r st' evs H. unfold bind in H.
  destruct (m st) as [[r1 s1] e1] eqn:E1.
  destruct (Hm _ _ _ _ E1) as (M1 & C1 & D1 & T1).
  destruct r1 as [a| |].
  - destruct (k a s1) as [[r2 s2] e2] eqn:E2.
    destruct (Hk a _ _ _ _ E2) as (M2 & C2 & D2 & T2).
    inversion H; subst. rewrite markers_app, M1, M2.
    repeat split; [lia|congruence|assumption].
  - inversion H; subst. repeat split; [assumption..|discriminate].
  - inversion H; subst. split; [|split; [|split]]; try assumption.
    intros Hends. exfalso. now apply (T1 Hends).
Qed.

Lemma quiet_try (ends : bool) {A} (body handler : M A) :
  quiet_with ends body -> quiet_with ends handler ->
  quiet_with ends (try_except body handler).
Proof.
  intros Hb Hh st r st' evs H. unfold try_except in H.
  destruct (body st) as [[r1 s1] e1] eqn:E1.
  destruct (Hb _ _ _ _ E1) as (M1 & C1 & D1 & T1).
  destruct r1 as [a| |].
  - inversion H; subst. split; [|split; [|split]]; assumption.
  - destruct (handler s1) as [[r2 s2] e2] eqn:E2.
    destruct (Hh _ _ _ _ E2) as (M2 & C2 & D2 & T2).
    inversion H; subst. rewrite markers_app, M1, M2.
    repeat split; [lia|congruence|assumption].
  - inversion H; subst. split; [|split; [|split]]; assumption.
Qed.

Lemma quiet_call (ends : bool) (c : Call) :
  (forall ok, is_marker (Called c ok) = false) -> quiet_with ends (call c).
Proof.
  intros Hc st r st' evs H. unfold call in H.
  destruct (driver_call c (world st)) as [[ok dt] w].
  inversion H; subst. unfold markers. cbn [filter]. rewrite Hc.
  repeat split; [simpl; lia|destruct ok; discriminate].
Qed.

Lemma quiet_read (ends : bool) {A} (c : Call)
    (prim : World -> option A * N * World) :
  (forall ok, is_marker (Called c ok) = false) ->
  quiet_with ends (read c prim).
Proof.
  intros Hc st r st' evs H. unfold read in H.
  destruct (prim (world st)) as [[[a|] dt] w]; inversion H; subst;
    unfold markers; cbn [filter]; rewrite Hc;
    (repeat split; [simpl; lia|discriminate]).
Qed.

Lemma quiet_sleep (ends : bool) (ms : N) : quiet_with ends (sleep ms).
Proof.
  intros st r st' evs H. unfold sleep in H.
  destruct (sleep_through ms (world st)) as [ov w].
  inversion H; subst. repeat split; [simpl; lia|discriminate].
Qed.

Lemma quiet_time (ends : bool) : quiet_with ends time_time.
Proof.
  intros st r st' evs H. inversion H; subst.
  repeat split; [lia|discriminate].
Qed.

Lemma quiet_log (ends : bool) (l : Level) (m : Msg) :
  is_marker (Log l m) = false -> quiet_with ends (log l m).
Proof.
  intros Hm st r st' evs H. inversion H; subst.
  unfold markers. cbn [filter]. rewrite Hm.
  repeat split; [lia|discriminate].
Qed.

Lemma quiet_for_each (ends : bool) {A} (xs : list A) (body : A -> M unit) :
  (forall x, quiet_with ends (body x)) -> quiet_with ends (for_each xs body).
Proof.
  intros Hb. induction xs as [|x xs IH]; cbn [for_each].
  - apply quiet_ret.
  - apply quiet_bind; [apply Hb|intros _; exact IH].
Qed.

Ltac quiet_step :=
  first
    [ apply quiet_ret
    | apply quiet_raise
    | apply quiet_sleep
    | apply quiet_time
    | apply quiet_log; reflexivity
    | apply quiet_call; intros ?; reflexivity
    | apply quiet_read; intros ?; reflexivity
    | apply quiet_for_each; intros ?
    | apply quiet_try
    | apply quiet_bind; [|intros ?]
    | match goal with
      | |- quiet_with _ (if ?b then _ else _) => destruct b
      | |- quiet_with _ (match ?x with _ => _ end) => destruct x
      end ].

Ltac quiet := repeat quiet_step.

Lemma quiet_emulate (ends : bool) : quiet_with ends emulate_human_behavior.
Proof. unfold emulate_human_behavior. quiet. Qed.

Lemma quiet_scan_iframes (ends : bool) (iframes : list Frame) :
  quiet_with ends (scan_iframes iframes).
Proof.
  induction iframes as [|f fs IH]; cbn [scan_iframes]; [quiet|].
  unfold get_attribute_src. apply quiet_bind; [quiet|]. intros attr.
  destruct (is_challenge_frame _); [quiet|exact IH].
Qed.

Lemma quiet_turnstile_body (ends : bool) : quiet_with ends turnstile_body.
Proof.
  unfold turnstile_body, find_iframes, page_source.
  apply quiet_bind; [quiet|]. intros iframes.
  apply quiet_bind; [apply quiet_scan_iframes|]. intros found. quiet.
Qed.

Lemma quiet_handle_turnstile (ends : bool) : quiet_with ends handle_turnstile.
Proof.
  unfold handle_turnstile.
  apply quiet_try; [|quiet].
  apply quiet_bind; [quiet|]. intros _.
  apply quiet_bind; [quiet|]. intros _. apply quiet_turnstile_body.
Qed.

Lemma quiet_verify (ends : bool) : quiet_with ends verify_page_loaded.
Proof. unfold verify_page_loaded. quiet. Qed.

Lemma quiet_js_challenge_loop (fuel : nat) (start : N) (timeout : Z) :
  quiet_with false (js_challenge_loop fuel start timeout).
Proof.
  induction fuel as [|fuel IH]; cbn [js_challenge_loop];
    [apply quiet_out_of_fuel|].
  unfold page_source. apply quiet_bind; [quiet|]. intros now.
  destruct (_ <? _)%Z; [|quiet].
  apply quiet_bind; [quiet|]. intros ps.
  destruct (negb _); [quiet|].
  apply quiet_bind; [quiet|]. intros _. exact IH.
Qed.

Lemma quiet_wait_for_js_challenge (fuel : nat) (timeout : Z) :
  quiet_with false (_wait_for_js_challenge fuel timeout).
Proof.
  unfold _wait_for_js_challenge.
  apply quiet_bind; [quiet|]. intros _.
  apply quiet_bind; [quiet|]. intros start. apply quiet_js_challenge_loop.
Qed.

Lemma quiet_page_load_loop (fuel0 fuel : nat) (start_time : N)
    (timeout : Z) :
  quiet_with false (page_load_loop fuel0 fuel start_time timeout).
Proof.
  induction fuel as [|fuel IH]; cbn [page_load_loop];
    [apply quiet_out_of_fuel|].
  unfold page_source. apply quiet_bind; [quiet|]. intros now.
  destruct (_ <? _)%Z; [|quiet].
  apply quiet_bind; [quiet|]. intros ps.
  destruct (any_in _ _).
  - apply quiet_bind; [quiet|]. intros _.
    apply quiet_bind; [apply quiet_emulate|]. intros _.
    apply quiet_bind; [apply quiet_handle_turnstile|]. intros passed.
    destruct passed.
    + apply quiet_bind; [quiet|]. intros _.
      apply quiet_bind; [apply quiet_wait_for_js_challenge|]. intros cleared.
      destruct cleared; [|exact IH].
      apply quiet_bind; [apply quiet_verify|]. intros loaded. quiet.
    + apply quiet_bind; [quiet|]. intros _. exact IH.
  - apply quiet_bind; [apply quiet_verify|]. intros loaded. quiet.
Qed.

Lemma quiet_wait_for_page_load (fuel : nat) (timeout : Z) :
  quiet_with false (_wait_for_page_load fuel timeout).
Proof.
  unfold _wait_for_page_load.
  apply quiet_bind; [quiet|]. intros _.
  apply quiet_bind; [quiet|]. intros start. apply quiet_page_load_loop.
Qed.

(** *** Running a block step by step *)

Lemma bind_inv {A B} (m : M A) (k : A -> M B) st r st' evs :
  bind m k st = (r, st', evs) ->
  (exists a s1 e1 e2,
      m st = (Ok a, s1, e1) /\ k a s1 = (r, st', e2) /\ evs = e1 ++ e2)
  \/ (m st = (Raise, st', evs) /\ r = Raise)
  \/ (m st = (OutOfFuel, st', evs) /\ r = OutOfFuel).
Proof.
  unfold bind. destruct (m st) as [[r1 s1] e1]. destruct r1 as [a| |].
  - destruct (k a s1) as [[r2 s2] e2] eqn:E. intros H. inversion H; subst.
    left. now exists a, s1, e1, e2.
  - intros H. inversion H; subst. right. left. now split.
  - intros H. inversion H; subst. right. right. now split.
Qed.

Lemma try_inv {A} (body handler : M A) st r st' evs :
  try_except body handler st = (r, st', evs) ->
  (body st = (r, st', evs) /\ r <> Raise)
  \/ (exists s1 e1 e2,
        body st = (Raise, s1, e1) /\ handler s1 = (r, st', e2)
        /\ evs = e1 ++ e2).
Proof.
  unfold try_except. destruct (body st) as [[r1 s1] e1].
  destruct r1 as [a| |].
  - intros H. inversion H; subst. left. split; [reflexivity|discriminate].
  - destruct (handler s1) as [[r2 s2] e2] eqn:E. intros H.
    inversion H; subst. right. now exists s1, e1, e2.
  - intros H. inversion H; subst. left. split; [reflexivity|discriminate].
Qed.

Lemma call_inv (c : Call) st r st' evs :
  call c st = (r, st', evs) ->
  exists ok,
    r = (if ok : bool then Ok tt else Raise) /\ evs = [Called c ok]
    /\ (clock st <= clock st')%N /\ driver st' = driver st.
Proof.
  unfold call. destruct (driver_call c (world st)) as [[ok dt] w].
  intros H. inversion H; subst. exists ok. repeat split. simpl. lia.
Qed.

Lemma sleep_inv (ms : N) st r st' evs :
  sleep ms st = (r, st', evs) ->
  r = Ok tt /\ evs = [] /\ (clock st + ms <= clock st')%N
  /\ driver st' = driver st.
Proof.
  unfold sleep. destruct (sleep_through ms (world st)) as [ov w].
  intros H. inversion H; subst. repeat split. simpl. lia.
Qed.

Lemma log_inv (l : Level) (m : Msg) st r st' evs :
  log l m st = (r, st', evs) -> r = Ok tt /\ st' = st /\ evs = [Log l m].
Proof. intros H. inversion H; subst. now repeat split. Qed.

Lemma ret_inv {A} (a : A) st r st' evs :
  ret a st = (r, st', evs) -> r = Ok a /\ st' = st /\ evs = [].
Proof. intros H. inversion H; subst. now repeat split. Qed.

Lemma raise_inv {A} st (r : outcome A) st' evs :
  raise st = (r, st', evs) -> r = Raise /\ st' = st /\ evs = [].
Proof. intros H. inversion H; subst. now repeat split. Qed.

Lemma get_driver_inv st r st' evs :
  get_driver st = (r, st', evs) ->
  r = Ok (driver st) /\ st' = st /\ evs = [].
Proof. intros H. inversion H; subst. now repeat split. Qed.

Lemma set_driver_inv (d : bool) st r st' evs :
  set_driver d st = (r, st', evs) ->
  r = Ok tt /\ evs = [] /\ clock st' = clock st /\ driver st' = d.
Proof. intros H. inversion H; subst. now repeat split. Qed.

Lemma time_inv st r st' evs :
  time_time st = (r, st', evs) -> r = Ok (clock st) /\ st' = st /\ evs = [].
Proof. intros H. inversion H; subst. now repeat split. Qed.

Lemma read_inv {A} (c : Call) (prim : World -> option A * N * World)
    st r st' evs :
  read c prim st = (r, st', evs) ->
  (clock st <= clock st')%N /\ driver st' = driver st /\ r <> OutOfFuel
  /\ exists ok, evs = [Called c ok].
Proof.
  unfold read. destruct (prim (world st)) as [[[a|] dt] w];
    intros H; inversion H; subst;
    (repeat split; [simpl; lia|discriminate|eexists; reflexivity]).
Qed.

(** One step of symbolic execution on a hypothesis about a run. *)
Ltac run_step :=
  match goal with
  | H : bind _ _ _ = _ |- _ =>
      apply bind_inv in H;
      destruct H as [(? & ? & ? & ? & ? & ? & ?)|[[? ?]|[? ?]]]
  | H : try_except _ _ _ = _ |- _ =>
      apply try_inv in H;
      destruct H as [[? ?]|(? & ? & ? & ? & ? & ?)]
  | H : log _ _ _ = _ |- _ =>
      apply log_inv in H; destruct H as (? & ? & ?)
  | H : ret _ _ = _ |- _ =>
      apply ret_inv in H; destruct H as (? & ? & ?)
  | H : raise _ = _ |- _ =>
      apply raise_inv in H; destruct H as (? & ? & ?)
  | H : get_driver _ = _ |- _ =>
      apply get_driver_inv in H; destruct H as (? & ? & ?)
  | H : set_driver _ _ = _ |- _ =>
      apply set_driver_inv in H; destruct H as (? & ? & ? & ?)
  | H : time_time _ = _ |- _ =>
      apply time_inv in H; destruct H as (? & ? & ?)
  | H : sleep _ _ = _ |- _ =>
      apply sleep_inv in H; destruct H as (? & ? & ? & ?)
  | H : call _ _ = _ |- _ =>
      apply call_inv in H; destruct H as ([|] & ? & ? & ? & ?)
  | H : read _ _ _ = _ |- _ =>
      apply read_inv in H; destruct H as (? & ? & ? & ? & ?)
  | H : (if ?b then _ else _) _ = _ |- _ => destruct b eqn:?
  end;
  subst;
  repeat match goal with
         | H : Ok _ = Ok _ |- _ => injection H as H; subst
         end;
  try discriminate; try congruence.

Ltac run := repeat run_step.

(** *** The polling loops end *)

Lemma js_challenge_loop_S (fuel : nat) (start : N) (timeout : Z) :
  js_challenge_loop (S fuel) start timeout
  = (now <- time_time ;;
     if (Z.of_N now - Z.of_N start <? timeout)%Z then
       ps <- page_source ;;
       if negb (any_in challenge_phrases (lower ps))
       then log Debug JsChallengePassed ;; ret true
       else sleep 1000 ;; js_challenge_loop fuel start timeout
     else ret false).
Proof. reflexivity. Qed.

(** Every round of the loop sleeps a second, so the loop is over after
    [timeout / 1000] rounds and one more test. *)
Lemma js_challenge_loop_ends (start : N) (timeout : Z) (fuel : nat) :
  forall st r st' evs,
    js_challenge_loop (S fuel) start timeout st = (r, st', evs) ->
    (timeout - (Z.of_N (clock st) - Z.of_N start)
     <= 1000 * Z.of_nat fuel)%Z ->
    r <> OutOfFuel.
Proof.
  induction fuel as [|fuel IH]; intros st r st' evs H Hb;
    rewrite js_challenge_loop_S in H; unfold page_source in H.
  - run; match goal with
         | Hc : (_ <? _)%Z = true |- _ => apply Z.ltb_lt in Hc; lia
         end.
  - run.
    match goal with
    | Hrec : js_challenge_loop (S fuel) _ _ _ = _ |- _ =>
        apply IH in Hrec; [assumption|]
    end.
    match goal with
    | Hc : (_ <? _)%Z = true |- _ => apply Z.ltb_lt in Hc
    end.
    lia.
Qed.

Lemma wait_for_js_challenge_ends (fuel : nat) st r st' evs :
  6 <= fuel ->
  _wait_for_js_challenge fuel 5000 st = (r, st', evs) -> r <> OutOfFuel.
Proof.
  intros Hf H. destruct fuel as [|fuel]; [lia|].
  unfold _wait_for_js_challenge in H. run.
  match goal with
  | Hrec : js_challenge_loop _ _ _ _ = _ |- _ =>
      apply js_challenge_loop_ends in Hrec; [assumption|lia]
  end.
Qed.

(** [handle_turnstile] sleeps two seconds before anything else, and catches
    every exception. *)
Lemma handle_turnstile_takes_time st r st' evs :
  handle_turnstile st = (r, st', evs) ->
  (clock st + 2000 <= clock st')%N /\ r <> Raise /\ r <> OutOfFuel.
Proof.
  intros H. unfold handle_turnstile in H. run;
    match goal with
    | Hb : turnstile_body _ = _ |- _ =>
        apply (quiet_turnstile_body true) in Hb;
        destruct Hb as (_ & Hc & _ & Ht)
    end;
    (split; [lia|split; [assumption || discriminate|]]);
    try discriminate; now apply Ht.
Qed.

Lemma page_load_loop_S (fuel0 fuel : nat) (start_time : N) (timeout : Z) :
  page_load_loop fuel0 (S fuel) start_time timeout
  = (now <- time_time ;;
     if (Z.of_N now - Z.of_N start_time <? timeout)%Z then
       ps <- page_source ;;
       if any_in challenge_phrases (lower ps) then
         log Debug ChallengeDetected ;;
         emulate_human_behavior ;;
         passed <- handle_turnstile ;;
         if passed then
           sleep 1000 ;;
           cleared <- _wait_for_js_challenge fuel0 5000 ;;
           if cleared then
             loaded <- verify_page_loaded ;;
             (if loaded then log Debug ChallengeCleared else ret tt) ;;
             ret true
           else page_load_loop fuel0 fuel start_time timeout
         else
           sleep 2000 ;;
           page_load_loop fuel0 fuel start_time timeout
       else
         loaded <- verify_page_loaded ;;
         (if loaded then log Debug PageLoaded else ret tt) ;;
         ret true
     else
       log Debug PageLoadTimeout ;;
       ret false).
Proof. reflexivity. Qed.

(** What is known of the blocks a run went through. *)
Ltac block_facts :=
  repeat match goal with
    | H : emulate_human_behavior _ = _ |- _ =>
        apply (quiet_emulate true) in H; destruct H as (? & ? & ? & ?)
    | H : handle_turnstile _ = _ |- _ =>
        apply handle_turnstile_takes_time in H; destruct H as (? & ? & ?)
    | H : verify_page_loaded _ = _ |- _ =>
        apply (quiet_verify true) in H; destruct H as (? & ? & ? & ?)
    | H : _wait_for_js_challenge ?f 5000 _ = _, Hf : 6 <= ?f |- _ =>
        pose proof (wait_for_js_challenge_ends f _ _ _ _ Hf H);
        apply quiet_wait_for_js_challenge in H; destruct H as (? & ? & ? & _)
    | H : (_ <? _)%Z = true |- _ => apply Z.ltb_lt in H
    | H : (_ <? _)%Z = false |- _ => apply Z.ltb_ge in H
    end.

(** Every round that does not return takes two seconds or more. *)
Lemma page_load_loop_ends (fuel0 : nat) (start_time : N) (timeout : Z)
    (fuel : nat) :
  6 <= fuel0 ->
  forall st r st' evs,
    page_load_loop fuel0 (S fuel) start_time timeout st = (r, st', evs) ->
    (timeout - (Z.of_N (clock st) - Z.of_N start_time)
     <= 2000 * Z.of_nat fuel)%Z ->
    r <> OutOfFuel.
Proof.
  intros Hf. induction fuel as [|fuel IH]; intros st r st' evs H Hb;
    rewrite page_load_loop_S in H; unfold page_source in H.
  - run; block_facts; try tauto; try discriminate; lia.
  - run; block_facts; try tauto; try discriminate;
      match goal with
      | Hrec : page_load_loop _ (S fuel) _ _ _ = _ |- _ =>
          apply IH in Hrec; [assumption|lia]
      end.
Qed.

Lemma wait_for_page_load_ends (fuel : nat) st r st' evs :
  9 <= fuel ->
  _wait_for_page_load fuel 15000 st = (r, st', evs) -> r <> OutOfFuel.
Proof.
  intros Hf H. destruct fuel as [|fuel]; [lia|].
  unfold _wait_for_page_load in H. run.
  match goal with
  | Hrec : page_load_loop _ _ _ _ _ = _ |- _ =>
      apply page_load_loop_ends in Hrec; [assumption|lia|lia]
  end.
Qed.

(** *** The structural verification *)

Lemma verify_inv st r st' evs :
  verify_page_loaded st = (r, st', evs) ->
  exists ok, r = Ok ok /\ evs = [Called WaitForBody ok].
Proof.
  intros H. unfold verify_page_loaded in H. run.
  - exists true. now split.
  - exists false. now split.
Qed.

(** Without an interstitial phrase at the first poll the wait reports
    success, whatever the verification gives. *)
Lemma wait_for_page_load_plain_page (fuel : nat) (timeout : Z) st ps
    elapsed w :
  driver_page_source (world st) = (Some ps, elapsed, w) ->
  any_in challenge_phrases (lower ps) = false ->
  (0 < timeout)%Z ->
  exists st' evs,
    _wait_for_page_load (S fuel) timeout st = (Ok true, st', evs).
Proof.
  intros Hps Hno Ht. unfold _wait_for_page_load.
  unfold bind at 1 2. unfold log at 1. unfold time_time at 1.
  rewrite page_load_loop_S.
  unfold bind, log, time_time, page_source, read.
  rewrite Z.sub_diag. destruct (Z.ltb_spec 0 timeout) as [_|]; [|lia].
  rewrite Hps, Hno.
  unfold verify_page_loaded, try_except, bind, call, ret.
  destruct (driver_call WaitForBody _) as [[[] dt] w']; cbn; eauto.
Qed.

(** *** One attempt *)

Lemma markers_cons (e : Event) (evs : list Event) :
  markers (e :: evs) = if is_marker e then e :: markers evs else markers evs.
Proof. reflexivity. Qed.

Lemma markers_nil : markers [] = [].
Proof. reflexivity. Qed.

Ltac markers_norm :=
  repeat (rewrite markers_app || rewrite markers_cons || rewrite markers_nil);
  cbn [is_marker app];
  repeat match goal with
    | Hm : markers ?e = _ |- _ => rewrite Hm
    end;
  cbn [app].

Lemma quiet_log_browser_info (ends : bool) : quiet_with ends log_browser_info.
Proof. unfold log_browser_info. quiet. Qed.

(** The browser is created when there is none: either [uc.Chrome] raises,
    or the driver is set and what follows may still raise. *)
Lemma ensure_driver_spec st r st' evs :
  ensure_driver st = (r, st', evs) ->
  r <> OutOfFuel /\ (clock st <= clock st')%N
  /\ ((driver st = true /\ r = Ok tt /\ markers evs = []
       /\ driver st' = true)
      \/ (driver st = false /\ r = Raise
          /\ markers evs = [Called NewChrome false] /\ driver st' = false)
      \/ (driver st = false /\ r <> OutOfFuel
          /\ markers evs = [Called NewChrome true] /\ driver st' = true)).
Proof.
  intros H. unfold ensure_driver, _create_driver, _inject_stealth_scripts in H.
  run;
    repeat match goal with
      | Hb : log_browser_info _ = _ |- _ =>
          apply (quiet_log_browser_info true) in Hb;
          destruct Hb as (? & ? & ? & ?)
      | Hn : negb _ = true |- _ => apply negb_true_iff in Hn
      | Hn : negb _ = false |- _ => apply negb_false_iff in Hn
      end;
    (split; [try discriminate; auto|split; [lia|]]);
    markers_norm;
    first
      [ left; repeat split; (reflexivity || congruence)
      | right; left; repeat split; (reflexivity || congruence)
      | right; right; repeat split;
        (reflexivity || congruence || discriminate || auto) ].
Qed.

Section Attempt.

Variable url : str.
Variable attempt : nat.
Variable max_retries : Z.

(** [attempt < max_retries - 1]: another attempt follows. *)
Definition remaining : bool := (Z.of_nat attempt <? max_retries - 1)%Z.

Definition failed_record : Event :=
  Log Feedback (BypassFailed (Z.of_nat attempt + 1) max_retries).

Definition error_record : Event :=
  Log Error (VisitError (Z.of_nat attempt + 1)).

Definition created (alive : bool) : list Event :=
  if alive then [] else [Called NewChrome true].

(** The three ways the clearing of cookies and storage can raise. *)
Definition broken_clearings : list (list Event) :=
  [[Called DeleteAllCookies false];
   [Called DeleteAllCookies true;
    Called (ExecuteScript LocalStorageClear) false];
   [Called DeleteAllCookies true;
    Called (ExecuteScript LocalStorageClear) true;
    Called (ExecuteScript SessionStorageClear) false]].

(** How the exception handler ends after its error record, from whether
    [self.driver] was set when the exception came: the outcome of the
    attempt, whether [self.driver] is set afterwards, and the markers. When
    [driver.quit()] raises, the exception leaves [visit_page]. *)
Inductive teardown_shape : bool -> outcome bool -> bool -> list Event -> Prop :=
| teardown_last alive :
    remaining = false -> teardown_shape alive (Ok false) alive []
| teardown_no_browser :
    remaining = true -> teardown_shape false (Ok false) false []
| teardown_quit :
    remaining = true ->
    teardown_shape true (Ok false) false [Called Quit true]
| teardown_quit_raised :
    remaining = true -> teardown_shape true Raise true [Called Quit false].

(** The markers an attempt can leave, with whether [self.driver] was set
    before, the outcome of the attempt, and whether [self.driver] is set
    after. *)
Inductive attempt_shape : bool -> outcome bool -> bool -> list Event -> Prop :=
| shape_create_raised r alive' t :
    teardown_shape false r alive' t ->
    attempt_shape false r alive'
      ([Called NewChrome false; error_record] ++ t)
| shape_setup_raised r alive' t :
    teardown_shape true r alive' t ->
    attempt_shape false r alive'
      ([Called NewChrome true; error_record] ++ t)
| shape_get_raised alive r alive' t :
    teardown_shape true r alive' t ->
    attempt_shape alive r alive'
      (created alive ++ [Called (Get url) false; error_record] ++ t)
| shape_load_raised alive r alive' t :
    teardown_shape true r alive' t ->
    attempt_shape alive r alive'
      (created alive ++ [Called (Get url) true; error_record] ++ t)
| shape_loaded alive :
    attempt_shape alive (Ok true) true
      (created alive ++ [Called (Get url) true; Log Feedback BypassOk])
| shape_failed_last alive :
    remaining = false ->
    attempt_shape alive (Ok false) true
      (created alive ++ [Called (Get url) true; failed_record])
| shape_failed_cleared alive :
    remaining = true ->
    attempt_shape alive (Ok false) true
      (created alive
         ++ [Called (Get url) true; failed_record;
             Called DeleteAllCookies true;
             Called (ExecuteScript LocalStorageClear) true;
             Called (ExecuteScript SessionStorageClear) true])
| shape_clear_raised alive cleared r alive' t :
    remaining = true -> In cleared broken_clearings ->
    teardown_shape true r alive' t ->
    attempt_shape alive r alive'
      (created alive ++ [Called (Get url) true; failed_record]
         ++ cleared ++ [error_record] ++ t).

Ltac shape_from c :=
  let S := fresh "S" in
  pose proof c as S;
  unfold created, failed_record, error_record in S;
  cbn [app] in S; exact S.

Ltac with_teardown k :=
  match goal with
  | E : remaining = _ |- _ =>
      first
        [ k (teardown_last true E)
        | k (teardown_last false E)
        | k (teardown_no_browser E)
        | k (teardown_quit E)
        | k (teardown_quit_raised E) ]
  end.

Ltac with_broken k :=
  match goal with
  | E : remaining = true |- _ =>
      first
        [ k ([Called DeleteAllCookies false] : list Event) E
        | k ([Called DeleteAllCookies true;
              Called (ExecuteScript LocalStorageClear) false] : list Event) E
        | k ([Called DeleteAllCookies true;
              Called (ExecuteScript LocalStorageClear) true;
              Called (ExecuteScript SessionStorageClear) false]
             : list Event) E ]
  end.

Ltac find_shape :=
  first
    [ shape_from (shape_loaded true)
    | shape_from (shape_loaded false)
    | match goal with
      | E : remaining = _ |- _ =>
          first
            [ shape_from (shape_failed_last true E)
            | shape_from (shape_failed_last false E)
            | shape_from (shape_failed_cleared true E)
            | shape_from (shape_failed_cleared false E) ]
      end
    | with_teardown ltac:(fun T =>
        first
          [ shape_from (shape_create_raised _ _ _ T)
          | shape_from (shape_setup_raised _ _ _ T)
          | shape_from (shape_get_raised true _ _ _ T)
          | shape_from (shape_get_raised false _ _ _ T)
          | shape_from (shape_load_raised true _ _ _ T)
          | shape_from (shape_load_raised false _ _ _ T)
          | with_broken ltac:(fun cleared E =>
              let Hin := constr:(ltac:(unfold broken_clearings; simpl; tauto)
                                 : In cleared broken_clearings) in
              first
                [ shape_from (shape_clear_raised true cleared _ _ _ E Hin T)
                | shape_from (shape_clear_raised false cleared _ _ _ E Hin T)
                ]) ]) ].

(** An attempt ends when its page-load wait does, and its markers have one
    of the shapes. *)
Lemma visit_attempt_shape (fuel : nat) st r st' evs :
  visit_attempt fuel url attempt max_retries st = (r, st', evs) ->
  (9 <= fuel -> r <> OutOfFuel)
  /\ (r <> OutOfFuel ->
      attempt_shape (driver st) r (driver st') (markers evs)).
Proof.
  intros H. unfold visit_attempt, clear_session_state, drop_session in H.
  fold remaining in H. fold failed_record in H. fold error_record in H.
  run;
    repeat match goal with
      | He : ensure_driver _ = _ |- _ =>
          apply ensure_driver_spec in He;
          destruct He
            as (? & ? & [(? & ? & ? & ?)|[(? & ? & ? & ?)|(? & ? & ? & ?)]])
      | Hw : _wait_for_page_load _ _ _ = _ |- _ =>
          pose proof (fun Hf => wait_for_page_load_ends _ _ _ _ _ Hf Hw);
          apply quiet_wait_for_page_load in Hw;
          destruct Hw as (? & ? & ? & _)
      end;
    subst; try discriminate; try congruence.
  all: split; [try discriminate; auto|].
  all: intros Hr; try congruence.
  all: markers_norm.
  all: destruct (driver st) eqn:?;
    match goal with
    | |- attempt_shape _ _ (driver ?s) _ => destruct (driver s) eqn:?
    end; try congruence.
  all: find_shape.
Qed.

(** Navigation calls in a run. *)
Definition is_get (e : Event) : bool :=
  match e with
  | Called (Get _) _ => true
  | _ => false
  end.

Definition count_gets (evs : list Event) : nat :=
  length (filter is_get evs).

Ltac shape_cases H :=
  inversion H; subst; clear H;
  repeat match goal with
    | T : teardown_shape _ _ _ _ |- _ => inversion T; subst; clear T
    end;
  try congruence;
  unfold created, broken_clearings, failed_record, error_record in *;
  repeat match goal with
    | Hin : In _ (_ :: _) |- _ => destruct Hin as [<-|Hin]
    | Hin : In _ [] |- _ => destruct Hin
    end;
  repeat match goal with
    | |- context [if ?b then _ else _] => destruct b eqn:?
    end;
  cbn [app negb] in *.

Ltac in_list := cbn [In]; solve [auto 10].

Ltac third_clearing :=
  first [exists true; in_list | exists false; in_list].

Ltac second_clearing :=
  first
    [ exists true; split; [in_list|intros _; third_clearing]
    | exists false; split; [in_list|intros; discriminate] ].

Ltac first_clearing :=
  intros _ _;
  first
    [ exists true; split; [in_list|intros _; second_clearing]
    | exists false; split; [in_list|intros; discriminate] ].

Ltac list_facts :=
  intros; subst; cbn [In] in *;
  intuition (try discriminate; try congruence; eauto 8).

(** The outcome of an attempt, read off its markers. *)
Lemma shape_outcome alive r alive' ms :
  attempt_shape alive r alive' ms ->
  r <> OutOfFuel
  /\ count_gets ms <= 1
  /\ (r = Ok true <-> In (Log Feedback BypassOk) ms)
  /\ (r = Raise <-> In (Called Quit false) ms)
  /\ (r = Raise -> remaining = true)
  /\ (r = Ok false -> In failed_record ms \/ In error_record ms)
  /\ (r = Ok true -> ~ In failed_record ms /\ ~ In error_record ms).
Proof.
  intros H. unfold failed_record, error_record in *.
  shape_cases H; unfold count_gets; cbn [filter is_get length In].
  all: repeat split; try lia; try discriminate; try congruence.
  all: list_facts.
Qed.

(** The failure and error records of an attempt carry its number. *)
Lemma shape_records alive r alive' ms :
  attempt_shape alive r alive' ms ->
  forall a,
    In (Log Feedback (BypassFailed (Z.of_nat a + 1) max_retries)) ms
    \/ In (Log Error (VisitError (Z.of_nat a + 1))) ms ->
    a = attempt.
Proof.
  intros H. shape_cases H; intros a Hin; cbn [In] in Hin;
    repeat match goal with
      | Hd : _ \/ _ |- _ => destruct Hd
      | Hf : False |- _ => destruct Hf
      end;
    try congruence;
    match goal with
    | Heq : _ = _ |- _ => injection Heq; lia
    end.
Qed.

(** Cookies and storage are cleared after a failed wait when attempts
    remain, each call unless the one before it raised, and in no other
    case. *)
Lemma shape_clearing alive r alive' ms :
  attempt_shape alive r alive' ms ->
  (In failed_record ms -> remaining = true ->
   exists ok,
     In (Called DeleteAllCookies ok) ms
     /\ (ok = true ->
         exists ok2,
           In (Called (ExecuteScript LocalStorageClear) ok2) ms
           /\ (ok2 = true ->
               exists ok3,
                 In (Called (ExecuteScript SessionStorageClear) ok3) ms)))
  /\ (forall ok,
        In (Called DeleteAllCookies ok) ms
        \/ In (Called (ExecuteScript LocalStorageClear) ok) ms
        \/ In (Called (ExecuteScript SessionStorageClear) ok) ms ->
        remaining = true /\ In failed_record ms /\ r <> Ok true).
Proof.
  intros H. unfold failed_record, error_record in *.
  shape_cases H; cbn [In].
  all: split; [|solve [list_facts]].
  all: first [first_clearing | solve [list_facts]].
Qed.

(** After an exception with attempts remaining the browser, if there is
    one, is quit and [self.driver] is None, unless the quit itself raises;
    the browser is quit in no other case; and an attempt that starts without
    a browser begins by creating one. *)
Lemma shape_teardown alive r alive' ms :
  attempt_shape alive r alive' ms ->
  (In error_record ms -> remaining = true ->
   (r = Ok false -> alive' = false)
   /\ (alive = true \/ In (Called NewChrome true) ms ->
       exists ok, In (Called Quit ok) ms))
  /\ (forall ok, In (Called Quit ok) ms ->
        remaining = true /\ In error_record ms)
  /\ (alive = false -> exists ok rest, ms = Called NewChrome ok :: rest).
Proof.
  intros H. unfold failed_record, error_record in *.
  shape_cases H; cbn [In].
  all: split; [|split; [solve [list_facts]|]].
  all: try solve [list_facts].
  all: try solve [intros _; eauto].
  all: intros _ _; split; [try discriminate; try reflexivity; congruence|].
  all: intros _; first [exists true; in_list | exists false; in_list].
Qed.

End Attempt.

Lemma is_get_marker (e : Event) : is_get e = true -> is_marker e = true.
Proof. destruct e as [[] ?|]; simpl; congruence. Qed.

Lemma count_gets_markers (evs : list Event) :
  count_gets (markers evs) = count_gets evs.
Proof.
  unfold count_gets, markers. f_equal.
  induction evs as [|e evs IH]; [reflexivity|]. cbn [filter].
  destruct (is_marker e) eqn:Em.
  - cbn [filter]. destruct (is_get e); now rewrite IH.
  - destruct (is_get e) eqn:Eg; [|exact IH].
    apply is_get_marker in Eg. congruence.
Qed.

Lemma count_gets_app (a b : list Event) :
  count_gets (a ++ b) = count_gets a + count_gets b.
Proof. unfold count_gets. now rewrite filter_app, length_app. Qed.

Lemma in_markers (e : Event) (evs : list Event) :
  is_marker e = true -> (In e (markers evs) <-> In e evs).
Proof. intros He. unfold markers. rewrite filter_In. tauto. Qed.

Lemma remaining_more (attempt len : nat) (max_retries : Z) :
  attempt + len = Z.to_nat max_retries ->
  (remaining attempt max_retries = true <-> 2 <= len).
Proof. intros H. unfold remaining. rewrite Z.ltb_lt. lia. Qed.

(** The loop over the attempts [start], ..., [start + len - 1], the last
    ones of the visit. It ends; it navigates at most once per attempt; it
    returns True exactly when the success record is there, lets an exception
    out exactly when a [driver.quit()] raised, and returns False exactly when
    every attempt has left its failure or error record. *)
Lemma visit_attempts_run (fuel : nat) (url : str) (max_retries : Z) :
  9 <= fuel ->
  forall len start st,
    start + len = Z.to_nat max_retries ->
    exists r st' evs,
      visit_attempts fuel url (seq start len) max_retries st = (r, st', evs)
      /\ r <> OutOfFuel
      /\ count_gets evs <= len
      /\ (r = Ok true <-> In (Log Feedback BypassOk) evs)
      /\ (r = Raise <-> In (Called Quit false) evs)
      /\ (r = Ok false <->
          forall attempt, start <= attempt < start + len ->
            In (failed_record attempt max_retries) evs
            \/ In (error_record attempt) evs).
Proof.
  intros Hf. induction len as [|len IH]; intros start st Hsum.
  - exists (Ok false), st, []. cbn.
    repeat split; try lia; try discriminate; try contradiction; intros; lia.
  - cbn [seq visit_attempts]. unfold bind.
    destruct (visit_attempt fuel url start max_retries st)
      as [[r1 s1] e1] eqn:E1.
    destruct (visit_attempt_shape url start max_retries fuel _ _ _ _ E1)
      as (Hfuel & Hshape).
    specialize (Hfuel Hf). specialize (Hshape Hfuel).
    pose proof (shape_records _ _ _ _ _ _ _ Hshape) as Htag.
    destruct (shape_outcome _ _ _ _ _ _ _ Hshape)
      as (_ & Hgets & Hok & Hraise & Hrem & Hfail & Hnone).
    rewrite count_gets_markers in Hgets.
    rewrite in_markers in Hok, Hraise by reflexivity.
    rewrite !in_markers in Hfail, Hnone by reflexivity.
    assert (Htag' : forall a,
               In (failed_record a max_retries) e1
               \/ In (error_record a) e1 -> a = start).
    { intros a Ha. apply Htag. now rewrite !in_markers by reflexivity. }
    clear Htag.
    destruct r1 as [[|]| |]; [| | |contradiction].
    + exists (Ok true), s1, (e1 ++ []). cbn [ret]. rewrite app_nil_r.
      split; [reflexivity|]. split; [discriminate|]. split; [lia|].
      split; [tauto|]. split; [tauto|]. split; [discriminate|].
      intros Hall. exfalso.
      destruct (Hnone eq_refl) as [Hn1 Hn2].
      destruct (Hall start ltac:(lia)); contradiction.
    + destruct (IH (S start) s1 ltac:(lia))
        as (r & st' & evs & Hrun & Hr & Hcount & Hsucc & Hquit & Hall).
      rewrite Hrun. exists r, st', (e1 ++ evs).
      split; [reflexivity|]. split; [exact Hr|]. split; [|split; [|split]].
      * rewrite count_gets_app. lia.
      * rewrite in_app_iff, <- Hsucc. split; [now right|].
        intros [Hin|Hb]; [|exact Hb]. apply Hok in Hin. discriminate.
      * rewrite in_app_iff, <- Hquit. split; [now right|].
        intros [Hin|Hb]; [|exact Hb]. apply Hraise in Hin. discriminate.
      * rewrite Hall. split.
        -- intros Hrest a Ha. destruct (Nat.eq_dec a start) as [->|Hne].
           ++ destruct (Hfail eq_refl) as [H|H]; [left|right];
                apply in_or_app; now left.
           ++ destruct (Hrest a ltac:(lia)) as [H|H]; [left|right];
                apply in_or_app; now right.
        -- intros Hevery a Ha.
           destruct (Hevery a ltac:(lia)) as [H|H];
             apply in_app_or in H; destruct H as [H|H];
             try (left; exact H); try (right; exact H);
             exfalso; assert (a = start) by (apply Htag'; tauto); lia.
    + exists Raise, s1, e1.
      split; [reflexivity|]. split; [discriminate|]. split; [lia|].
      split; [|split; [tauto|]].
      * split; [discriminate|]. intros Hin. apply Hok in Hin. discriminate.
      * split; [discriminate|]. intros Hall. exfalso.
        apply (remaining_more start (S len)) in Hsum.
        apply Hsum in Hrem; [|reflexivity].
        assert (S start = start); [|lia].
        apply Htag'. apply (Hall (S start)). lia.
Qed.

(** The attempts of [visit_page]. With fuel for nine rounds of the page-load
    wait, [visit_page] ends;
    it navigates at most [max_retries] times; it returns True exactly when
    an attempt has reported success and False exactly when every one of the
    [max_retries] attempts has left its failure or error record (the only
    exception it lets out is one raised by [driver.quit()] in the handler).
    In each attempt: after a failed wait with attempts remaining, cookies are
    deleted, then local storage and session storage are cleared, each unless
    the call before it raised, and these calls are made in no other case;
    after an exception with attempts remaining the browser is quit if there
    is one and, unless that call raised, the attempt is over with
    [self.driver] set to None, and the browser is quit in no other case; and
    an attempt that starts without a browser begins by creating one. *)
Theorem visit_page_retries (fuel : nat) (url : str) (max_retries : Z)
    (st : St) :
  9 <= fuel ->
  (exists r st' evs,
      visit_page fuel url max_retries st = (r, st', evs)
      /\ r <> OutOfFuel
      /\ count_gets evs <= Z.to_nat max_retries
      /\ (r = Ok true <-> In (Log Feedback BypassOk) evs)
      /\ (r = Ok false <->
          forall attempt, attempt < Z.to_nat max_retries ->
            In (failed_record attempt max_retries) evs
            \/ In (error_record attempt) evs)
      /\ (r = Raise <-> In (Called Quit false) evs))
  /\ (forall attempt st0 r st1 evs1,
        visit_attempt fuel url attempt max_retries st0 = (r, st1, evs1) ->
        let remains := remaining attempt max_retries in
        (In (failed_record attempt max_retries) evs1 -> remains = true ->
           exists ok,
             In (Called DeleteAllCookies ok) evs1
             /\ (ok = true ->
                 exists ok2,
                   In (Called (ExecuteScript LocalStorageClear) ok2) evs1
                   /\ (ok2 = true ->
                       exists ok3,
                         In (Called (ExecuteScript SessionStorageClear) ok3)
                            evs1)))
        /\ (forall ok,
              In (Called DeleteAllCookies ok) evs1
              \/ In (Called (ExecuteScript LocalStorageClear) ok) evs1
              \/ In (Called (ExecuteScript SessionStorageClear) ok) evs1 ->
              remains = true
              /\ In (failed_record attempt max_retries) evs1
              /\ r <> Ok true)
        /\ (In (error_record attempt) evs1 -> remains = true ->
            (driver st0 = true \/ In (Called NewChrome true) evs1 ->
             exists ok, In (Called Quit ok) evs1)
            /\ (~ In (Called Quit false) evs1 ->
                r = Ok false /\ driver st1 = false))
        /\ (forall ok, In (Called Quit ok) evs1 ->
              remains = true /\ In (error_record attempt) evs1)
        /\ (driver st0 = false ->
            exists ok rest, markers evs1 = Called NewChrome ok :: rest)).
Proof.
  intros Hf. split.
  - unfold visit_page.
    destruct (visit_attempts_run fuel url max_retries Hf
                (Z.to_nat max_retries) 0 st eq_refl)
      as (r & st' & evs & Hrun & Hr & Hcount & Hsucc & Hquit & Hall).
    exists r, st', evs.
    split; [exact Hrun|]. split; [exact Hr|]. split; [exact Hcount|].
    split; [exact Hsucc|]. split; [|exact Hquit].
    rewrite Hall. split; intros H attempt Hlt; apply H; lia.
  - intros attempt st0 r st1 evs1 Hrun remains.
    destruct (visit_attempt_shape url attempt max_retries fuel _ _ _ _ Hrun)
      as (Hfuel & Hshape).
    specialize (Hshape (Hfuel Hf)).
    destruct (shape_clearing _ _ _ _ _ _ _ Hshape) as (Hclear & Honly).
    destruct (shape_teardown _ _ _ _ _ _ _ Hshape) as (Herr & Hquit & Hnew).
    destruct (shape_outcome _ _ _ _ _ _ _ Hshape)
      as (Hends & _ & _ & Hraise & _ & _ & Hnone).
    rewrite !in_markers in Hclear by reflexivity.
    rewrite !in_markers in Herr by reflexivity.
    rewrite in_markers in Hraise by reflexivity.
    rewrite !in_markers in Hnone by reflexivity.
    split; [|split; [|split; [|split]]].
    + intros Hin Hrem. destruct (Hclear Hin Hrem) as (ok & Hdel & Hnext).
      exists ok. rewrite in_markers in Hdel by reflexivity.
      split; [exact Hdel|]. intros Hok.
      destruct (Hnext Hok) as (ok2 & Hloc & Hnext2).
      exists ok2. rewrite in_markers in Hloc by reflexivity.
      split; [exact Hloc|]. intros Hok2.
      destruct (Hnext2 Hok2) as (ok3 & Hses).
      exists ok3. now rewrite in_markers in Hses by reflexivity.
    + intros ok Hin. specialize (Honly ok).
      rewrite !in_markers in Honly by reflexivity. now apply Honly.
    + intros Hin Hrem. destruct (Herr Hin Hrem) as (Hgone & Hq). split.
      * intros Halive. destruct (Hq Halive) as (ok & Hok). exists ok.
        now rewrite in_markers in Hok by reflexivity.
      * intros Hquiet.
        assert (Hr : r = Ok false).
        { destruct r as [[|]| |]; [|reflexivity| |contradiction].
          - destruct (Hnone eq_refl) as [_ Hn]. contradiction.
          - exfalso. apply Hquiet. now apply Hraise. }
        split; [exact Hr|exact (Hgone Hr)].
    + intros ok Hin. specialize (Hquit ok).
      rewrite !in_markers in Hquit by reflexivity. now apply Hquit.
    + exact Hnew.
Qed.


(** ** What the helpers of the navigator guarantee *)

(** *** Stronger readings of a run *)

Lemma read_ok_inv {A} (c : Call) (prim : World -> option A * N * World)
    st a st' evs :
  read c prim st = (Ok a, st', evs) ->
  evs = [Called c true] /\ (clock st <= clock st')%N
  /\ driver st' = driver st
  /\ exists elapsed w, prim (world st) = (Some a, elapsed, w).
Proof.
  unfold read. destruct (prim (world st)) as [[[b|] dt] w] eqn:E;
    intros H; inversion H; subst.
  repeat split; [simpl; lia|eauto].
Qed.

Lemma read_raise_inv {A} (c : Call) (prim : World -> option A * N * World)
    st st' evs :
  read c prim st = (@Raise A, st', evs) ->
  evs = [Called c false] /\ (clock st <= clock st')%N
  /\ driver st' = driver st.
Proof.
  unfold read. destruct (prim (world st)) as [[[b|] dt] w];
    intros H; inversion H; subst.
  repeat split. simpl. lia.
Qed.

Lemma read_fuel_inv {A} (c : Call) (prim : World -> option A * N * World)
    st st' evs :
  read c prim st = (@OutOfFuel A, st', evs) -> False.
Proof.
  unfold read. destruct (prim (world st)) as [[[b|] dt] w]; discriminate.
Qed.

(** One step of symbolic execution that keeps what a read returned. *)
Ltac exec_step :=
  first
    [ match goal with
      | H : read _ _ _ = (Ok _, _, _) |- _ =>
          apply read_ok_inv in H; destruct H as (? & ? & ? & ? & ? & ?)
      | H : read _ _ _ = (Raise, _, _) |- _ =>
          apply read_raise_inv in H; destruct H as (? & ? & ?)
      | H : read _ _ _ = (OutOfFuel, _, _) |- _ =>
          apply read_fuel_inv in H; destruct H
      end; subst
    | run_step ].

Ltac exec := repeat exec_step.

(** *** Polling *)

Definition is_poll (e : Event) : bool :=
  match e with
  | Called PageSource _ => true
  | _ => false
  end.

Definition count_polls (evs : list Event) : nat :=
  length (filter is_poll evs).

(** The rounds of [step] milliseconds that begin within [left]. *)
Definition rounds (step left : Z) : nat :=
  Z.to_nat ((left + step - 1) / step).

Lemma rounds_none (step left : Z) :
  (0 < step)%Z -> (left <= 0)%Z -> rounds step left = 0.
Proof.
  intros Hs Hl. unfold rounds.
  assert ((left + step - 1) / step < 1)%Z; [|lia].
  apply Z.div_lt_upper_bound; lia.
Qed.

Lemma rounds_next (step left left' : Z) :
  (0 < step)%Z -> (0 < left)%Z -> (left' <= left - step)%Z ->
  S (rounds step left') <= rounds step left.
Proof.
  intros Hs Hl Hn. unfold rounds.
  assert (H1 : (1 <= (left + step - 1) / step)%Z)
    by (apply Z.div_le_lower_bound; lia).
  assert (H2 : ((left' + step - 1) / step
                <= (left + step - 1) / step - 1)%Z).
  { replace (left + step - 1)%Z with ((left - step) + step - 1 + 1 * step)%Z
      by lia.
    rewrite Z.div_add by lia.
    pose proof (Z.div_le_mono (left' + step - 1) (left - step + step - 1)
                  step Hs ltac:(lia)). lia. }
  lia.
Qed.

Lemma rounds_mono (step left left' : Z) :
  (0 < step)%Z -> (left' <= left)%Z -> rounds step left' <= rounds step left.
Proof.
  intros Hs Hl. unfold rounds.
  pose proof (Z.div_le_mono (left' + step - 1) (left + step - 1) step Hs
                ltac:(lia)). lia.
Qed.

Lemma rounds_pos (step left : Z) :
  (0 < step)%Z -> (0 < left)%Z -> 1 <= rounds step left.
Proof.
  intros Hs Hl.
  pose proof (rounds_next step left (left - step) Hs Hl (Z.le_refl _)). lia.
Qed.

Lemma count_polls_app (a b : list Event) :
  count_polls (a ++ b) = count_polls a + count_polls b.
Proof. unfold count_polls. now rewrite filter_app, length_app. Qed.

Lemma count_polls_cons (e : Event) (evs : list Event) :
  count_polls (e :: evs) = (if is_poll e then 1 else 0) + count_polls evs.
Proof. unfold count_polls. cbn [filter]. now destruct (is_poll e). Qed.

Ltac polls_norm :=
  rewrite ?count_polls_app, ?count_polls_cons;
  change (count_polls []) with 0; cbn [is_poll].

Ltac order_facts :=
  repeat match goal with
    | Hc : (_ <? _)%Z = true |- _ => apply Z.ltb_lt in Hc
    | Hc : (_ <? _)%Z = false |- _ => apply Z.ltb_ge in Hc
    end.

(** The loop of [_wait_for_js_challenge] from any point of its run. *)
Lemma js_challenge_loop_outcomes (start : N) (timeout : Z) (fuel : nat) :
  forall st r st' evs,
    js_challenge_loop fuel start timeout st = (r, st', evs) ->
    let left := (timeout - (Z.of_N (clock st) - Z.of_N start))%Z in
    count_polls evs <= rounds 1000 left
    /\ (r = Ok true ->
        exists pre,
          evs = pre ++ [Called PageSource true; Log Debug JsChallengePassed])
    /\ (r = Ok false -> (timeout <= Z.of_N (clock st') - Z.of_N start)%Z)
    /\ (r = Raise -> exists pre, evs = pre ++ [Called PageSource false])
    /\ (rounds 1000 left < fuel -> r <> OutOfFuel)
    /\ (clock st <= clock st')%N.
Proof.
  induction fuel as [|fuel IH]; intros st r st' evs H left.
  - inversion H; subst. cbn.
    repeat split; try discriminate; try lia.
  - rewrite js_challenge_loop_S in H. unfold page_source in H.
    subst left. exec; order_facts.
    + (* the page is clear *)
      polls_norm.
      assert (1 <= rounds 1000
                     (timeout - (Z.of_N (clock st) - Z.of_N start)))
        by (apply rounds_pos; lia).
      repeat split; try discriminate; try lia.
      intros _. now exists [].
    + (* another round *)
      match goal with
      | Hrec : js_challenge_loop _ _ _ _ = _ |- _ =>
          apply IH in Hrec; cbv zeta in Hrec;
          destruct Hrec as (Hcount & Htrue & Hfalse & Hraise & Hfuel & Hclock)
      end.
      polls_norm.
      match type of Hcount with
      | _ <= rounds 1000 ?L' =>
          pose proof (rounds_next 1000
                        (timeout - (Z.of_N (clock st) - Z.of_N start)) L'
                        ltac:(lia) ltac:(lia) ltac:(lia)) as Hnext
      end.
      split; [lia|]. split; [|split; [exact Hfalse|split; [|split]]].
      * intros Hr. destruct (Htrue Hr) as (pre & ->).
        now exists (Called PageSource true :: pre).
      * intros Hr. destruct (Hraise Hr) as (pre & ->).
        now exists (Called PageSource true :: pre).
      * intros Hlt. apply Hfuel. lia.
      * lia.
    + (* reading the page raised *)
      polls_norm.
      assert (1 <= rounds 1000
                     (timeout - (Z.of_N (clock st) - Z.of_N start)))
        by (apply rounds_pos; lia).
      repeat split; try discriminate; try lia.
      intros _. now exists [].
    + (* the time is up *)
      polls_norm. repeat split; try discriminate; try lia.
Qed.

(** *** Blocks that leave no event of a kind *)

Section Silence.

Variable P : Event -> bool.

(** The block leaves no event that [P] selects. *)
Definition silent {A} (m : M A) : Prop :=
  forall st r st' evs, m st = (r, st', evs) -> filter P evs = [].

Lemma silent_ret {A} (a : A) : silent (ret a).
Proof. intros st r st' evs H. now inversion H. Qed.

Lemma silent_raise {A} : silent (@raise A).
Proof. intros st r st' evs H. now inversion H. Qed.

Lemma silent_out_of_fuel {A} : silent (@out_of_fuel A).
Proof. intros st r st' evs H. now inversion H. Qed.

Lemma silent_bind {A B} (m : M A) (k : A -> M B) :
  silent m -> (forall a, silent (k a)) -> silent (bind m k).
Proof.
  intros Hm Hk st r st' evs H. apply bind_inv in H.
  destruct H as [(a & s1 & e1 & e2 & H1 & H2 & ->)|[[H1 _]|[H1 _]]].
  - rewrite filter_app, (Hm _ _ _ _ H1), (Hk a _ _ _ _ H2). reflexivity.
  - exact (Hm _ _ _ _ H1).
  - exact (Hm _ _ _ _ H1).
Qed.

Lemma silent_try {A} (body handler : M A) :
  silent body -> silent handler -> silent (try_except body handler).
Proof.
  intros Hb Hh st r st' evs H. apply try_inv in H.
  destruct H as [[H1 _]|(s1 & e1 & e2 & H1 & H2 & ->)].
  - exact (Hb _ _ _ _ H1).
  - rewrite filter_app, (Hb _ _ _ _ H1), (Hh _ _ _ _ H2). reflexivity.
Qed.

Lemma silent_call (c : Call) :
  (forall ok, P (Called c ok) = false) -> silent (call c).
Proof.
  intros Hc st r st' evs H. apply call_inv in H.
  destruct H as (ok & _ & -> & _). cbn [filter]. now rewrite Hc.
Qed.

Lemma silent_read {A} (c : Call) (prim : World -> option A * N * World) :
  (forall ok, P (Called c ok) = false) -> silent (read c prim).
Proof.
  intros Hc st r st' evs H. apply read_inv in H.
  destruct H as (_ & _ & _ & ok & ->). cbn [filter]. now rewrite Hc.
Qed.

Lemma silent_sleep (ms : N) : silent (sleep ms).
Proof.
  intros st r st' evs H. apply sleep_inv in H. now destruct H as (_ & -> & _).
Qed.

Lemma silent_time : silent time_time.
Proof. intros st r st' evs H. now inversion H. Qed.

Lemma silent_get_driver : silent get_driver.
Proof. intros st r st' evs H. now inversion H. Qed.

Lemma silent_set_driver (d : bool) : silent (set_driver d).
Proof. intros st r st' evs H. now inversion H. Qed.

Lemma silent_log (l : Level) (m : Msg) :
  P (Log l m) = false -> silent (log l m).
Proof.
  intros Hm st r st' evs H. inversion H; subst. cbn [filter].
  now rewrite Hm.
Qed.

Lemma silent_for_each {A} (xs : list A) (body : A -> M unit) :
  (forall x, silent (body x)) -> silent (for_each xs body).
Proof.
  intros Hb. induction xs as [|x xs IH]; cbn [for_each].
  - apply silent_ret.
  - apply silent_bind; [apply Hb|intros _; exact IH].
Qed.

End Silence.

Ltac silent_step :=
  first
    [ apply silent_ret
    | apply silent_raise
    | apply silent_sleep
    | apply silent_time
    | apply silent_get_driver
    | apply silent_set_driver
    | apply silent_log; reflexivity
    | apply silent_call; intros ?; reflexivity
    | apply silent_read; intros ?; reflexivity
    | apply silent_for_each; intros ?
    | apply silent_try
    | apply silent_bind; [|intros ?]
    | match goal with
      | |- silent _ (if ?b then _ else _) => destruct b
      | |- silent _ (match ?x with _ => _ end) => destruct x
      end ].

Ltac silence := repeat silent_step.

(** The events that tell the rounds of the page-load wait apart. *)
Definition is_detection (e : Event) : bool :=
  match e with
  | Log Debug ChallengeDetected => true
  | _ => false
  end.

Definition count_detections (evs : list Event) : nat :=
  length (filter is_detection evs).

Lemma count_detections_app (a b : list Event) :
  count_detections (a ++ b) = count_detections a + count_detections b.
Proof. unfold count_detections. now rewrite filter_app, length_app. Qed.

Lemma silent_count {A} (m : M A) st r st' evs :
  silent is_detection m -> m st = (r, st', evs) -> count_detections evs = 0.
Proof. intros Hm H. unfold count_detections. now rewrite (Hm _ _ _ _ H). Qed.

Lemma no_detection_emulate : silent is_detection emulate_human_behavior.
Proof. unfold emulate_human_behavior. silence. Qed.

Lemma no_detection_verify : silent is_detection verify_page_loaded.
Proof. unfold verify_page_loaded. silence. Qed.

Lemma no_detection_scan (iframes : list Frame) :
  silent is_detection (scan_iframes iframes).
Proof.
  induction iframes as [|f fs IH]; cbn [scan_iframes]; [silence|].
  unfold get_attribute_src. apply silent_bind; [silence|]. intros attr.
  destruct (is_challenge_frame _); [silence|exact IH].
Qed.

Lemma no_detection_turnstile : silent is_detection handle_turnstile.
Proof.
  unfold handle_turnstile, turnstile_body, find_iframes, page_source.
  apply silent_try; [|silence].
  apply silent_bind; [silence|]. intros _.
  apply silent_bind; [silence|]. intros _.
  apply silent_bind; [silence|]. intros iframes.
  apply silent_bind; [apply no_detection_scan|]. intros found. silence.
Qed.

Lemma no_detection_js_loop (fuel : nat) (start : N) (timeout : Z) :
  silent is_detection (js_challenge_loop fuel start timeout).
Proof.
  induction fuel as [|fuel IH]; cbn [js_challenge_loop];
    [apply silent_out_of_fuel|].
  unfold page_source. apply silent_bind; [silence|]. intros now.
  destruct (_ <? _)%Z; [|silence].
  apply silent_bind; [silence|]. intros ps.
  destruct (negb _); [silence|].
  apply silent_bind; [silence|]. intros _. exact IH.
Qed.

Lemma no_detection_js (fuel : nat) (timeout : Z) :
  silent is_detection (_wait_for_js_challenge fuel timeout).
Proof.
  unfold _wait_for_js_challenge.
  apply silent_bind; [silence|]. intros _.
  apply silent_bind; [silence|]. intros start. apply no_detection_js_loop.
Qed.

(** *** The waits *)

Lemma wait_for_js_challenge_facts (fuel : nat) (timeout : Z) st r st' evs :
  _wait_for_js_challenge fuel timeout st = (r, st', evs) ->
  count_polls evs <= rounds 1000 timeout
  /\ (r = Ok true ->
      exists pre,
        evs = pre ++ [Called PageSource true; Log Debug JsChallengePassed])
  /\ (r = Ok false ->
      (timeout <= Z.of_N (clock st') - Z.of_N (clock st))%Z)
  /\ (r = Raise -> exists pre, evs = pre ++ [Called PageSource false])
  /\ (rounds 1000 timeout < fuel -> r <> OutOfFuel)
  /\ (clock st <= clock st')%N
  /\ driver st' = driver st.
Proof.
  intros H.
  destruct (quiet_wait_for_js_challenge fuel timeout _ _ _ _ H)
    as (_ & _ & Hdriver & _).
  unfold _wait_for_js_challenge in H. exec.
  match goal with
  | Hrec : js_challenge_loop _ _ _ _ = _ |- _ =>
      apply js_challenge_loop_outcomes in Hrec; cbv zeta in Hrec;
      destruct Hrec as (Hcount & Htrue & Hfalse & Hraise & Hfuel & Hclock)
  end.
  rewrite Z.sub_diag, Z.sub_0_r in *.
  polls_norm. cbn [app].
  split; [lia|]. split; [|split; [exact Hfalse|split; [|split; [|split]]]].
  - intros Hr. destruct (Htrue Hr) as (pre & ->).
    now exists (Log Debug JsChallengeStart :: pre).
  - intros Hr. destruct (Hraise Hr) as (pre & ->).
    now exists (Log Debug JsChallengeStart :: pre).
  - exact Hfuel.
  - exact Hclock.
  - exact Hdriver.
Qed.

Lemma emulate_returns st r st' evs :
  emulate_human_behavior st = (r, st', evs) -> r = Ok tt.
Proof.
  intros H. unfold emulate_human_behavior in H. cbn [for_each] in H.
  run; reflexivity.
Qed.

Lemma handle_turnstile_returns st r st' evs :
  handle_turnstile st = (r, st', evs) -> exists passed, r = Ok passed.
Proof.
  intros H. apply handle_turnstile_takes_time in H.
  destruct H as (_ & H1 & H2). destruct r as [b| |]; [now exists b|..];
    contradiction.
Qed.

Lemma ends_with_app {A} (pre mid : list A) (last : list A) (evs : list A) :
  evs = mid ++ last -> pre ++ evs = (pre ++ mid) ++ last.
Proof. intros ->. now rewrite app_assoc. Qed.

Lemma count_detections_cons (e : Event) (evs : list Event) :
  count_detections (e :: evs)
  = (if is_detection e then 1 else 0) + count_detections evs.
Proof. unfold count_detections. cbn [filter]. now destruct (is_detection e). Qed.

(** What is known of the blocks a round went through. *)
Ltac round_facts :=
  repeat match goal with
    | H : emulate_human_behavior _ = _ |- _ =>
        pose proof (emulate_returns _ _ _ _ H);
        pose proof (silent_count _ _ _ _ _ no_detection_emulate H);
        apply (quiet_emulate true) in H; destruct H as (_ & ? & _ & _)
    | H : handle_turnstile _ = _ |- _ =>
        pose proof (silent_count _ _ _ _ _ no_detection_turnstile H);
        apply handle_turnstile_takes_time in H; destruct H as (? & ? & ?)
    | H : verify_page_loaded _ = _ |- _ =>
        pose proof (silent_count _ _ _ _ _ no_detection_verify H);
        pose proof (verify_inv _ _ _ _ H) as (? & ? & ?);
        apply (quiet_verify true) in H; destruct H as (_ & ? & _ & _)
    | H : _wait_for_js_challenge _ _ _ = _ |- _ =>
        pose proof (silent_count _ _ _ _ _ (no_detection_js _ _) H);
        apply wait_for_js_challenge_facts in H;
        destruct H as (_ & _ & ? & ? & _ & ? & _)
    end;
  repeat match goal with
    | H : ?a = ?a -> _ |- _ => specialize (H eq_refl)
    end.

Ltac detections_norm :=
  rewrite ?count_detections_app, ?count_detections_cons;
  change (count_detections []) with 0; cbn [is_detection].

(** Closing a goal [exists pre, evs = pre ++ last]. *)
Ltac ends_with_last :=
  first
    [ now exists []
    | eexists; rewrite ?app_assoc, ?app_comm_cons; reflexivity ].

Lemma page_load_loop_outcomes (fuel0 : nat) (start_time : N) (timeout : Z)
    (fuel : nat) :
  forall st r st' evs,
    page_load_loop fuel0 fuel start_time timeout st = (r, st', evs) ->
    let left := (timeout - (Z.of_N (clock st) - Z.of_N start_time))%Z in
    count_detections evs <= rounds 4000 left
    /\ (r = Ok false ->
        (exists pre, evs = pre ++ [Log Debug PageLoadTimeout])
        /\ (timeout <= Z.of_N (clock st') - Z.of_N start_time)%Z)
    /\ (r = Raise -> exists pre, evs = pre ++ [Called PageSource false])
    /\ (clock st <= clock st')%N.
Proof.
  induction fuel as [|fuel IH]; intros st r st' evs H left.
  - inversion H; subst. cbn. repeat split; try discriminate; try lia.
  - rewrite page_load_loop_S in H. unfold page_source in H.
    subst left. exec; order_facts; round_facts.
    all: try match goal with
         | Hrec : page_load_loop _ _ _ _ _ = _ |- _ =>
             apply IH in Hrec; cbv zeta in Hrec;
             destruct Hrec as (Hcount & Hfalse & Hraise & Hclock)
         end.
    all: subst; try discriminate; try congruence.
    all: detections_norm; cbn [app].
    all: try match goal with
         | Hpos : (Z.of_N (clock ?s) - Z.of_N ?t < ?T)%Z |- _ =>
             assert (1 <= rounds 4000 (T - (Z.of_N (clock s) - Z.of_N t)))
               by (apply rounds_pos; lia)
         end.
    all: try match goal with
         | Hc : _ <= rounds 4000 ?L' |- _ <= rounds 4000 ?L /\ _ =>
             pose proof (rounds_next 4000 L L' ltac:(lia) ltac:(lia)
                           ltac:(lia))
         end.
    all: split; [lia|split; [|split; [|lia]]].
    all: intros Hr; try discriminate.
    all: try (destruct (Hfalse Hr) as [(pre & ->) Htime];
              split; [ends_with_last|lia]).
    all: try (destruct (Hraise Hr) as (pre & ->); ends_with_last).
    all: try (split; [ends_with_last|lia]).
    all: try match goal with
         | Hx : exists pre, _ = pre ++ [Called PageSource false] |- _ =>
             destruct Hx as (pre & ->)
         end.
    all: try ends_with_last.
Qed.

Lemma wait_for_page_load_facts (fuel : nat) (timeout : Z) st r st' evs :
  _wait_for_page_load fuel timeout st = (r, st', evs) ->
  count_detections evs <= rounds 4000 timeout
  /\ (r = Ok false ->
      (exists pre, evs = pre ++ [Log Debug PageLoadTimeout])
      /\ (timeout <= Z.of_N (clock st') - Z.of_N (clock st))%Z)
  /\ (r = Raise -> exists pre, evs = pre ++ [Called PageSource false])
  /\ (clock st <= clock st')%N.
Proof.
  intros H. unfold _wait_for_page_load in H. exec.
  match goal with
  | Hrec : page_load_loop _ _ _ _ _ = _ |- _ =>
      apply page_load_loop_outcomes in Hrec; cbv zeta in Hrec;
      destruct Hrec as (Hcount & Hfalse & Hraise & Hclock)
  end.
  rewrite Z.sub_diag, Z.sub_0_r in *.
  detections_norm. cbn [app].
  split; [lia|]. split; [|split; [|exact Hclock]].
  - intros Hr. destruct (Hfalse Hr) as [(pre & ->) Htime].
    split; [|exact Htime]. now exists (Log Debug (PageLoadStart timeout) :: pre).
  - intros Hr. destruct (Hraise Hr) as (pre & ->).
    now exists (Log Debug (PageLoadStart timeout) :: pre).
Qed.

(** *** The Turnstile frame *)

Definition is_enter (e : Event) : bool :=
  match e with
  | Called (SwitchToFrame _) _ => true
  | _ => false
  end.

Definition is_click (e : Event) : bool :=
  match e with
  | Called ClickCheckbox _ => true
  | _ => false
  end.

Ltac in_facts :=
  intros; subst; cbn [In] in *;
  intuition (try discriminate; try congruence; eauto 8).

Lemma scan_iframes_outcomes (iframes : list Frame) :
  forall st r st' evs,
    scan_iframes iframes st = (r, st', evs) ->
    length (filter is_enter evs) <= 1
    /\ length (filter is_click evs) <= 1
    /\ (forall f, In (Called (SwitchToFrame f) true) evs ->
          exists ok, In (Called SwitchToDefaultContent ok) evs)
    /\ (r = Ok true ->
        exists f,
          In f iframes /\ In (Called (SwitchToFrame f) true) evs
          /\ In (Called SwitchToDefaultContent true) evs)
    /\ (r = Ok false ->
        evs = map (fun f => Called (GetAttributeSrc f) true) iframes)
    /\ r <> OutOfFuel.
Proof.
  induction iframes as [|iframe iframes IH]; intros st r st' evs H.
  - inversion H; subst. cbn. repeat split; try discriminate; try lia.
  - cbn [scan_iframes] in H. unfold get_attribute_src in H.
    exec.
    all: try match goal with
         | Hrec : scan_iframes _ _ = _ |- _ =>
             apply IH in Hrec;
             destruct Hrec as (Henter & Hclick & Hback & Htrue & Hfalse & Hfuel)
         end.
    all: cbn [app filter is_enter is_click length map].
    all: split; [lia|split; [lia|split; [|split; [|split; [|try discriminate; try assumption]]]]].
    all: try solve [in_facts].
    all: try solve [intros _; exists iframe; cbn [In]; auto 10].
    + intros f [Hf|Hf]; [discriminate|].
      destruct (Hback f Hf) as (ok & Hok). exists ok. now right.
    + intros Hr. destruct (Htrue Hr) as (f & Hf & Hin & Hout).
      exists f. cbn [In]. auto.
Qed.

(** X15. [handle_turnstile] returns, never sooner than two seconds after it
    was called. It enters one frame at most, and clicks once at most; once
    it has entered a frame it calls for the default content again before it
    returns. It returns True only when it has entered a frame and come back,
    has then waited a second, and a page source read after that held none of
    its phrases: not sooner than three seconds after it was called. *)
Theorem handle_turnstile_outcomes st r st' evs :
  handle_turnstile st = (r, st', evs) ->
  exists passed,
    r = Ok passed
    /\ (clock st + 2000 <= clock st')%N
    /\ driver st' = driver st
    /\ length (filter is_enter evs) <= 1
    /\ length (filter is_click evs) <= 1
    /\ (forall f, In (Called (SwitchToFrame f) true) evs ->
          exists ok, In (Called SwitchToDefaultContent ok) evs)
    /\ (passed = true ->
        (clock st + 3000 <= clock st')%N
        /\ (exists f, In (Called (SwitchToFrame f) true) evs)
        /\ In (Called SwitchToDefaultContent true) evs
        /\ exists pre,
             evs = pre ++ [Called PageSource true; Log Debug TurnstilePassed]).
Proof.
  intros H.
  destruct (quiet_handle_turnstile true _ _ _ _ H) as (_ & _ & Hdriver & _).
  destruct (handle_turnstile_returns _ _ _ _ H) as (passed & ->).
  pose proof (handle_turnstile_takes_time _ _ _ _ H) as (Htime & _ & _).
  exists passed. split; [reflexivity|]. split; [exact Htime|].
  split; [exact Hdriver|]. clear Htime Hdriver.
  unfold handle_turnstile, turnstile_body, find_iframes, page_source in H.
  exec.
  all: try match goal with
       | Hscan : scan_iframes _ _ = _ |- _ =>
           pose proof (quiet_scan_iframes true _ _ _ _ _ Hscan)
             as (_ & Hclock & _ & _);
           apply scan_iframes_outcomes in Hscan;
           destruct Hscan as (Henter & Hclick & Hback & Htrue & Hfalse & _)
       end.
  all: repeat match goal with
         | Hn : negb ?b = _ |- _ => destruct b; try discriminate
         end.
  all: repeat match goal with
         | Hx : ?a = ?a -> _ |- _ => specialize (Hx eq_refl)
         end.
  all: cbn [app]; rewrite ?app_nil_r.
  all: split;
    [cbn [filter is_enter]; rewrite ?filter_app, ?length_app;
     cbn [filter is_enter length]; lia|].
  all: split;
    [cbn [filter is_click]; rewrite ?filter_app, ?length_app;
     cbn [filter is_click length]; lia|].
  all: split;
    [intros f Hin; cbn [In] in Hin; rewrite ?in_app_iff in Hin;
     cbn [In] in Hin;
     first
       [ solve [exfalso; intuition discriminate]
       | match goal with
         | Hb : forall f, In _ ?l -> _ |- _ =>
             assert (Hf : In (Called (SwitchToFrame f) true) l)
               by (intuition discriminate);
             destruct (Hb f Hf) as (ok & Hok); exists ok;
             cbn [In]; rewrite ?in_app_iff; auto
         end ]|].
  all: intros Hp; try discriminate.
  destruct Htrue as (f & _ & Hin & Hout).
  split; [lia|]. split; [|split].
  - exists f. cbn [In]. rewrite in_app_iff. auto.
  - cbn [In]. rewrite in_app_iff. auto.
  - ends_with_last.
Qed.

Lemma log_browser_info_returns st r st' evs :
  log_browser_info st = (r, st', evs) -> r = Ok tt.
Proof.
  intros H. unfold log_browser_info in H. cbn [for_each seq] in H.
  run; reflexivity.
Qed.

(** *** One browser at a time *)

(** Following [self.driver] through the events of a run: [uc.Chrome] sets
    it when it returns, and may only be called while it is None;
    [driver.quit()] may only be called while it is set, and unsets it when it
    returns. [None] when a call comes out of turn. *)
Fixpoint track (alive : bool) (evs : list Event) : option bool :=
  match evs with
  | [] => Some alive
  | Called NewChrome ok :: evs' => if alive then None else track ok evs'
  | Called Quit ok :: evs' => if alive then track (negb ok) evs' else None
  | _ :: evs' => track alive evs'
  end.

Lemma track_app (a b : list Event) :
  forall alive,
    track alive (a ++ b)
    = match track alive a with
      | Some alive' => track alive' b
      | None => None
      end.
Proof.
  induction a as [|e a IH]; intros alive; [reflexivity|].
  destruct e as [[] ok|l m]; cbn [app track]; try apply IH;
    destruct alive; try reflexivity; apply IH.
Qed.

Lemma track_markers (evs : list Event) :
  forall alive, track alive (markers evs) = track alive evs.
Proof.
  induction evs as [|e evs IH]; intros alive; [reflexivity|].
  rewrite markers_cons.
  destruct e as [[| | | |[]| | | | | | | | |] ok|[] []];
    cbn [is_marker track]; try apply IH;
    destruct alive; try reflexivity; apply IH.
Qed.

Lemma shape_track (url : str) (attempt : nat) (max_retries : Z)
    alive r alive' ms :
  attempt_shape url attempt max_retries alive r alive' ms ->
  track alive ms = Some alive' /\ (r = Ok true -> alive' = true).
Proof.
  intros H. inversion H; subst; clear H;
    repeat match goal with
      | T : teardown_shape _ _ _ _ _ _ |- _ => inversion T; subst; clear T
      end;
    unfold created, broken_clearings, failed_record, error_record in *;
    repeat match goal with
      | Hin : In _ (_ :: _) |- _ => destruct Hin as [<-|Hin]
      | Hin : In _ [] |- _ => destruct Hin
      end;
    try destruct alive; try destruct alive';
    cbn [app track negb]; split; try reflexivity; try discriminate;
    try congruence.
Qed.

Lemma visit_attempts_track (fuel : nat) (url : str) (max_retries : Z)
    (attempts : list nat) :
  forall st r st' evs,
    visit_attempts fuel url attempts max_retries st = (r, st', evs) ->
    r <> OutOfFuel ->
    track (driver st) evs = Some (driver st')
    /\ (r = Ok true -> driver st' = true).
Proof.
  induction attempts as [|attempt attempts IH]; intros st r st' evs H Hr.
  - inversion H; subst. split; [reflexivity|discriminate].
  - cbn [visit_attempts] in H. apply bind_inv in H.
    destruct H as [(done & s1 & e1 & e2 & H1 & H2 & ->)|[[H1 ->]|[_ ->]]];
      [| |congruence].
    + destruct (visit_attempt_shape url attempt max_retries fuel _ _ _ _ H1)
        as (_ & Hshape).
      destruct (shape_track _ _ _ _ _ _ _ (Hshape ltac:(discriminate)))
        as (Htrack & Htrue).
      rewrite track_app, <- (track_markers e1), Htrack.
      destruct done.
      * inversion H2; subst. split; [reflexivity|]. intros _. now apply Htrue.
      * now apply IH.
    + destruct (visit_attempt_shape url attempt max_retries fuel _ _ _ _ H1)
        as (_ & Hshape).
      destruct (shape_track _ _ _ _ _ _ _ (Hshape ltac:(discriminate)))
        as (Htrack & _).
      rewrite <- track_markers. split; [exact Htrack|discriminate].
Qed.

(** *** Around a visit: reading the page, closing the browser, logging

    The methods around [visit_page] write log records of their own; their
    runs interleave those records with the events of the driver. *)

(** The records, by what they say: the debug record of [close], its error
    record, the error record of [get_page_content], the debug record of
    [log_partial_page_source] with the label, the length of the page and the
    snippet, its error record, and the warning of [log_cloudflare_status]
    with the indicators found. *)
Inductive Note :=
| BrowserClosed
| CloseFailed
| PageContentFailed
| PageSourceSnippet (label : str) (length : nat) (snippet : str)
| PageSourceFailed (label : str)
| CloudflareDetected (detected : list str).

Inductive Trace :=
| Did (e : Event)
| Noted (n : Note).

Definition Session (A : Type) : Type :=
  St -> outcome A * St * list Trace.

Definition lift {A} (m : M A) : Session A :=
  fun st => match m st with (r, st', evs) => (r, st', map Did evs) end.

Definition note (n : Note) : Session unit :=
  fun st => (Ok tt, st, [Noted n]).

Definition session_ret {A} (a : A) : Session A := fun st => (Ok a, st, []).

Definition session_bind {A B} (m : Session A) (k : A -> Session B)
    : Session B :=
  fun st =>
    match m st with
    | (Ok a, st1, e1) =>
        match k a st1 with
        | (r, st2, e2) => (r, st2, e1 ++ e2)
        end
    | (Raise, st1, e1) => (Raise, st1, e1)
    | (OutOfFuel, st1, e1) => (OutOfFuel, st1, e1)
    end.

(** [try: body except Exception: handler]. *)
Definition session_try {A} (body handler : Session A) : Session A :=
  fun st =>
    match body st with
    | (Raise, st1, e1) =>
        match handler st1 with
        | (r, st2, e2) => (r, st2, e1 ++ e2)
        end
    | other => other
    end.

(** [try: body finally: final]: [final] runs however [body] ends, and the
    outcome is that of [body] unless [final] raises. *)
Definition session_finally {A} (body : Session A) (final : Session unit)
    : Session A :=
  fun st =>
    match body st with
    | (OutOfFuel, st1, e1) => (OutOfFuel, st1, e1)
    | (r, st1, e1) =>
        match final st1 with
        | (Ok _, st2, e2) => (r, st2, e1 ++ e2)
        | (Raise, st2, e2) => (Raise, st2, e1 ++ e2)
        | (OutOfFuel, st2, e2) => (OutOfFuel, st2, e1 ++ e2)
        end
    end.

(** [CloudflareBypass.get_page_content]. *)
Definition get_page_content : Session (option str) :=
  session_try
    (session_bind (lift get_driver) (fun alive =>
       if alive : bool
       then session_bind (lift page_source) (fun ps => session_ret (Some ps))
       else session_ret None))
    (session_bind (note PageContentFailed) (fun _ => session_ret None)).

(** [CloudflareBypass.close]. *)
Definition close : Session unit :=
  session_finally
    (session_try
       (session_bind (lift get_driver) (fun alive =>
          if alive : bool
          then session_bind (lift (call Quit)) (fun _ => note BrowserClosed)
          else session_ret tt))
       (note CloseFailed))
    (lift (set_driver false)).

(** The separator of the two ends of a long page source: a line feed, three
    dots, a line feed. *)
Definition ELLIPSIS : str := [LF; 46; 46; 46; LF]%N.

(** The snippet [log_partial_page_source] writes. *)
Definition snippet (ps : str) (length : Z) : str :=
  if (Z.of_nat (List.length ps) <=? length * 2)%Z then ps
  else slice_to ps length ++ ELLIPSIS ++ slice_from ps (- length).

(** [DebugLogger.log_partial_page_source(driver, label, length)], on the
    browser of the session. *)
Definition log_partial_page_source (label : str) (length : Z)
    : Session unit :=
  session_try
    (session_bind (lift page_source) (fun ps =>
       note (PageSourceSnippet label (List.length ps) (snippet ps length))))
    (note (PageSourceFailed label)).

(** [DebugLogger.log_cloudflare_status(page_source)]. *)
Definition cloudflare_indicators : list str :=
  [of_string "checking your browser";
   of_string "ddos protection";
   of_string "security check to access";
   of_string "please wait...";
   of_string "just a moment, please...";
   of_string "please stand by, while we are checking your browser";
   of_string "please enable cookies";
   phrase_human_check;
   phrase_security_review].

Definition log_cloudflare_status (page_source : str) : Session bool :=
  let detected :=
    filter (fun keyword => contains keyword (lower page_source))
      cloudflare_indicators in
  if truthy detected
  then session_bind (note (CloudflareDetected detected))
         (fun _ => session_ret true)
  else session_ret false.

(** *** Phrases inside phrases *)

Lemma starts_with_inv (needle hay : str) :
  starts_with needle hay = true -> exists post, hay = needle ++ post.
Proof.
  revert hay. induction needle as [|a needle IH]; intros hay H.
  - now exists hay.
  - destruct hay as [|b hay]; [discriminate|]. cbn [starts_with] in H.
    apply andb_true_iff in H. destruct H as [Hab Hrest].
    apply N.eqb_eq in Hab. subst b.
    destruct (IH hay Hrest) as (post & ->). now exists post.
Qed.

Lemma starts_with_app (needle post : str) :
  starts_with needle (needle ++ post) = true.
Proof.
  induction needle as [|a needle IH]; [reflexivity|].
  cbn [app starts_with]. now rewrite N.eqb_refl, IH.
Qed.

Lemma contains_inv (needle hay : str) :
  contains needle hay = true -> exists pre post, hay = pre ++ needle ++ post.
Proof.
  induction hay as [|b hay IH]; intros H.
  - cbn [contains] in H. rewrite orb_false_r in H.
    apply starts_with_inv in H. destruct H as (post & H).
    exists [], post. exact H.
  - cbn [contains] in H. apply orb_true_iff in H. destruct H as [H|H].
    + apply starts_with_inv in H. destruct H as (post & H).
      exists [], post. exact H.
    + destruct (IH H) as (pre & post & ->). now exists (b :: pre), post.
Qed.

Lemma contains_app (pre needle post : str) :
  contains needle (pre ++ needle ++ post) = true.
Proof.
  induction pre as [|b pre IH].
  - cbn [app]. destruct (needle ++ post) eqn:E; cbn [contains];
      rewrite <- E, starts_with_app; reflexivity.
  - cbn [app contains]. rewrite IH. apply orb_true_r.
Qed.

Lemma contains_trans (a b c : str) :
  contains a b = true -> contains b c = true -> contains a c = true.
Proof.
  intros Hab Hbc.
  destruct (contains_inv _ _ Hab) as (p1 & q1 & ->).
  destruct (contains_inv _ _ Hbc) as (p2 & q2 & ->).
  replace (p2 ++ (p1 ++ a ++ q1) ++ q2) with ((p2 ++ p1) ++ a ++ (q1 ++ q2))
    by (now rewrite <- !app_assoc).
  apply contains_app.
Qed.

(** Each indicator of the logger, the two about DDoS protection and cookies
    apart, holds a phrase of the page-load wait. *)
Lemma indicator_holds_phrase (keyword : str) :
  In keyword cloudflare_indicators ->
  keyword = of_string "ddos protection"
  \/ keyword = of_string "please enable cookies"
  \/ exists phrase,
       In phrase challenge_phrases /\ contains phrase keyword = true.
Proof.
  unfold cloudflare_indicators. cbn [In].
  intros [<-|[<-|[<-|[<-|[<-|[<-|[<-|[<-|[<-|[]]]]]]]]]].
  - right. right. exists (of_string "checking your browser").
    split; [cbn; tauto|reflexivity].
  - now left.
  - right. right. exists (of_string "security check").
    split; [cbn; tauto|reflexivity].
  - right. right. exists (of_string "please wait").
    split; [cbn; tauto|reflexivity].
  - right. right. exists (of_string "just a moment").
    split; [cbn; tauto|reflexivity].
  - right. right. exists (of_string "checking your browser").
    split; [cbn; tauto|reflexivity].
  - right. now left.
  - right. right. exists phrase_human_check.
    split; [cbn; tauto|reflexivity].
  - right. right. exists phrase_security_review.
    split; [cbn; tauto|reflexivity].
Qed.

(** *** The properties *)

(** X13. Whatever the browser does, [emulate_human_behavior],
    [log_browser_info], [verify_page_loaded] and [handle_turnstile] return:
    they let no exception out, need no fuel, and leave [self.driver] as it
    was. [verify_page_loaded] makes the one call that waits for a body
    element and returns whether it returned. *)
Theorem helpers_never_raise (st : St) :
  (forall r st' evs,
      emulate_human_behavior st = (r, st', evs) ->
      r = Ok tt /\ driver st' = driver st)
  /\ (forall r st' evs,
        log_browser_info st = (r, st', evs) ->
        r = Ok tt /\ driver st' = driver st)
  /\ (forall r st' evs,
        verify_page_loaded st = (r, st', evs) ->
        (exists loaded, r = Ok loaded /\ evs = [Called WaitForBody loaded])
        /\ driver st' = driver st)
  /\ (forall r st' evs,
        handle_turnstile st = (r, st', evs) ->
        (exists passed, r = Ok passed) /\ driver st' = driver st).
Proof.
  split; [|split; [|split]]; intros r st' evs H.
  - split; [exact (emulate_returns _ _ _ _ H)|].
    now destruct (quiet_emulate true _ _ _ _ H) as (_ & _ & Hd & _).
  - split; [exact (log_browser_info_returns _ _ _ _ H)|].
    now destruct (quiet_log_browser_info true _ _ _ _ H) as (_ & _ & Hd & _).
  - split; [exact (verify_inv _ _ _ _ H)|].
    now destruct (quiet_verify true _ _ _ _ H) as (_ & _ & Hd & _).
  - split; [exact (handle_turnstile_returns _ _ _ _ H)|].
    now destruct (quiet_handle_turnstile true _ _ _ _ H) as (_ & _ & Hd & _).
Qed.

(** X14. [_create_driver] returns exactly when [uc.Chrome] does: a failure
    to block the resource URLs is logged and otherwise ignored, and when
    [uc.Chrome] raises the error is logged, no command is sent, and the
    exception goes on. [_inject_stealth_scripts] raises exactly when its
    command does, after logging the error. Neither touches [self.driver]. *)
Theorem driver_setup_outcomes (st : St) :
  (forall r st' evs,
      _create_driver st = (r, st', evs) ->
      driver st' = driver st
      /\ ((r = Ok tt
           /\ exists blocked,
                evs = [Log Debug CreateDriverStart; Called NewChrome true;
                       Log Debug CreateDriverDone;
                       Called (ExecuteCdpCmd SetBlockedURLs) blocked;
                       Log Debug (if blocked : bool then ResourcesBlocked
                                  else ResourceBlockFailed)])
          \/ (r = Raise
              /\ evs = [Log Debug CreateDriverStart; Called NewChrome false;
                        Log Error CreateDriverFailed])))
  /\ (forall r st' evs,
        _inject_stealth_scripts st = (r, st', evs) ->
        driver st' = driver st
        /\ ((r = Ok tt
             /\ evs = [Log Debug StealthStart;
                       Called (ExecuteCdpCmd AddScriptOnNewDocument) true;
                       Log Debug StealthDone])
            \/ (r = Raise
                /\ evs = [Log Debug StealthStart;
                          Called (ExecuteCdpCmd AddScriptOnNewDocument) false;
                          Log Error StealthFailed]))).
Proof.
  split; intros r st' evs H.
  - unfold _create_driver in H. run; cbn [app].
    all: split; [congruence|].
    all: first
           [ left; split; [reflexivity|]; exists true; reflexivity
           | left; split; [reflexivity|]; exists false; reflexivity
           | right; split; reflexivity ].
  - unfold _inject_stealth_scripts in H. run; cbn [app].
    all: split; [congruence|].
    all: first
           [ left; split; reflexivity
           | right; split; reflexivity ].
Qed.

(** X16. [_wait_for_js_challenge] with a timeout of [timeout] milliseconds
    reads the page source at most once for every second of the timeout
    begun, so that many rounds and one are all the fuel it needs; with a
    timeout that is not positive it reads nothing. It returns True right
    after a read that returned, False only when the timeout has passed, and
    the only exception it lets out is one that reading the page source
    raised. It leaves [self.driver] as it was. *)
Theorem wait_for_js_challenge_outcomes (fuel : nat) (timeout : Z)
    st r st' evs :
  _wait_for_js_challenge fuel timeout st = (r, st', evs) ->
  count_polls evs <= Z.to_nat ((timeout + 999) / 1000)
  /\ (r = Ok true ->
      exists pre,
        evs = pre ++ [Called PageSource true; Log Debug JsChallengePassed])
  /\ (r = Ok false ->
      (timeout <= Z.of_N (clock st') - Z.of_N (clock st))%Z)
  /\ (r = Raise -> exists pre, evs = pre ++ [Called PageSource false])
  /\ (Z.to_nat ((timeout + 999) / 1000) < fuel -> r <> OutOfFuel)
  /\ driver st' = driver st.
Proof.
  intros H. apply wait_for_js_challenge_facts in H. unfold rounds in H.
  replace (timeout + 1000 - 1)%Z with (timeout + 999)%Z in H by lia.
  tauto.
Qed.

(** X17. [_wait_for_page_load] with a timeout of [timeout] milliseconds
    detects an interstitial, and then handles it, at most once for every
    four seconds of the timeout begun: four times in the fifteen seconds
    [visit_page] gives it. It returns False only when the timeout has
    passed, after the time-out record; and the only exception it lets out is
    one that reading the page source raised. *)
Theorem wait_for_page_load_outcomes (fuel : nat) (timeout : Z)
    st r st' evs :
  _wait_for_page_load fuel timeout st = (r, st', evs) ->
  count_detections evs <= Z.to_nat ((timeout + 3999) / 4000)
  /\ (timeout = 15000%Z -> count_detections evs <= 4)
  /\ (r = Ok false ->
      (exists pre, evs = pre ++ [Log Debug PageLoadTimeout])
      /\ (timeout <= Z.of_N (clock st') - Z.of_N (clock st))%Z)
  /\ (r = Raise -> exists pre, evs = pre ++ [Called PageSource false])
  /\ driver st' = driver st.
Proof.
  intros H.
  destruct (quiet_wait_for_page_load fuel timeout _ _ _ _ H)
    as (_ & _ & Hdriver & _).
  apply wait_for_page_load_facts in H. unfold rounds in H.
  replace (timeout + 4000 - 1)%Z with (timeout + 3999)%Z in H by lia.
  destruct H as (Hcount & Hfalse & Hraise & _).
  split; [exact Hcount|]. split; [|tauto].
  intros ->. exact Hcount.
Qed.

(** X18. Through a whole [visit_page], [self.driver] is set exactly while a
    browser that [uc.Chrome] returned has not been quit: [uc.Chrome] is
    called only while there is none, [driver.quit()] only while there is
    one. And after a visit that returned True there is one. *)
Theorem visit_page_one_browser (fuel : nat) (url : str) (max_retries : Z)
    st r st' evs :
  visit_page fuel url max_retries st = (r, st', evs) ->
  r <> OutOfFuel ->
  track (driver st) evs = Some (driver st')
  /\ (r = Ok true -> driver st' = true).
Proof. apply visit_attempts_track. Qed.

(** X19. [close] never raises, whatever [driver.quit()] does, and always
    leaves [self.driver] None: it quits the browser when there is one, once,
    and logs whether that worked; without a browser it does nothing, so
    closing a second time does nothing. *)
Theorem close_always_clears st r st' evs :
  close st = (r, st', evs) ->
  r = Ok tt
  /\ driver st' = false
  /\ ((driver st = false /\ evs = [])
      \/ (driver st = true
          /\ (evs = [Did (Called Quit true); Noted BrowserClosed]
              \/ evs = [Did (Called Quit false); Noted CloseFailed])))
  /\ close st' = (Ok tt, st', []).
Proof.
  unfold close, session_finally, session_try, session_bind, lift, note,
    session_ret, get_driver, set_driver, call.
  destruct st as [w c alive]. cbn [driver world clock].
  destruct alive.
  - cbn. destruct (driver_call Quit w) as [[[] dt] w']; cbn;
      intros H; inversion H; subst; cbn;
      (split; [reflexivity|split; [reflexivity|split; [|reflexivity]]]);
      right; split; auto.
  - cbn. intros H. inversion H; subst. cbn. auto 6.
Qed.

(** X20. [get_page_content] never raises and leaves [self.driver] as it
    was. Without a browser it returns None and asks nothing; with one it is
    the page source the browser gives, or None, after an error record, when
    reading it raised. *)
Theorem get_page_content_outcomes st r st' evs :
  get_page_content st = (r, st', evs) ->
  driver st' = driver st
  /\ ((driver st = false /\ r = Ok None /\ evs = [] /\ st' = st)
      \/ (driver st = true
          /\ ((exists ps elapsed w,
                  driver_page_source (world st) = (Some ps, elapsed, w)
                  /\ r = Ok (Some ps)
                  /\ evs = [Did (Called PageSource true)])
              \/ (r = Ok None
                  /\ evs = [Did (Called PageSource false);
                            Noted PageContentFailed])))).
Proof.
  unfold get_page_content, session_try, session_bind, lift, note,
    session_ret, get_driver, page_source, read.
  destruct st as [w c alive]. cbn [driver world clock].
  destruct alive.
  - cbn. destruct (driver_page_source w) as [[[ps|] dt] w'] eqn:E; cbn;
      intros H; inversion H; subst; cbn; (split; [reflexivity|]);
      right; split; [reflexivity| |reflexivity|].
    + left. exists ps, dt, w'. auto.
    + right. auto.
  - cbn. intros H. inversion H; subst. cbn. auto 6.
Qed.

(** X21. [log_cloudflare_status] never raises and changes nothing; it
    returns True exactly when the lowered page source holds one of its nine
    indicators. Seven of the nine hold a phrase of the page-load wait: a page
    that the logger flags, and that speaks neither of DDoS protection nor of
    enabling cookies, is one the wait takes for an interstitial. *)
Theorem cloudflare_status_and_challenge_phrases (page_source : str)
    (st : St) :
  exists flagged evs,
    log_cloudflare_status page_source st = (Ok flagged, st, evs)
    /\ (flagged = true <->
        exists keyword,
          In keyword cloudflare_indicators
          /\ contains keyword (lower page_source) = true)
    /\ (flagged = true ->
        contains (of_string "ddos protection") (lower page_source) = false ->
        contains (of_string "please enable cookies") (lower page_source)
        = false ->
        any_in challenge_phrases (lower page_source) = true).
Proof.
  unfold log_cloudflare_status. cbv zeta.
  set (detected := filter _ cloudflare_indicators).
  assert (Hdetected : truthy detected = true <->
            exists keyword,
              In keyword cloudflare_indicators
              /\ contains keyword (lower page_source) = true).
  { split.
    - destruct detected as [|keyword rest] eqn:E; [discriminate|].
      intros _. exists keyword.
      apply (filter_In (fun k => contains k (lower page_source))).
      fold detected. rewrite E. now left.
    - intros (keyword & Hin & Hc).
      assert (Hk : In keyword detected)
        by (unfold detected; apply filter_In; now split).
      destruct detected; [destruct Hk|reflexivity]. }
  exists (truthy detected),
    (if truthy detected then [Noted (CloudflareDetected detected)] else []).
  split; [destruct (truthy detected); reflexivity|].
  split; [exact Hdetected|].
  intros Hflag Hddos Hcookies. apply Hdetected in Hflag.
  destruct Hflag as (keyword & Hin & Hc).
  destruct (indicator_holds_phrase keyword Hin)
    as [->|[->|(phrase & Hphrase & Hsub)]]; [congruence..|].
  unfold any_in. apply existsb_exists. exists phrase.
  split; [exact Hphrase|]. now apply (contains_trans phrase keyword).
Qed.

Lemma slice_from_zero {A} (s : list A) : slice_from s 0 = s.
Proof. unfold slice_from, slice_bound. cbn. now rewrite Nat.min_0_r. Qed.

Lemma slice_to_zero {A} (s : list A) : slice_to s 0 = [].
Proof. unfold slice_to, slice_bound. cbn. now rewrite Nat.min_0_r. Qed.

(** X22. [log_partial_page_source] never raises: it logs a snippet of the
    page source, or a failure when reading it raised. For a [length] of at
    least one the snippet is the whole page when that has at most twice
    [length] characters, and else its first and its last [length] characters
    around the five characters of the separator. For a [length] of zero the
    snippet of a page that is not empty is the separator followed by the
    whole page. *)
Theorem partial_page_source_snippet (label : str) (length : Z) st r st' evs :
  log_partial_page_source label length st = (r, st', evs) ->
  r = Ok tt
  /\ (evs = [Did (Called PageSource false); Noted (PageSourceFailed label)]
      \/ exists ps,
           evs = [Did (Called PageSource true);
                  Noted (PageSourceSnippet label (List.length ps)
                           (snippet ps length))]
           /\ ((Z.of_nat (List.length ps) <= 2 * length)%Z ->
               snippet ps length = ps)
           /\ ((1 <= length)%Z ->
               (2 * length < Z.of_nat (List.length ps))%Z ->
               snippet ps length
               = firstn (Z.to_nat length) ps ++ ELLIPSIS
                   ++ skipn (List.length ps - Z.to_nat length) ps
               /\ Z.of_nat (List.length (snippet ps length))
                  = (2 * length + 5)%Z)
           /\ (length = 0%Z -> ps <> [] ->
               snippet ps length = ELLIPSIS ++ ps)).
Proof.
  intros H.
  unfold log_partial_page_source, session_try, session_bind, lift, note,
    page_source, read in H.
  destruct (driver_page_source (world st)) as [[[ps|] dt] w]; cbn in H;
    inversion H; subst; clear H; (split; [reflexivity|]);
    [right|now left].
  exists ps. split; [reflexivity|]. unfold snippet.
  unfold str, char in *. split; [|split].
  - intros Hshort.
    destruct (Z.leb_spec (Z.of_nat (List.length ps)) (length * 2));
      [reflexivity|lia].
  - intros Hone Hlong.
    destruct (Z.leb_spec (Z.of_nat (List.length ps)) (length * 2)); [lia|].
    unfold slice_to, slice_from, slice_bound.
    destruct (Z.ltb_spec length 0); [lia|].
    destruct (Z.ltb_spec (- length) 0); [|lia].
    rewrite Nat.min_r by lia.
    replace (Z.to_nat (Z.max 0 (Z.of_nat (List.length ps) + - length)))
      with (List.length ps - Z.to_nat length) by lia.
    split; [reflexivity|].
    rewrite !length_app, length_firstn, length_skipn. cbn [List.length ELLIPSIS].
    unfold ELLIPSIS. cbn [List.length]. lia.
  - intros -> Hne.
    destruct (Z.leb_spec (Z.of_nat (List.length ps)) (0 * 2)) as [Hle|_].
    + destruct ps; [contradiction|simpl in Hle; lia].
    + change (- 0)%Z with 0%Z.
      now rewrite slice_from_zero, slice_to_zero.
Qed.

(** *** The verification and the reported success *)

Definition is_verification (e : Event) : bool :=
  match e with
  | Called WaitForBody _ => true
  | _ => false
  end.

Lemma unverified_emulate : silent is_verification emulate_human_behavior.
Proof. unfold emulate_human_behavior. silence. Qed.

Lemma unverified_scan (iframes : list Frame) :
  silent is_verification (scan_iframes iframes).
Proof.
  induction iframes as [|f fs IH]; cbn [scan_iframes]; [silence|].
  unfold get_attribute_src. apply silent_bind; [silence|]. intros attr.
  destruct (is_challenge_frame _); [silence|exact IH].
Qed.

Lemma unverified_turnstile : silent is_verification handle_turnstile.
Proof.
  unfold handle_turnstile, turnstile_body, find_iframes, page_source.
  apply silent_try; [|silence].
  apply silent_bind; [silence|]. intros _.
  apply silent_bind; [silence|]. intros _.
  apply silent_bind; [silence|]. intros iframes.
  apply silent_bind; [apply unverified_scan|]. intros found. silence.
Qed.

Lemma unverified_js_loop (fuel : nat) (start : N) (timeout : Z) :
  silent is_verification (js_challenge_loop fuel start timeout).
Proof.
  induction fuel as [|fuel IH]; cbn [js_challenge_loop];
    [apply silent_out_of_fuel|].
  unfold page_source. apply silent_bind; [silence|]. intros now.
  destruct (_ <? _)%Z; [|silence].
  apply silent_bind; [silence|]. intros ps.
  destruct (negb _); [silence|].
  apply silent_bind; [silence|]. intros _. exact IH.
Qed.

Lemma unverified_js (fuel : nat) (timeout : Z) :
  silent is_verification (_wait_for_js_challenge fuel timeout).
Proof.
  unfold _wait_for_js_challenge.
  apply silent_bind; [silence|]. intros _.
  apply silent_bind; [silence|]. intros start. apply unverified_js_loop.
Qed.

Lemma unverified_ensure_driver : silent is_verification ensure_driver.
Proof.
  unfold ensure_driver, _create_driver, _inject_stealth_scripts,
    log_browser_info.
  silence.
Qed.

Lemma unverified_clear (remaining : bool) :
  silent is_verification (clear_session_state remaining).
Proof. unfold clear_session_state. silence. Qed.

Lemma unverified_drop (remaining : bool) :
  silent is_verification (drop_session remaining).
Proof. unfold drop_session. silence. Qed.

(** How a run that reports success ends, on each of the two paths: after the
    page source read that held no interstitial phrase, or after the wait for
    the JS challenge that followed a detected challenge, comes the call that
    waits for a body element, whatever it gave, with its debug record when it
    returned, and then [last]. The verification was not called before. *)
Definition plain_tail (ok : bool) : list Event :=
  [Called PageSource true; Called WaitForBody ok]
    ++ (if ok then [Log Debug PageLoaded] else []).

Definition challenge_tail (ok : bool) : list Event :=
  [Called PageSource true; Log Debug JsChallengePassed;
   Called WaitForBody ok]
    ++ (if ok then [Log Debug ChallengeCleared] else []).

Definition reported_after (last evs : list Event) : Prop :=
  exists pre ok,
    filter is_verification pre = []
    /\ (evs = pre ++ plain_tail ok ++ last
        \/ (In (Log Debug ChallengeDetected) pre
            /\ evs = pre ++ challenge_tail ok ++ last)).

Lemma reported_after_app (last e evs : list Event) :
  filter is_verification e = [] ->
  reported_after last evs -> reported_after last (e ++ evs).
Proof.
  intros He (pre & ok & Hpre & H). exists (e ++ pre), ok. split.
  - now rewrite filter_app, He, Hpre.
  - destruct H as [->|[Hin ->]]; [left|right; split].
    + now rewrite app_assoc.
    + apply in_or_app. now right.
    + now rewrite app_assoc.
Qed.

(** Closing a goal [filter is_verification evs = []] from what is known of
    the pieces of [evs]. *)
Lemma reported_after_cons (last : list Event) (e : Event)
    (evs : list Event) :
  is_verification e = false ->
  reported_after last evs -> reported_after last (e :: evs).
Proof.
  intros He. apply (reported_after_app last [e]). cbn [filter].
  now rewrite He.
Qed.

(** Closing a goal [filter is_verification evs = []] from what is known of
    the pieces of [evs]. *)
Ltac unverified :=
  repeat progress (cbn [filter is_verification app]; rewrite ?filter_app);
  repeat match goal with
    | H : filter is_verification _ = [] |- _ => rewrite H
    end;
  reflexivity.

(** Going down to the part of the events that reports. *)
Ltac reported_rest :=
  repeat first
    [ apply reported_after_cons; [reflexivity|]
    | apply reported_after_app; [assumption|] ].

Lemma page_load_loop_reports (fuel0 : nat) (start_time : N) (timeout : Z)
    (fuel : nat) :
  forall st r st' evs,
    page_load_loop fuel0 fuel start_time timeout st = (r, st', evs) ->
    (r = Ok true -> reported_after [] evs)
    /\ (r <> Ok true -> filter is_verification evs = []).
Proof.
  induction fuel as [|fuel IH]; intros st r st' evs H.
  - inversion H; subst. split; [discriminate|reflexivity].
  - rewrite page_load_loop_S in H. unfold page_source in H.
    exec.
    all: repeat match goal with
      | He : emulate_human_behavior _ = _ |- _ =>
          apply unverified_emulate in He
      | He : handle_turnstile _ = _ |- _ =>
          apply unverified_turnstile in He
      | He : _wait_for_js_challenge _ _ _ = (?r, _, _) |- _ =>
          pose proof (unverified_js _ _ _ _ _ _ He);
          apply wait_for_js_challenge_facts in He;
          destruct He as (_ & ? & _)
      | He : verify_page_loaded _ = _ |- _ =>
          apply verify_inv in He; destruct He as (? & ? & ?)
      | Hrec : page_load_loop _ _ _ _ _ = _ |- _ =>
          apply IH in Hrec; destruct Hrec as (? & ?)
      end.
    all: subst; try discriminate; try congruence.
    all: repeat match goal with
      | Heq : Ok _ = Ok _ |- _ => injection Heq as Heq; subst
      | Hjs : Ok true = Ok true -> exists pre, _ = _ |- _ =>
          destruct (Hjs eq_refl) as (? & ->); clear Hjs
      | Hf : filter is_verification (_ ++ _) = [] |- _ =>
          rewrite filter_app in Hf; cbn [filter is_verification] in Hf;
          rewrite app_nil_r in Hf
      end.
    all: cbn [app]; rewrite ?app_nil_r.
    all: split; intros Hr; try discriminate; try congruence.
    all: try solve [unverified].
    all: try solve [
      match goal with
      | Hrec : ?r <> Ok true -> filter is_verification _ = [] |- _ =>
          specialize (Hrec Hr)
      end; unverified ].
    all: try solve [
      reported_rest;
      match goal with
      | Hrec : ?r = Ok true -> reported_after [] _ |- _ => exact (Hrec Hr)
      end ].
    all: try solve [
      match goal with
      | |- reported_after [] [_; Called WaitForBody ?ok] =>
          exists [], ok; split; [reflexivity|now left]
      | |- reported_after [] [_; Called WaitForBody ?ok; _] =>
          exists [], ok; split; [reflexivity|now left]
      end ].
    all: match goal with
      | |- reported_after []
             (?a :: ?b :: ?e1 ++ ?e2 ++ (?pre ++ _) ++ Called _ ?ok :: _) =>
          exists (a :: b :: e1 ++ e2 ++ pre), ok;
          split; [unverified|right; split; [cbn [In]; tauto|]];
          cbn [challenge_tail app]; rewrite <- !app_assoc; reflexivity
      end.
Qed.

Lemma wait_for_page_load_reports (fuel : nat) (timeout : Z) st r st' evs :
  _wait_for_page_load fuel timeout st = (r, st', evs) ->
  (r = Ok true -> reported_after [] evs)
  /\ (r <> Ok true -> filter is_verification evs = []).
Proof.
  intros H. unfold _wait_for_page_load in H. exec.
  match goal with
  | Hrec : page_load_loop _ _ _ _ _ = _ |- _ =>
      apply page_load_loop_reports in Hrec; destruct Hrec as (Hyes & Hno)
  end.
  cbn [app]. split; intros Hr.
  - reported_rest. exact (Hyes Hr).
  - specialize (Hno Hr). unverified.
Qed.

Lemma reported_after_last (last evs : list Event) :
  reported_after [] evs -> reported_after last (evs ++ last).
Proof.
  intros (pre & ok & Hpre & H). exists pre, ok. split; [exact Hpre|].
  rewrite !app_nil_r in H.
  destruct H as [->|[Hin ->]]; [left|right; split; [exact Hin|]];
    now rewrite <- app_assoc.
Qed.

(** An attempt returns True from [visit_page] right after a page-load wait
    that reported success, and the verification is called in no other
    attempt. *)
Lemma visit_attempt_reports (fuel : nat) (url : str) (attempt : nat)
    (max_retries : Z) st r st' evs :
  visit_attempt fuel url attempt max_retries st = (r, st', evs) ->
  (r = Ok true ->
   reported_after [Log Feedback BypassOk] evs
   /\ In (Called (Get url) true) evs)
  /\ (r <> Ok true -> filter is_verification evs = []).
Proof.
  intros H. unfold visit_attempt in H.
  exec.
  all: repeat match goal with
    | He : ensure_driver _ = _ |- _ => apply unverified_ensure_driver in He
    | He : clear_session_state _ _ = _ |- _ => apply unverified_clear in He
    | He : drop_session _ _ = _ |- _ => apply unverified_drop in He
    | He : _wait_for_page_load _ _ _ = _ |- _ =>
        apply wait_for_page_load_reports in He; destruct He as (? & ?)
    end.
  all: subst; try discriminate; try congruence.
  all: cbn [app]; rewrite ?app_nil_r.
  all: split; intros Hr; try discriminate; try congruence.
  all: repeat match goal with
    | Hn : ?a <> ?b -> filter is_verification _ = [] |- _ =>
        first
          [ specialize (Hn ltac:(discriminate))
          | specialize (Hn Hr)
          | clear Hn ]
    end.
  all: try solve [unverified].
  split.
  - reported_rest. apply reported_after_last. exact (H1 eq_refl).
  - apply in_or_app. right. cbn [In]. tauto.
Qed.

(** The loop over the attempts. *)
Lemma visit_attempts_report (fuel : nat) (url : str) (max_retries : Z)
    (attempts : list nat) :
  forall st r st' evs,
    visit_attempts fuel url attempts max_retries st = (r, st', evs) ->
    (r = Ok true ->
     reported_after [Log Feedback BypassOk] evs
     /\ In (Called (Get url) true) evs)
    /\ (r <> Ok true -> filter is_verification evs = []).
Proof.
  induction attempts as [|attempt attempts IH]; intros st r st' evs H.
  - inversion H; subst. split; [discriminate|reflexivity].
  - cbn [visit_attempts] in H. exec.
    all: repeat match goal with
      | Ha : visit_attempt _ _ _ _ _ = _ |- _ =>
          apply visit_attempt_reports in Ha; destruct Ha as (? & ?)
      | Hrec : visit_attempts _ _ _ _ _ = _ |- _ =>
          apply IH in Hrec; destruct Hrec as (? & ?)
      end.
    all: subst; try discriminate; try congruence.
    all: cbn [app]; rewrite ?app_nil_r.
    all: split; intros Hr; try discriminate; try congruence.
    all: repeat match goal with
      | Hn : ?a <> ?b -> filter is_verification _ = [] |- _ =>
          first
            [ specialize (Hn ltac:(discriminate))
            | specialize (Hn Hr)
            | clear Hn ]
      end.
    all: try solve [unverified].
    + exact (H Hr).
    + match goal with
      | Hrec : _ = Ok true -> _ /\ _ |- _ => destruct (Hrec Hr) as [Hrep Hin]
      end.
      split; [now apply reported_after_app|].
      apply in_or_app. now right.
Qed.

Lemma verification_reports (r : outcome bool) (evs : list Event) :
  (r <> Ok true -> filter is_verification evs = []) ->
  forall ok, In (Called WaitForBody ok) evs -> r = Ok true.
Proof.
  intros Hno ok Hin.
  assert (Hsel : In (Called WaitForBody ok) (filter is_verification evs))
    by (apply filter_In; split; [exact Hin|reflexivity]).
  destruct r as [[|]| |]; [reflexivity|..];
    rewrite Hno in Hsel by discriminate; contradiction.
Qed.

(** C1 (amended). Success is reported only after the structural
    verification has been called, by the page-load wait and by [visit_page]
    alike, and on both paths: the events of a successful wait end with the
    page source read that held no interstitial phrase, or with the end of the
    wait for the JS challenge after a detected challenge, followed by the call
    that waits for a body element and by one debug record when that call
    returned; [visit_page] has navigated, and adds its success record. The
    verification is called once, and what it gives does not decide the
    result: in every run in which it is called, whatever it gave, the wait
    and the visit return True. On a page without an interstitial phrase the
    wait reports success whether the body element was found or not. *)
Theorem page_load_success_follows_verification_call :
  (forall fuel timeout st r st' evs,
      _wait_for_page_load fuel timeout st = (r, st', evs) ->
      (r = Ok true -> reported_after [] evs)
      /\ (forall ok, In (Called WaitForBody ok) evs -> r = Ok true))
  /\ (forall fuel url max_retries st r st' evs,
        visit_page fuel url max_retries st = (r, st', evs) ->
        (r = Ok true ->
         reported_after [Log Feedback BypassOk] evs
         /\ In (Called (Get url) true) evs)
        /\ (forall ok, In (Called WaitForBody ok) evs -> r = Ok true))
  /\ (forall fuel timeout st ps elapsed w,
        driver_page_source (world st) = (Some ps, elapsed, w) ->
        any_in challenge_phrases (lower ps) = false ->
        (0 < timeout)%Z ->
        exists st' evs,
          _wait_for_page_load (S fuel) timeout st = (Ok true, st', evs)).
Proof.
  split; [|split].
  - intros fuel timeout st r st' evs H.
    destruct (wait_for_page_load_reports _ _ _ _ _ _ H) as [Hyes Hno].
    split; [exact Hyes|exact (verification_reports r evs Hno)].
  - intros fuel url max_retries st r st' evs H. unfold visit_page in H.
    destruct (visit_attempts_report _ _ _ _ _ _ _ _ H) as [Hyes Hno].
    split; [exact Hyes|exact (verification_reports r evs Hno)].
  - intros fuel timeout st ps elapsed w.
    apply wait_for_page_load_plain_page.
Qed.

End Navigator.

Arguments Called {Frame} c ok.
Arguments Log {Frame} l m.
Arguments NewChrome {Frame}.
Arguments ExecuteCdpCmd {Frame} c.
Arguments Get {Frame} url.
Arguments PageSource {Frame}.
Arguments ExecuteScript {Frame} s.
Arguments DeleteAllCookies {Frame}.
Arguments FindIframes {Frame}.
Arguments WaitCheckboxClickable {Frame}.
Arguments ClickCheckbox {Frame}.
Arguments SwitchToDefaultContent {Frame}.
Arguments WaitForBody {Frame}.
Arguments Quit {Frame}.
Arguments world {World} s.
Arguments clock {World} s.
Arguments driver {World} s.
Arguments Build_St {World} world clock driver.
Arguments markers {Frame} evs.
Arguments count_gets {Frame} evs.
Arguments failed_record {Frame} attempt max_retries.
Arguments error_record {Frame} attempt.
Arguments visit_page {World Frame} driver_call driver_page_source
  driver_find_iframes driver_get_src sleep_through lower
  fuel url max_retries.
Arguments _wait_for_page_load {World Frame} driver_call driver_page_source
  driver_find_iframes driver_get_src sleep_through lower fuel timeout.

(** *** A scripted site

    A small world to run the navigator in: the state is the number of times
    the page source has been read; a frame is its [src] attribute; every call
    is instantaneous and sleeping takes exactly the time asked for. *)
Record Site := {
  source_at : nat -> option str;
  body_found : bool;
  iframe_srcs : list (option str)
}.

Definition ascii_lower (s : str) : str :=
  map (fun c => if (N.leb 65 c && N.leb c 90)%bool then (c + 32)%N else c) s.

Definition site_call (site : Site) (c : Call (option str)) (reads : nat)
    : bool * N * nat :=
  (match c with WaitForBody => body_found site | _ => true end, 0%N, reads).

Definition site_source (site : Site) (reads : nat)
    : option str * N * nat :=
  (source_at site reads, 0%N, S reads).

Definition site_iframes (site : Site) (reads : nat)
    : option (list (option str)) * N * nat :=
  (Some (iframe_srcs site), 0%N, reads).

Definition site_src (f : option str) (reads : nat)
    : option (option str) * N * nat :=
  (Some f, 0%N, reads).

Definition site_sleep (ms : N) (reads : nat) : N * nat := (0%N, reads).

(** The page-load wait with the browser open on the site, and a whole visit
    starting without a browser. *)
Definition wait_on (site : Site) (fuel : nat)
    : outcome bool * St nat * list (Event (option str)) :=
  _wait_for_page_load (site_call site) (site_source site)
    (site_iframes site) site_src site_sleep ascii_lower fuel 15000
    {| world := 0; clock := 0; driver := true |}.

Definition visit_on (site : Site) (fuel : nat) (url : str) (max_retries : Z)
    : outcome bool * St nat * list (Event (option str)) :=
  visit_page (site_call site) (site_source site) (site_iframes site)
    site_src site_sleep ascii_lower fuel url max_retries
    {| world := 0; clock := 0; driver := false |}.

(** A page without interstitial phrase on which the wait for a body element
    fails. *)
Definition plain_site : Site :=
  {| source_at := fun _ => Some (of_string "<html><p>chapter one</p></html>");
     body_found := false;
     iframe_srcs := [] |}.

(** An interstitial with a challenge frame that goes away after the click;
    the wait for a body element fails here too. *)
Definition challenge_site : Site :=
  {| source_at := fun reads =>
       match reads with
       | O => Some (of_string "<title>Just a moment...</title>")
       | S _ => Some (of_string "<html><p>chapter one</p></html>")
       end;
     body_found := false;
     iframe_srcs :=
       [None; Some (of_string "https://challenges.cloudflare.com/cdn-cgi/x")]
  |}.

(** An interstitial that never goes away. *)
Definition stuck_site : Site :=
  {| source_at := fun _ => Some (of_string "<p>Please wait...</p>");
     body_found := true;
     iframe_srcs := [] |}.

Definition is_body_wait (e : Event (option str)) : bool :=
  match e with
  | Called WaitForBody _ => true
  | _ => false
  end.

Lemma page_load_success_follows_verification_call_witness :
  let wait := wait_on challenge_site 9 in
  let visit := visit_on plain_site 9 (of_string "https://site/novel/1") 2 in
  fst (fst wait) = Ok true
  /\ fst (fst visit) = Ok true
  /\ exists st' evs, wait_on plain_site 1 = (Ok true, st', evs).
Proof.
  intros wait visit. split; [|split].
  - destruct (page_load_success_follows_verification_call nat (option str)
                (site_call challenge_site) (site_source challenge_site)
                (site_iframes challenge_site) site_src site_sleep
                ascii_lower) as (Hwait & _ & _).
    apply (proj2 (Hwait 9 15000%Z
                    {| world := 0; clock := 0; driver := true |}
                    (fst (fst wait)) (snd (fst wait)) (snd wait)
                    ltac:(vm_compute; reflexivity)) false).
    vm_compute. tauto.
  - destruct (page_load_success_follows_verification_call nat (option str)
                (site_call plain_site) (site_source plain_site)
                (site_iframes plain_site) site_src site_sleep
                ascii_lower) as (_ & Hvisit & _).
    apply (proj2 (Hvisit 9 (of_string "https://site/novel/1") 2%Z
                    {| world := 0; clock := 0; driver := false |}
                    (fst (fst visit)) (snd (fst visit)) (snd visit)
                    ltac:(vm_compute; reflexivity)) false).
    vm_compute. tauto.
  - destruct (page_load_success_follows_verification_call nat (option str)
                (site_call plain_site) (site_source plain_site)
                (site_iframes plain_site) site_src site_sleep
                ascii_lower) as (_ & _ & Hplain).
    apply (Hplain 0 15000%Z {| world := 0; clock := 0; driver := true |}
             (of_string "<html><p>chapter one</p></html>") 0%N 1).
    + reflexivity.
    + vm_compute. reflexivity.
    + lia.
Defined.

(** C1, as stated, fails: on the plain page the wait for a body element
    raises, so [verify_page_loaded] is False, and the page-load wait still
    reports success; the same after a challenge that was detected and
    handled; and [visit_page] returns True on the plain page. *)
Lemma page_load_success_without_body :
  wait_on plain_site 9
  = (Ok true, {| world := 1; clock := 0; driver := true |},
     [Log Debug (PageLoadStart 15000); Called PageSource true;
      Called WaitForBody false])
  /\ fst (fst (wait_on challenge_site 9)) = Ok true
  /\ filter is_body_wait (snd (wait_on challenge_site 9))
     = [Called WaitForBody false]
  /\ fst (fst (visit_on plain_site 9 (of_string "https://site/novel/1") 2))
     = Ok true.
Proof. repeat split; vm_compute; reflexivity. Qed.

Lemma visit_page_retries_witness :
  exists r st' evs,
    visit_on stuck_site 9 (of_string "https://site/novel/1") 2
    = (r, st', evs)
    /\ r <> OutOfFuel
    /\ count_gets evs <= 2
    /\ (r = Ok true <-> In (Log Feedback BypassOk) evs)
    /\ (r = Ok false <->
        forall attempt, attempt < 2 ->
          In (failed_record attempt 2) evs \/ In (error_record attempt) evs)
    /\ (r = Raise <-> In (Called Quit false) evs).
Proof.
  exact (proj1 (visit_page_retries nat (option str) (site_call stuck_site)
                  (site_source stuck_site) (site_iframes stuck_site) site_src
                  site_sleep ascii_lower 9
                  (of_string "https://site/novel/1") 2
                  {| world := 0; clock := 0; driver := false |} (le_n 9))).
Defined.


(** *** The helpers on the scripted sites *)

Arguments track {Frame} alive evs.
Arguments count_polls {Frame} evs.
Arguments count_detections {Frame} evs.
Arguments is_enter {Frame} e.
Arguments is_click {Frame} e.
Arguments Did {Frame} e.
Arguments Noted {Frame} n.
Arguments SwitchToFrame {Frame} f.

(** A browser open on the site, at time zero. *)
Definition opened : St nat := {| world := 0; clock := 0; driver := true |}.

Definition turnstile_on (site : Site)
    : outcome bool * St nat * list (Event (option str)) :=
  handle_turnstile nat (option str) (site_call site) (site_source site)
    (site_iframes site) site_src site_sleep ascii_lower opened.

Definition js_wait_on (site : Site) (fuel : nat) (timeout : Z)
    : outcome bool * St nat * list (Event (option str)) :=
  _wait_for_js_challenge nat (option str) (site_source site) site_sleep
    ascii_lower fuel timeout opened.

Lemma handle_turnstile_outcomes_witness :
  let run := turnstile_on challenge_site in
  exists passed,
    fst (fst run) = Ok passed
    /\ (0 + 2000 <= clock (snd (fst run)))%N
    /\ driver (snd (fst run)) = true
    /\ length (filter is_enter (snd run)) <= 1
    /\ length (filter is_click (snd run)) <= 1
    /\ (forall f, In (Called (SwitchToFrame f) true) (snd run) ->
          exists ok, In (Called SwitchToDefaultContent ok) (snd run))
    /\ (passed = true ->
        (0 + 3000 <= clock (snd (fst run)))%N
        /\ (exists f, In (Called (SwitchToFrame f) true) (snd run))
        /\ In (Called SwitchToDefaultContent true) (snd run)
        /\ exists pre,
             snd run
             = pre ++ [Called PageSource true; Log Debug TurnstilePassed]).
Proof.
  intros run.
  apply (handle_turnstile_outcomes nat (option str) (site_call challenge_site)
           (site_source challenge_site) (site_iframes challenge_site) site_src
           site_sleep ascii_lower opened (fst (fst run)) (snd (fst run))
           (snd run)).
  vm_compute. reflexivity.
Defined.

Lemma wait_for_js_challenge_outcomes_witness :
  let run := js_wait_on stuck_site 6 5000 in
  count_polls (snd run) <= 5
  /\ (fst (fst run) = Ok true ->
      exists pre,
        snd run
        = pre ++ [Called PageSource true; Log Debug JsChallengePassed])
  /\ (fst (fst run) = Ok false ->
      (5000 <= Z.of_N (clock (snd (fst run))) - Z.of_N 0)%Z)
  /\ (fst (fst run) = Raise ->
      exists pre, snd run = pre ++ [Called PageSource false])
  /\ (5 < 6 -> fst (fst run) <> OutOfFuel)
  /\ driver (snd (fst run)) = true.
Proof.
  intros run.
  apply (wait_for_js_challenge_outcomes nat (option str)
           (site_source stuck_site) site_sleep ascii_lower 6 5000 opened
           (fst (fst run)) (snd (fst run)) (snd run)).
  vm_compute. reflexivity.
Defined.

Lemma wait_for_page_load_outcomes_witness :
  let run := wait_on stuck_site 9 in
  count_detections (snd run) <= 4
  /\ (15000%Z = 15000%Z -> count_detections (snd run) <= 4)
  /\ (fst (fst run) = Ok false ->
      (exists pre, snd run = pre ++ [Log Debug PageLoadTimeout])
      /\ (15000 <= Z.of_N (clock (snd (fst run))) - Z.of_N 0)%Z)
  /\ (fst (fst run) = Raise ->
      exists pre, snd run = pre ++ [Called PageSource false])
  /\ driver (snd (fst run)) = true.
Proof.
  intros run.
  apply (wait_for_page_load_outcomes nat (option str) (site_call stuck_site)
           (site_source stuck_site) (site_iframes stuck_site) site_src
           site_sleep ascii_lower 9 15000 opened
           (fst (fst run)) (snd (fst run)) (snd run)).
  vm_compute. reflexivity.
Defined.

Lemma visit_page_one_browser_witness :
  let run := visit_on stuck_site 9 (of_string "https://site/novel/1") 2 in
  track false (snd run) = Some (driver (snd (fst run)))
  /\ (fst (fst run) = Ok true -> driver (snd (fst run)) = true).
Proof.
  intros run.
  apply (visit_page_one_browser nat (option str) (site_call stuck_site)
           (site_source stuck_site) (site_iframes stuck_site) site_src
           site_sleep ascii_lower 9 (of_string "https://site/novel/1") 2
           {| world := 0; clock := 0; driver := false |}
           (fst (fst run)) (snd (fst run)) (snd run)).
  - vm_compute. reflexivity.
  - vm_compute. discriminate.
Defined.

(** A browser whose [quit] raises. *)
Definition quit_raises (c : Call (option str)) (reads : nat)
    : bool * N * nat :=
  (match c with Quit => false | _ => true end, 0%N, reads).

Lemma close_always_clears_witness :
  let run := close nat (option str) quit_raises opened in
  fst (fst run) = Ok tt
  /\ driver (snd (fst run)) = false
  /\ ((true = false /\ snd run = [])
      \/ (true = true
          /\ (snd run = [Did (Called Quit true); Noted BrowserClosed]
              \/ snd run = [Did (Called Quit false); Noted CloseFailed])))
  /\ close nat (option str) quit_raises (snd (fst run))
     = (Ok tt, snd (fst run), []).
Proof.
  intros run.
  apply (close_always_clears nat (option str) quit_raises opened
           (fst (fst run)) (snd (fst run)) (snd run)).
  vm_compute. reflexivity.
Defined.

Lemma get_page_content_outcomes_witness :
  let run :=
    get_page_content nat (option str) (site_source plain_site) opened in
  driver (snd (fst run)) = true
  /\ ((true = false /\ fst (fst run) = Ok None /\ snd run = []
       /\ snd (fst run) = opened)
      \/ (true = true
          /\ ((exists ps elapsed w,
                  site_source plain_site 0 = (Some ps, elapsed, w)
                  /\ fst (fst run) = Ok (Some ps)
                  /\ snd run = [Did (Called PageSource true)])
              \/ (fst (fst run) = Ok None
                  /\ snd run = [Did (Called PageSource false);
                                Noted PageContentFailed])))).
Proof.
  intros run.
  apply (get_page_content_outcomes nat (option str) (site_source plain_site)
           opened (fst (fst run)) (snd (fst run)) (snd run)).
  vm_compute. reflexivity.
Defined.

Lemma partial_page_source_snippet_witness :
  let run :=
    log_partial_page_source nat (option str) (site_source plain_site)
      (of_string "main") 5 opened in
  fst (fst run) = Ok tt
  /\ snd run
     = [Did (Called PageSource true);
        Noted (PageSourceSnippet (of_string "main") 31
                 (of_string "<html" ++ ELLIPSIS ++ of_string "html>"))].
Proof.
  intros run.
  destruct (partial_page_source_snippet nat (option str)
              (site_source plain_site) (of_string "main") 5 opened
              (fst (fst run)) (snd (fst run)) (snd run) eq_refl)
    as (Hr & _).
  split; [exact Hr|]. reflexivity.
Defined.

(** *** A browser that has crashed *)

(** Navigating raises, and so does [quit]. *)
Definition crashed (c : Call (option str)) (reads : nat)
    : bool * N * nat :=
  (match c with Get _ | Quit => false | _ => true end, 0%N, reads).

(** C7, at the failing input: a browser on which navigating raises and
    [quit] raises too, with two attempts allowed. The first attempt fails
    with an exception while an attempt remains; [driver.quit()] raises in the
    handler and that exception leaves [visit_page]: it returns neither True
    nor False, the second attempt is not made, and [self.driver] is still
    set. [close], on the browser that is left, catches the exception of
    [quit] and clears [self.driver]. *)
Lemma visit_page_quit_raises_in_handler :
  let url := of_string "https://site/novel/1" in
  let run :=
    visit_page crashed (site_source plain_site) (site_iframes plain_site)
      site_src site_sleep ascii_lower 9 url 2
      {| world := 0; clock := 0; driver := false |} in
  fst (fst run) = Raise
  /\ driver (snd (fst run)) = true
  /\ markers (snd run)
     = [Called NewChrome true; Called (Get url) false;
        Log Error (VisitError 1); Called Quit false]
  /\ count_gets (snd run) = 1
  /\ close nat (option str) crashed (snd (fst run))
     = (Ok tt, {| world := 0; clock := 0; driver := false |},
        [Did (Called Quit false); Noted CloseFailed]).
Proof. repeat split; vm_compute; reflexivity. Qed.

End Bypass.

(** ** The files on disk: from the crawler to the ePub

    What [BookTokiCrawler] writes under the base folder, and what
    [create_epub_from_txt] reads there. *)
Module Library.
Import Py.

(** [s.endswith(suffix)]. *)
Definition endswith (s suffix : str) : bool :=
  Bypass.starts_with (rev suffix) (rev s).

(** The list comprehension [[f for f in os.listdir(p) if f.endswith('.txt')]]
    of [create_epub_from_txt] and of [convert_novel_folder]. *)
Definition txt_files (names : list str) : list str :=
  filter (fun f => endswith f (of_string ".txt")) names.

(** The two syllables after the episode number, by code point. *)
Definition EPISODE : str := [54924]%N.
Definition EPISODE_FILE : str := [54924; 52264]%N.

(** The name of the folder of an episode in [parse_episode_list], and the
    name of its text file in [crawl_episode_content]. *)
Definition episode_folder_name (episode_no : str) : str :=
  Crawler.sanitize_filename (episode_no ++ EPISODE).

Definition episode_filename (ep_no : str) : str :=
  Crawler.sanitize_filename (ep_no ++ EPISODE_FILE ++ of_string ".txt").

(** [sorted] on strings: ascending in the order of the code points, a proper
    prefix first. *)
Fixpoint str_leb (a b : str) : bool :=
  match a, b with
  | [], _ => true
  | _ :: _, [] => false
  | x :: a', y :: b' =>
      if N.ltb x y then true
      else if N.eqb x y then str_leb a' b' else false
  end.

Fixpoint insert_sorted (x : str) (l : list str) : list str :=
  match l with
  | [] => [x]
  | y :: l' => if str_leb x y then x :: l else y :: insert_sorted x l'
  end.

Definition sorted (l : list str) : list str := fold_right insert_sorted [] l.

(** A chapter of the book: [epub.EpubHtml] with its title, file name and
    content. *)
Record Chapter := {
  chapter_title : str;
  file_name : str;
  content : str
}.

Inductive SpineItem :=
| Nav
| Chap (c : Chapter).

(** The book handed to [epub.write_epub], and the path it is written to. *)
Record Book := {
  title : str;
  author : str;
  toc : list Chapter;
  spine : list SpineItem;
  epub_path : str
}.

(** How [create_epub_from_txt] goes: it returns before making a book, an
    exception leaves it before the book is complete, or it hands the book to
    [epub.write_epub]. *)
Inductive Result :=
| Skipped
| Raised
| Written (book : Book).

Definition NO_TITLE : str := [51228; 47785; 50630; 51020]%N.
Definition NO_AUTHOR : str := [51089; 44032; 48120; 49345]%N.

Definition chapter_file (chap_num : nat) : str :=
  of_string "chap_" ++ Converter.decimal chap_num ++ of_string ".xhtml".

Section Epub.

(** The file system: [os.listdir] (which may raise), [os.path.isdir],
    [os.path.join], and reading a file as UTF-8 (which may raise). *)
Variable FS : Type.
Variable os_listdir : FS -> str -> option (list str).
Variable os_path_isdir : FS -> str -> bool.
Variable os_path_join : str -> str -> str.
Variable read_text : FS -> str -> option str.

(** The loop [for sub in subdirs], on the state [chap_num]; the chapters are
    those appended to [spine]. [None] when an exception leaves the loop. *)
Fixpoint collect_chapters (fs : FS) (base_folder : str) (subdirs : list str)
    (chap_num : nat) : option (list Chapter) :=
  match subdirs with
  | [] => Some []
  | sub :: subdirs' =>
      let sub_path := os_path_join base_folder sub in
      if negb (os_path_isdir fs sub_path)
      then collect_chapters fs base_folder subdirs' chap_num
      else
        match os_listdir fs sub_path with
        | None => None
        | Some names =>
            match txt_files names with
            | [] => collect_chapters fs base_folder subdirs' chap_num
            | txt_file :: _ =>
                let txt_path := os_path_join sub_path txt_file in
                match read_text fs txt_path with
                | None => None
                | Some content_text =>
                    let c :=
                      {| chapter_title := sub;
                         file_name := chapter_file chap_num;
                         content :=
                           of_string "<h2>" ++ sub ++ of_string "</h2><pre>"
                             ++ content_text ++ of_string "</pre>" |} in
                    match collect_chapters fs base_folder subdirs'
                            (S chap_num) with
                    | None => None
                    | Some cs => Some (c :: cs)
                    end
                end
            end
        end
  end.

(** [create_epub_from_txt], from whether [ebooklib] could be imported,
    [self.info] and [self.base_folder]. *)
Definition create_epub_from_txt (epub_imported : bool) (info : Crawler.dict)
    (base_folder : str) (fs : FS) : Result :=
  if negb epub_imported then Skipped
  else
    let w := Crawler.dict_get info (of_string "writer") (of_string "NoWriter")
    in
    let t := Crawler.dict_get info (of_string "title") (of_string "NoTitle")
    in
    if negb (truthy base_folder) then Skipped
    else
      match os_listdir fs base_folder with
      | None => Raised
      | Some names =>
          match collect_chapters fs base_folder (sorted names) 1 with
          | None => Raised
          | Some chapters =>
              Written
                {| title := if truthy t then t else NO_TITLE;
                   author := if truthy w then w else NO_AUTHOR;
                   toc := chapters;
                   spine := Nav :: map Chap chapters;
                   epub_path :=
                     os_path_join base_folder (Crawler.epub_name base_folder)
                |}
          end
      end.

(** A subfolder that gives a chapter: a directory with a text file. *)
Definition has_text (fs : FS) (base_folder sub : str) : bool :=
  os_path_isdir fs (os_path_join base_folder sub)
  && match os_listdir fs (os_path_join base_folder sub) with
     | Some names => truthy (txt_files names)
     | None => false
     end.

Lemma collect_chapters_spec (fs : FS) (base_folder : str)
    (subdirs : list str) :
  forall chap_num chapters,
    collect_chapters fs base_folder subdirs chap_num = Some chapters ->
    map chapter_title chapters = filter (has_text fs base_folder) subdirs
    /\ map file_name chapters
       = map chapter_file (seq chap_num (length chapters)).
Proof.
  induction subdirs as [|sub subdirs IH]; intros chap_num chapters H.
  - injection H as <-. split; reflexivity.
  - cbn [collect_chapters] in H. cbn [filter]. unfold has_text at 1.
    destruct (os_path_isdir fs (os_path_join base_folder sub));
      cbn [negb andb] in *; [|now apply IH].
    destruct (os_listdir fs (os_path_join base_folder sub)) as [names|];
      [|discriminate].
    destruct (txt_files names) as [|txt_file rest]; cbn [truthy];
      [now apply IH|].
    destruct (read_text fs _) as [content_text|]; [|discriminate].
    destruct (collect_chapters fs base_folder subdirs (S chap_num))
      as [cs|] eqn:E; [|discriminate].
    injection H as <-. destruct (IH _ _ E) as [Htitles Hfiles].
    cbn [map length seq chapter_title file_name].
    now rewrite Htitles, Hfiles.
Qed.

End Epub.

Arguments collect_chapters {FS} os_listdir os_path_isdir os_path_join
  read_text fs base_folder subdirs chap_num.
Arguments create_epub_from_txt {FS} os_listdir os_path_isdir os_path_join
  read_text epub_imported info base_folder fs.
Arguments has_text {FS} os_listdir os_path_isdir os_path_join fs base_folder
  sub.

(** *** The order of [sorted] *)

Lemma str_leb_refl (a : str) : str_leb a a = true.
Proof.
  induction a as [|x a IH]; [reflexivity|]. cbn [str_leb].
  now rewrite N.ltb_irrefl, N.eqb_refl.
Qed.

Lemma str_leb_total (a b : str) : str_leb a b = false -> str_leb b a = true.
Proof.
  revert b. induction a as [|x a IH]; intros [|y b] H; try discriminate;
    [reflexivity|].
  cbn [str_leb] in *.
  destruct (N.ltb_spec x y); [discriminate|].
  destruct (N.eqb_spec x y) as [->|Hne].
  - rewrite N.ltb_irrefl, N.eqb_refl. now apply IH.
  - destruct (N.ltb_spec y x); [reflexivity|lia].
Qed.

Lemma str_leb_trans (a b c : str) :
  str_leb a b = true -> str_leb b c = true -> str_leb a c = true.
Proof.
  revert b c. induction a as [|x a IH]; intros [|y b] [|z c] Hab Hbc;
    try reflexivity; try discriminate.
  cbn [str_leb] in *.
  destruct (N.ltb_spec x y) as [Hxy|Hxy].
  - destruct (N.ltb_spec y z) as [Hyz|Hyz].
    + destruct (N.ltb_spec x z); [reflexivity|lia].
    + destruct (N.eqb_spec y z) as [->|]; [|discriminate].
      destruct (N.ltb_spec x z); [reflexivity|lia].
  - destruct (N.eqb_spec x y) as [->|]; [|discriminate].
    destruct (N.ltb_spec y z); [reflexivity|].
    destruct (N.eqb_spec y z) as [->|]; [|discriminate].
    now apply (IH b).
Qed.

(** In the order of [sorted]. *)
Definition ordered (l : list str) : Prop :=
  forall i j a b,
    i < j -> nth_error l i = Some a -> nth_error l j = Some b ->
    str_leb a b = true.

Lemma ordered_cons (x : str) (l : list str) :
  ordered (x :: l) <-> (forall y, In y l -> str_leb x y = true) /\ ordered l.
Proof.
  split.
  - intros H. split.
    + intros y Hy. apply In_nth_error in Hy. destruct Hy as (j & Hj).
      apply (H 0 (S j)); [lia|reflexivity|exact Hj].
    + intros i j a b Hij Ha Hb. apply (H (S i) (S j)); [lia|exact Ha|exact Hb].
  - intros [Hx Hl] i j a b Hij Ha Hb.
    destruct j as [|j]; [lia|]. cbn [nth_error] in Hb.
    destruct i as [|i].
    + injection Ha as <-. apply Hx. now apply nth_error_In in Hb.
    + cbn [nth_error] in Ha. apply (Hl i j); [lia|exact Ha|exact Hb].
Qed.

Lemma insert_sorted_In (x y : str) (l : list str) :
  In y (insert_sorted x l) <-> y = x \/ In y l.
Proof.
  induction l as [|z l IH]; cbn [insert_sorted In]; [intuition|].
  destruct (str_leb x z); cbn [In]; [intuition|]. rewrite IH. intuition.
Qed.

Lemma insert_sorted_ordered (x : str) (l : list str) :
  ordered l -> ordered (insert_sorted x l).
Proof.
  induction l as [|z l IH]; intros Hl; cbn [insert_sorted].
  - apply ordered_cons. split; [intros y []|]. intros i j a b _ Ha.
    now destruct i.
  - apply ordered_cons in Hl. destruct Hl as [Hz Hl].
    destruct (str_leb x z) eqn:E.
    + apply ordered_cons. split.
      * intros y [<-|Hy]; [exact E|].
        apply (str_leb_trans x z y E). now apply Hz.
      * apply ordered_cons. now split.
    + apply ordered_cons. split; [|now apply IH].
      intros y Hy. apply insert_sorted_In in Hy.
      destruct Hy as [->|Hy]; [now apply str_leb_total|now apply Hz].
Qed.

Lemma sorted_In (l : list str) (y : str) : In y (sorted l) <-> In y l.
Proof.
  induction l as [|x l IH]; [reflexivity|].
  cbn [sorted fold_right In]. fold (sorted l).
  rewrite insert_sorted_In, IH. intuition.
Qed.

Lemma sorted_ordered (l : list str) : ordered (sorted l).
Proof.
  induction l as [|x l IH].
  - intros i j a b _ Ha. now destruct i.
  - cbn [sorted fold_right]. now apply insert_sorted_ordered.
Qed.

Lemma ordered_filter (keep : str -> bool) (l : list str) :
  ordered l -> ordered (filter keep l).
Proof.
  induction l as [|x l IH]; intros Hl; [exact Hl|].
  apply ordered_cons in Hl. destruct Hl as [Hx Hl]. cbn [filter].
  destruct (keep x); [|now apply IH].
  apply ordered_cons. split; [|now apply IH].
  intros y Hy. apply filter_In in Hy. now apply Hx.
Qed.

(** *** Text files *)

Lemma endswith_app (s suffix : str) : endswith (s ++ suffix) suffix = true.
Proof.
  unfold endswith. rewrite rev_app_distr. apply Bypass.starts_with_app.
Qed.

Lemma episode_filename_parts (ep_no : str) :
  episode_filename ep_no
  = Crawler.sanitize_filename ep_no ++ EPISODE_FILE ++ of_string ".txt".
Proof.
  unfold episode_filename. rewrite !Crawler.sanitize_filename_app.
  reflexivity.
Qed.

(** X23. Whatever the episode number read off the page, the text file of
    the episode has a name that ends in [.txt] (the number sanitised, then
    the two syllables and the extension) and that holds none of the nine
    characters: among the names of a folder, it passes the filter on [.txt]
    that the ePub builder and the image converter both apply. *)
Theorem episode_file_is_selected (ep_no : str) (names : list str) :
  episode_filename ep_no
  = Crawler.sanitize_filename ep_no ++ EPISODE_FILE ++ of_string ".txt"
  /\ Forall (fun c => ~ In c Crawler.illegal_chars) (episode_filename ep_no)
  /\ endswith (episode_filename ep_no) (of_string ".txt") = true
  /\ (In (episode_filename ep_no) names ->
      In (episode_filename ep_no) (txt_files names)).
Proof.
  split; [apply episode_filename_parts|].
  split; [apply Crawler.sanitize_filename_legal|].
  assert (Hends : endswith (episode_filename ep_no) (of_string ".txt") = true).
  { rewrite episode_filename_parts, app_assoc. apply endswith_app. }
  split; [exact Hends|].
  intros Hin. apply filter_In. now split.
Qed.

(** X24. When [create_epub_from_txt] hands a book to [epub.write_epub], its
    chapters are the subfolders of the base folder that are directories
    holding a text file, taken in the order of [sorted] on their names, which
    is the order of the code points and not of the episode numbers; the files
    of the chapters are numbered 1, 2, ... without a gap, whatever was
    skipped in between; the table of contents is the spine without its first
    item; and neither the title nor the author of the book is empty. *)
Theorem epub_chapters_in_sorted_order {FS}
    (os_listdir : FS -> str -> option (list str))
    (os_path_isdir : FS -> str -> bool) (os_path_join : str -> str -> str)
    (read_text : FS -> str -> option str) (info : Crawler.dict)
    (base_folder : str) (fs : FS) (book : Book) :
  create_epub_from_txt os_listdir os_path_isdir os_path_join read_text true
    info base_folder fs = Written book ->
  exists names,
    os_listdir fs base_folder = Some names
    /\ map chapter_title (toc book)
       = filter (has_text os_listdir os_path_isdir os_path_join fs
                   base_folder) (sorted names)
    /\ (forall sub, In sub (map chapter_title (toc book)) <->
          In sub names
          /\ has_text os_listdir os_path_isdir os_path_join fs base_folder
               sub = true)
    /\ ordered (map chapter_title (toc book))
    /\ map file_name (toc book)
       = map chapter_file (seq 1 (length (toc book)))
    /\ spine book = Nav :: map Chap (toc book)
    /\ title book <> [] /\ author book <> []
    /\ base_folder <> [].
Proof.
  unfold create_epub_from_txt. cbn [negb]. cbv zeta.
  destruct base_folder as [|c base] eqn:Ebase; [discriminate|].
  cbn [truthy negb]. rewrite <- Ebase.
  destruct (os_listdir fs base_folder) as [names|]; [|discriminate].
  destruct (collect_chapters _ _ _ _ fs base_folder (sorted names) 1)
    as [chapters|] eqn:E; [|discriminate].
  intros H. injection H as <-. cbn [toc spine title author].
  destruct (collect_chapters_spec FS os_listdir os_path_isdir os_path_join
              read_text fs base_folder (sorted names) 1 chapters E)
    as [Htitles Hfiles].
  exists names. split; [reflexivity|]. split; [exact Htitles|].
  split; [|split; [|split; [exact Hfiles|split; [reflexivity|]]]].
  - intros sub. rewrite Htitles, filter_In, sorted_In. reflexivity.
  - rewrite Htitles. apply ordered_filter, sorted_ordered.
  - split; [|split].
    + match goal with
      | |- (if truthy ?d then _ else _) <> [] =>
          destruct d; cbn [truthy]; unfold NO_TITLE; discriminate
      end.
    + match goal with
      | |- (if truthy ?d then _ else _) <> [] =>
          destruct d; cbn [truthy]; unfold NO_AUTHOR; discriminate
      end.
    + rewrite Ebase. discriminate.
Qed.

(** A base folder with the episodes 1, 2 and 10, a stray file, and the ePub
    of an earlier run. *)
Definition shelf (path : str) : option (list str) :=
  if Crawler.str_eqb path (of_string "book")
  then Some [[49; 54924]%N; of_string "notes.txt"; [50; 54924]%N;
             of_string "book.epub"; [49; 48; 54924]%N]
  else Some [of_string "images"; [49; 54924; 52264; 46; 116; 120; 116]%N].

Definition shelf_isdir (path : str) : bool :=
  negb (endswith path (of_string ".txt") || endswith path (of_string ".epub")).

(** The book of a result, when there is one. *)
Definition written (r : Result) : Book :=
  match r with
  | Written book => book
  | _ => {| title := []; author := []; toc := []; spine := [];
            epub_path := [] |}
  end.

Lemma epub_chapters_in_sorted_order_witness :
  let book :=
    written
      (create_epub_from_txt (fun _ => shelf) (fun _ => shelf_isdir)
         (fun d f => d ++ [47%N] ++ f) (fun _ _ => Some (of_string "text"))
         true [(of_string "title", [])] (of_string "book") tt) in
  map chapter_title (toc book) = [[49; 48; 54924]; [49; 54924]; [50; 54924]]%N
  /\ ordered (map chapter_title (toc book))
  /\ map file_name (toc book) = map chapter_file (seq 1 3)
  /\ title book <> [].
Proof.
  intros book.
  destruct (epub_chapters_in_sorted_order (fun _ => shelf)
              (fun _ => shelf_isdir) (fun d f => d ++ [47%N] ++ f)
              (fun _ _ => Some (of_string "text")) [(of_string "title", [])]
              (of_string "book") tt book eq_refl)
    as (names & _ & _ & _ & Hordered & Hfiles & _ & Htitle & _).
  split; [reflexivity|]. split; [exact Hordered|].
  split; [exact Hfiles|exact Htitle].
Defined.

End Library.
